(** * Connection lifecycle, retry and transaction layer of the SurrealDB ORM

    A shallow embedding of

    - [surrealdb/orm/connection/single.py]     (retrying single connection),
    - [surrealdb/orm/connection/async_pool.py] and
      [surrealdb/orm/connection/sync_pool.py]  (connection pools),
    - [surrealdb/orm/connection/manager.py]    (the database manager),
    - [surrealdb/connections/transaction.py]   (transaction scopes),
    - [surrealdb/orm/helpers/base_helpers.py]  (query builders),
    - [surrealdb/orm/types.py]                 (bulk results),

    followed by the properties established about them.

    Python code is written in a small state-and-exception monad.  Calls to
    the collaborators the layer does not own (the wire-level connection
    objects, the logger, the clock) are recorded, with their result, in a
    chronological trace; whether such a call returns or raises, and what it
    raises, is decided by an oracle [env] that sees the whole history, so
    that every sequential behaviour of the collaborators is covered.

    The classes of the layer are decorated with loguru's [logger.catch];
    the decorator is modelled as loguru 0.6 applies it to a class (see
    [logger_catch]).  Floats are binary64 numbers: the finite ones are the
    rationals they denote, and the operations round, overflow and raise as
    Python's do. *)

From Stdlib Require Import ZArith List String Ascii Bool Lia QArith Qabs Arith.
From Stdlib Require Import DecimalString.
Import ListNotations.
Close Scope Q_scope.

Set Implicit Arguments.
Set Warnings "-register-all".

(* ================================================================== *)
(** * Part I. The embedding                                            *)
(* ================================================================== *)

(** ** Python values shared by the components *)

(** [str(n)] for an integer. *)
Definition str_of_Z (z : Z) : string := NilZero.string_of_int (Z.to_int z).

(** A connection object, named by the order in which it was constructed. *)
Definition conn : Type := nat.

(** What a failing call raises, when it is an [Exception] the layer does
    not raise itself: one of the two classes the [except] clauses of the
    pools name, or any other class, told apart by a tag. *)
Inductive failure : Type :=
| Other (tag : nat)                 (* a subclass of Exception no clause names     *)
| QueueEmpty                        (* queue.Empty                                 *)
| AsyncioTimeout.                   (* asyncio.TimeoutError                        *)

Coercion Other : nat >-> failure.

(** Exceptions.  [__cause__] (set by [raise ... from e]) is the second
    argument of [ConnectionError].  Messages keep the literal text of the
    source's f-strings; the interpolated description of the cause is left
    out, the cause itself is kept. *)
Inductive exn : Type :=
| ValueError (msg : string)
| ZeroDivisionError
| OverflowError
| ConnectionError (msg : string) (cause : option exn)   (* surrealdb.orm.exceptions *)
| Failure (f : failure)             (* the Exception a collaborator raises         *)
| BaseFailure (tag : nat).          (* a BaseException that is not an Exception    *)

Abbreviation TimeoutError := (Failure AsyncioTimeout).   (* from asyncio.wait_for *)
Abbreviation Empty := (Failure QueueEmpty).              (* from Queue.get        *)

(** [isinstance(e, Exception)]: what [except Exception] catches. *)
Definition is_Exception (e : exn) : bool :=
  match e with
  | BaseFailure _ => false
  | _ => true
  end.

(** How a call ends: it returns, it raises, or it never comes back (a
    producer waiting on a full queue, a consumer on an empty one). *)
Inductive outcome (A : Type) : Type :=
| Return (a : A)
| Raise (e : exn)
| Blocked.
Arguments Return {A} a.
Arguments Raise {A} e.
Arguments Blocked {A}.

(** ** The monad *)

Definition M (St A : Type) : Type := St -> outcome A * St.

Definition ret {St A} (a : A) : M St A := fun s => (Return a, s).

Definition bind {St A B} (m : M St A) (k : A -> M St B) : M St B :=
  fun s =>
    match m s with
    | (Return a, s') => k a s'
    | (Raise e, s') => (Raise e, s')
    | (Blocked, s') => (Blocked, s')
    end.

Definition raise {St A} (e : exn) : M St A := fun s => (Raise e, s).

Declare Scope py_scope.
Delimit Scope py_scope with py.
Notation "x <- m ;; k" := (bind m (fun x => k))
  (at level 61, m at next level, right associativity) : py_scope.
Notation "m ;; k" := (bind m (fun _ => k))
  (at level 61, right associativity) : py_scope.
Open Scope py_scope.

(** A computation without effect: an expression that yields a value or
    raises. *)
Definition eval {St A} (o : outcome A) : M St A := fun s => (o, s).

(** [try: body  except ...: handler].  The handler answers [None] for an
    exception no clause matches. *)
Definition try_except {St A} (body : M St A) (handler : exn -> option (M St A))
  : M St A :=
  fun s =>
    match body s with
    | (Raise e, s') =>
        match handler e with
        | Some h => h s'
        | None => (Raise e, s')
        end
    | r => r
    end.

(** The clause [except Exception as e: h e]. *)
Definition except_Exception {St A} (h : exn -> M St A) : exn -> option (M St A) :=
  fun e => if is_Exception e then Some (h e) else None.

(** [try: body  finally: final]: [final] runs however [body] ends, and an
    exception of [final] replaces the result of [body]. *)
Definition try_finally {St A} (body : M St A) (final : M St unit) : M St A :=
  fun s =>
    match body s with
    | (Blocked, s') => (Blocked, s')
    | (r, s') =>
        match final s' with
        | (Return _, s'') => (r, s'')
        | (Raise e, s'') => (Raise e, s'')
        | (Blocked, s'') => (Blocked, s'')
        end
    end.

(** ** Floats

    A Python float is a binary64 number: 53 significant bits, finite
    values below [2 ^ 1024] in magnitude, the smallest of them multiples of
    [2 ^ -1074].  A finite float is the rational it denotes (the sign of a
    zero is not kept); [nan] arises nowhere in the layer. *)
Inductive pyfloat : Type :=
| Finite (q : Q)
| Infinity (negative : bool).       (* inf and -inf *)

Definition float_limit : Z := 2 ^ 1024.

(** [n / d], [d > 0], rounded to the nearest integer, a tie to the even
    one. *)
Definition nearest_even (n d : Z) : Z :=
  let q := (n / d)%Z in
  match (2 * (n mod d) ?= d)%Z with
  | Lt => q
  | Gt => (q + 1)%Z
  | Eq => if Z.even q then q else (q + 1)%Z
  end.

(** The integer part of the binary logarithm of [n / d], for [n, d > 0]. *)
Definition floor_log2 (n d : Z) : Z :=
  let k := (Z.log2 n - Z.log2 d)%Z in
  let low := if (0 <=? k)%Z then (n <? d * 2 ^ k)%Z else (n * 2 ^ (- k) <? d)%Z in
  if low then (k - 1)%Z else k.

(** The floats around [n / d] are the multiples of [2 ^ e], [e] this
    exponent: 53 bits below the leading one, and never below [-1074]. *)
Definition ulp_exponent (n d : Z) : Z := Z.max (floor_log2 n d - 52) (-1074).

(** [m * 2 ^ e] *)
Definition scaled (m e : Z) : Q :=
  if (0 <=? e)%Z then inject_Z (m * 2 ^ e) else Qmake m (Z.to_pos (2 ^ (- e))).

(** The float nearest to [n / d], [n, d > 0], with the sign given: the
    rounding of IEEE 754 (to nearest, ties to even), [inf] from
    [float_limit] on. *)
Definition round_magnitude (negative : bool) (n d : Z) : pyfloat :=
  let e := ulp_exponent n d in
  let m :=
    if (0 <=? e)%Z then nearest_even n (d * 2 ^ e) else nearest_even (n * 2 ^ (- e)) d in
  if ((0 <=? e) && (float_limit <=? m * 2 ^ e))%Z then Infinity negative
  else Finite (if negative then Qopp (scaled m e) else scaled m e).

(** The float an arithmetic operation yields for the exact result [q]. *)
Definition binary64 (q : Q) : pyfloat :=
  match Qnum q with
  | Z0 => Finite (0 # 1)
  | Zpos n => round_magnitude false (Zpos n) (Zpos (Qden q))
  | Zneg n => round_magnitude true (Zpos n) (Zpos (Qden q))
  end.

(** [x * y] on floats. *)
Definition float_mul (x y : Q) : pyfloat := binary64 (Qmult x y).

(** ** The outside world *)

Inductive level : Type := INFO | WARNING | ERROR.

(** What the layer asks of its collaborators. *)
Inductive event : Type :=
| Construct (c : conn)              (* self._connection_class(self._url)           *)
| Signin (c : conn)                 (* connection.signin(self._auth_params)        *)
| Use (c : conn)                    (* connection.use(namespace, database)         *)
| Version (c : conn)                (* connection.version(), the liveness probe    *)
| Close (c : conn)                  (* connection.close()                          *)
| Begin_transaction (c : conn)
| Commit_transaction (c : conn)
| Rollback_transaction (c : conn)
| Operation (c : conn)              (* operation(connection)                       *)
| Sleep (delay : pyfloat)           (* asyncio.sleep(delay) / time.sleep(delay)    *)
| Get (timeout : option Q)          (* a get on the availability queue             *)
| Log (l : level) (msg : string)    (* self._logger.<level>(...): the message, short *)
| Enter_release (c : conn).         (* release(c) was entered                      *)

(** A trace entry: the call and, when it raised, what it raised. *)
Definition entry : Type := event * option failure.

Record world : Type := mkWorld {
  trace : list entry;               (* oldest first *)
  next_conn : conn                  (* the next connection to be constructed *)
}.

(** The oracle: given the history, does this call raise, and what?  A
    collaborator that fails raises an [Exception]; exceptions outside
    [Exception] (cancellation, interrupts) are modelled for the operation
    only. *)
Definition oracle : Type := list entry -> event -> option failure.

Definition record_entry (x : entry) (w : world) : world :=
  {| trace := trace w ++ [x]; next_conn := next_conn w |}.
Arguments record_entry x w /.

(** A call to a collaborator that may fail. *)
Definition call (env : oracle) (ev : event) : M world unit :=
  fun w =>
    match env (trace w) ev with
    | None => (Return tt, record_entry (ev, None) w)
    | Some f => (Raise (Failure f), record_entry (ev, Some f) w)
    end.

(** A call that always returns (logging, a recorded step). *)
Definition emit (ev : event) : M world unit :=
  fun w => (Return tt, record_entry (ev, None) w).

Definition log (l : level) (msg : string) : M world unit := emit (Log l msg).

(** The two concurrency models of the layer. *)
Inductive flavour : Type := Async | Sync.

(** A call that never comes back. *)
Definition never_returns {A} (ev : event) : M world A :=
  fun w => (Blocked, record_entry (ev, None) w).

(** [await asyncio.sleep(d)] returns, at once when [d <= 0], unless [d] is
    [inf]: then the timer never fires.  [time.sleep(d)] returns or raises:
    [ValueError] for a negative [d], [OverflowError] for a [d] outside the
    range of the C timestamp, [OSError] when the system call refuses the
    deadline.  Where those ranges end depends on the platform; the oracle
    decides, as for every call to a collaborator. *)
Definition sleep (fl : flavour) (env : oracle) (delay : pyfloat) : M world unit :=
  match fl with
  | Async =>
      match delay with
      | Infinity false => never_returns (Sleep delay)
      | _ => emit (Sleep delay)
      end
  | Sync => call env (Sleep delay)
  end.

(** ** RetryExecutor: [execute_with_retry] / [_execute_with_retry] *)

(** The callable handed to the executor.  Its effect on the database is
    not modelled; what the executor sees is how its [n]-th invocation ends. *)
Definition operation (A : Type) : Type := nat -> conn -> outcome A.

Definition invoke {A} (op : operation A) (attempt : nat) (c : conn) : M world A :=
  fun w => (op attempt c, record_entry (Operation c, None) w).

(** [range(n)] *)
Definition range (n : Z) : list nat := seq 0 (Z.to_nat n).

(** [retry_delay * (2 ** attempt)], for a float [retry_delay] (as it is
    annotated) and the int [2 ** attempt].  The int is converted to a
    float first, which raises [OverflowError] from [2 ** 1024] on; the
    product of a float by a power of two is exact, and it is [inf] or
    [-inf] once it leaves the range of the finite floats. *)
Definition backoff (retry_delay : Q) (attempt : nat) : outcome pyfloat :=
  if (1024 <=? Z.of_nat attempt)%Z then Raise OverflowError
  else
    let delay := Qmult retry_delay (inject_Z (2 ^ Z.of_nat attempt)) in
    if Qle_bool (inject_Z float_limit) (Qabs delay)
    then Return (Infinity (negb (Qle_bool 0 delay)))
    else Return (Finite delay).

Definition exhausted_msg (max_retries : Z) : string :=
  ("Operation failed after " ++ str_of_Z (max_retries + 1) ++ " attempts")%string.

(** The body of the [for attempt in range(max_retries + 1)] loop, over the
    attempts still to run, followed by the final [raise ... from
    last_exception]. *)
Fixpoint retry_loop {A} (fl : flavour) (env : oracle) (max_retries : Z) (retry_delay : Q)
    (op : operation A) (connection : conn)
    (attempts : list nat) (last_exception : option exn) : M world A :=
  match attempts with
  | [] => raise (ConnectionError (exhausted_msg max_retries) last_exception)
  | attempt :: rest =>
      try_except
        (invoke op attempt connection)
        (except_Exception (fun e =>
           (if (Z.of_nat attempt <? max_retries)%Z
            then
              delay <- eval (backoff retry_delay attempt) ;;
              log WARNING "Operation failed, retrying" ;;
              sleep fl env delay
            else
              log ERROR "Operation failed after all attempts") ;;
           retry_loop fl env max_retries retry_delay op connection rest (Some e)))
  end.

Definition _execute_with_retry {A} (fl : flavour) (env : oracle) (max_retries : Z)
    (retry_delay : Q) (op : operation A) (connection : conn) : M world A :=
  retry_loop fl env max_retries retry_delay op connection (range (max_retries + 1)) None.

(** ** SingleConnection *)

Record SingleConnection : Type := mkSingle {
  single_connection : conn;         (* self._connection  *)
  single_max_retries : Z;           (* self._max_retries *)
  single_retry_delay : Q            (* self._retry_delay *)
}.

(** [AsyncSingleConnection.execute_with_retry] ([fl = Async]) and
    [SyncSingleConnection.execute_with_retry] ([fl = Sync]). *)
Definition execute_with_retry {A} (fl : flavour) (env : oracle) (self : SingleConnection)
    (op : operation A) : M world A :=
  retry_loop fl env (single_max_retries self) (single_retry_delay self) op
    (single_connection self) (range (single_max_retries self + 1)) None.

(** [AsyncSingleConnection.ensure_connected] and
    [SyncSingleConnection.ensure_connected].  [check_operation] is the local
    function that calls [conn.version()]: its [n]-th invocation ends as the
    [n]-th probe of the connection does. *)
Definition ensure_connected (fl : flavour) (env : oracle) (self : SingleConnection)
    (check_operation : operation string) : M world unit :=
  try_except
    (execute_with_retry fl env self check_operation ;; ret tt)
    (except_Exception (fun e =>
       raise (ConnectionError "Connection check failed" (Some e)))).

(** [AsyncSingleConnection.close] and [SyncSingleConnection.close]. *)
Definition close (env : oracle) (self : SingleConnection) : M world unit :=
  try_except
    (call env (Close (single_connection self)))
    (except_Exception (fun e => log WARNING "Error closing connection")).

(** ** Objects with mutable fields

    A method runs on its object [self] and on the world. *)

Definition lift {O A} (m : M world A) : M (O * world) A :=
  fun s => let (r, w) := m (snd s) in (r, (fst s, w)).

Definition get_self {O} : M (O * world) O := fun s => (Return (fst s), s).

Definition set_self {O} (f : O -> O) : M (O * world) unit :=
  fun s => (Return tt, (f (fst s), snd s)).

(** ** TransactionScope: [AsyncTransaction] and [SyncTransaction] *)

Record Transaction : Type := mkTransaction {
  connection : conn;                (* self.connection      *)
  _in_transaction : bool            (* self._in_transaction *)
}.

(** [__init__] *)
Definition new_transaction (c : conn) : Transaction :=
  {| connection := c; _in_transaction := false |}.

Definition set_in_transaction (b : bool) (self : Transaction) : Transaction :=
  {| connection := connection self; _in_transaction := b |}.

(** [AsyncTransaction.__aenter__] *)
Definition __aenter__ (env : oracle) : M (Transaction * world) unit :=
  self <- get_self ;;
  lift (call env (Begin_transaction (connection self))) ;;
  set_self (set_in_transaction true).

(** [AsyncTransaction.__aexit__(exc_type, exc_val, exc_tb)]; [exc] is
    [None] exactly when [exc_type is None].  The method returns [None]. *)
Definition __aexit__ (env : oracle) (exc : option exn) : M (Transaction * world) unit :=
  self <- get_self ;;
  if negb (_in_transaction self) then ret tt
  else
    try_finally
      (match exc with
       | None => lift (call env (Commit_transaction (connection self)))
       | Some _ => lift (call env (Rollback_transaction (connection self)))
       end)
      (set_self (set_in_transaction false)).

(** [SyncTransaction.__enter__] *)
Definition __enter__ (env : oracle) : M (Transaction * world) unit :=
  self <- get_self ;;
  lift (call env (Begin_transaction (connection self))) ;;
  set_self (set_in_transaction true).

(** [SyncTransaction.__exit__(exc_type, exc_val, exc_tb)] *)
Definition __exit__ (env : oracle) (exc : option exn) : M (Transaction * world) unit :=
  self <- get_self ;;
  if negb (_in_transaction self) then ret tt
  else
    try_finally
      (match exc with
       | None => lift (call env (Commit_transaction (connection self)))
       | Some _ => lift (call env (Rollback_transaction (connection self)))
       end)
      (set_self (set_in_transaction false)).

(** The [with] / [async with] statement around a context manager whose
    exit method returns [None]: a falsy result never suppresses the
    exception of the body, which is raised again once exit has returned. *)
Definition with_statement {St A} (enter : M St unit) (exit : option exn -> M St unit)
    (body : M St A) : M St A :=
  enter ;;
  fun s =>
    match body s with
    | (Return a, s') => (exit None ;; ret a) s'
    | (Raise e, s') => (exit (Some e) ;; raise e) s'
    | (Blocked, s') => (Blocked, s')
    end.

(** [async with AsyncTransaction(c) as tx: body] and
    [with SyncTransaction(c) as tx: body].  The body issues its calls
    through the scope, which forwards them to the connection: it acts on
    the world, not on the fields of the scope. *)
Definition transaction_scope {A} (fl : flavour) (env : oracle) (body : M world A)
  : M (Transaction * world) A :=
  match fl with
  | Async => with_statement (__aenter__ env) (__aexit__ env) (lift body)
  | Sync => with_statement (__enter__ env) (__exit__ env) (lift body)
  end.

(** The exit method of the flavour. *)
Definition scope_exit (fl : flavour) (env : oracle) : option exn -> M (Transaction * world) unit :=
  match fl with
  | Async => __aexit__ env
  | Sync => __exit__ env
  end.

(** ** ConnectionPool: [AsyncConnectionPool] and [SyncConnectionPool] *)

(** [surrealdb.connections.url.UrlScheme]: the four members the pools
    name, and any other value. *)
Inductive UrlScheme : Type :=
| HTTP | HTTPS | WS | WSS
| OtherScheme (name : string).

Inductive connection_class : Type :=
| HttpSurrealConnection             (* Async/BlockingHttpSurrealConnection *)
| WsSurrealConnection.              (* Async/BlockingWsSurrealConnection   *)

Record Pool : Type := mkPool {
  _url : string;
  _namespace : string;
  _database : string;
  _auth_params : list (string * string);
  _pool_size : Z;
  _max_retries : Z;
  _retry_delay : Q;
  _connection_class : connection_class;
  _pool : list conn;                (* self._pool                                   *)
  _available : list conn;           (* self._available: Queue(maxsize=pool_size),
                                       the next item to leave first               *)
  _closed : bool
}.

Definition set_pool (l : list conn) (self : Pool) : Pool :=
  {| _url := _url self; _namespace := _namespace self; _database := _database self;
     _auth_params := _auth_params self; _pool_size := _pool_size self;
     _max_retries := _max_retries self; _retry_delay := _retry_delay self;
     _connection_class := _connection_class self;
     _pool := l; _available := _available self; _closed := _closed self |}.

Definition set_available (q : list conn) (self : Pool) : Pool :=
  {| _url := _url self; _namespace := _namespace self; _database := _database self;
     _auth_params := _auth_params self; _pool_size := _pool_size self;
     _max_retries := _max_retries self; _retry_delay := _retry_delay self;
     _connection_class := _connection_class self;
     _pool := _pool self; _available := q; _closed := _closed self |}.

Definition set_closed (b : bool) (self : Pool) : Pool :=
  {| _url := _url self; _namespace := _namespace self; _database := _database self;
     _auth_params := _auth_params self; _pool_size := _pool_size self;
     _max_retries := _max_retries self; _retry_delay := _retry_delay self;
     _connection_class := _connection_class self;
     _pool := _pool self; _available := _available self; _closed := b |}.

Definition is_supported (scheme : UrlScheme) : bool :=
  match scheme with
  | HTTP | HTTPS | WS | WSS => true
  | OtherScheme _ => false
  end.

(** [str(scheme)], as the f-string of the error message prints it. *)
Definition scheme_text (scheme : UrlScheme) : string :=
  match scheme with
  | HTTP => "UrlScheme.HTTP" | HTTPS => "UrlScheme.HTTPS"
  | WS => "UrlScheme.WS" | WSS => "UrlScheme.WSS"
  | OtherScheme name => ("UrlScheme." ++ name)%string
  end.

(** [__init__].  [Url] stands for the constructor of
    [surrealdb.connections.url.Url] followed by the read of [.scheme]; that
    module is not part of the sources at hand, so it is a parameter.  The
    availability queue starts empty, the pool list empty, the pool open. *)
Definition __init__ (Url : string -> outcome UrlScheme)
    (url namespace database : string) (auth_params : list (string * string))
    (pool_size max_retries : Z) (retry_delay : Q) : M world Pool :=
  let self cls :=
    {| _url := url; _namespace := namespace; _database := database;
       _auth_params := auth_params; _pool_size := pool_size;
       _max_retries := max_retries; _retry_delay := retry_delay;
       _connection_class := cls;
       _pool := []; _available := []; _closed := false |} in
  parsed_url_scheme <- eval (Url url) ;;
  match parsed_url_scheme with
  | HTTP | HTTPS => ret (self HttpSurrealConnection)
  | WS | WSS => ret (self WsSurrealConnection)
  | other =>
      raise (ValueError ("Unsupported URL scheme: " ++ scheme_text other)%string)
  end.

(** [logger.catch], which decorates every class of the layer.  Used
    without arguments on a class, loguru 0.6 takes the class for the
    function to wrap: the name of the class is bound to a wrapper that
    calls it inside the catcher, so an [Exception] raised by the call, that
    is by [__init__], is logged at level ERROR and the wrapper returns the
    default, [None].  (From loguru 0.7 on the decorator refuses a class
    with [TypeError] as soon as the module is imported, and there is no
    class to call.) *)
Definition logger_catch {A} (function : M world A) : M world (option A) :=
  try_except
    (a <- function ;; ret (Some a))
    (except_Exception (fun e =>
       log ERROR "An error has been caught in function" ;;
       ret None)).

(** [AsyncConnectionPool(...)] and [SyncConnectionPool(...)], as the
    modules export the names: the decorated classes. *)
Definition ConnectionPool (Url : string -> outcome UrlScheme)
    (url namespace database : string) (auth_params : list (string * string))
    (pool_size max_retries : Z) (retry_delay : Q) : M world (option Pool) :=
  logger_catch
    (__init__ Url url namespace database auth_params pool_size max_retries retry_delay).

(** *** The bounded queue *)

(** [Queue.full()]: a queue of size [maxsize <= 0] is unbounded. *)
Definition full (self : Pool) : bool :=
  ((0 <? _pool_size self) && (_pool_size self <=? Z.of_nat (List.length (_available self))))%Z.

(** [self._available.put(c)]: waits for a free slot. *)
Definition put (c : conn) : M (Pool * world) unit :=
  fun s =>
    if full (fst s) then (Blocked, s)
    else (Return tt, (set_available (_available (fst s) ++ [c]) (fst s), snd s)).

(** The fixed wait of [acquire], in seconds. *)
Definition acquire_timeout : Q := 30 # 1.

(** What an expired wait raises: [asyncio.wait_for] raises
    [asyncio.TimeoutError], [Queue.get(timeout=...)] raises [queue.Empty]. *)
Definition timeout_exn (fl : flavour) : exn :=
  match fl with
  | Async => TimeoutError
  | Sync => Empty
  end.

Definition is_timeout (fl : flavour) (e : exn) : bool :=
  match fl, e with
  | Async, TimeoutError => true
  | Sync, Empty => true
  | _, _ => false
  end.

(** [asyncio.wait_for(self._available.get(), timeout=30.0)] and
    [self._available.get(timeout=30.0)].  Callers run one at a time here,
    so nobody refills an empty queue during the wait and the wait expires. *)
Definition get_with_timeout (fl : flavour) : M (Pool * world) conn :=
  lift (emit (Get (Some acquire_timeout))) ;;
  fun s =>
    match _available (fst s) with
    | [] => (Raise (timeout_exn fl), s)
    | c :: q => (Return c, (set_available q (fst s), snd s))
    end.

(** The get of [close_all]: [await self._available.get()] waits on an empty
    queue, [self._available.get_nowait()] raises [queue.Empty]. *)
Definition get_for_close (fl : flavour) : M (Pool * world) conn :=
  lift (emit (Get None)) ;;
  fun s =>
    match _available (fst s) with
    | [] =>
        match fl with
        | Async => (Blocked, s)
        | Sync => (Raise Empty, s)
        end
    | c :: q => (Return c, (set_available q (fst s), snd s))
    end.

(** *** Methods *)

Definition is_empty {A} (l : list A) : bool :=
  match l with
  | [] => true
  | _ => false
  end.

(** [self._connection_class(self._url)]: a new connection object. *)
Definition construct (env : oracle) : M (Pool * world) conn :=
  fun s =>
    let c := next_conn (snd s) in
    let w := {| trace := trace (snd s); next_conn := S c |} in
    match call env (Construct c) w with
    | (Return _, w') => (Return c, (fst s, w'))
    | (Raise e, w') => (Raise e, (fst s, w'))
    | (Blocked, w') => (Blocked, (fst s, w'))
    end.

Definition _create_connection (env : oracle) : M (Pool * world) conn :=
  try_except
    (connection <- construct env ;;
     self <- get_self ;;
     (if negb (is_empty (_auth_params self))
      then lift (call env (Signin connection))
      else ret tt) ;;
     lift (call env (Use connection)) ;;
     ret connection)
    (except_Exception (fun e =>
       lift (log ERROR "Failed to create connection") ;;
       raise (ConnectionError "Failed to create connection" (Some e)))).

(** The calls [_create_connection] makes when all of them return. *)
Definition creation_calls (self : Pool) (c : conn) : list entry :=
  (Construct c, None)
  :: (if is_empty (_auth_params self) then [] else [(Signin c, None)])
  ++ [(Use c, None)].

(** The body of [for _ in range(self._pool_size)] in [_initialize_pool]. *)
Fixpoint initialize_loop (env : oracle) (iterations : list nat) : M (Pool * world) unit :=
  match iterations with
  | [] => ret tt
  | _ :: rest =>
      try_except
        (connection <- _create_connection env ;;
         set_self (fun self => set_pool (_pool self ++ [connection]) self) ;;
         put connection)
        (except_Exception (fun e =>
           lift (log ERROR "Failed to initialize connection"))) ;;
      initialize_loop env rest
  end.

(** [_initialize_pool].  [with self._lock] is not visible when callers run
    one at a time: the lock is free on entry and released on exit. *)
Definition _initialize_pool (env : oracle) : M (Pool * world) unit :=
  self <- get_self ;;
  if negb (is_empty (_pool self)) then ret tt      (* Already initialized *)
  else
    lift (log INFO "Initializing connection pool") ;;
    initialize_loop env (range (_pool_size self)).

(** The [try] statement of [acquire]: the wait on the queue, the liveness
    probe and the replacement of a connection that fails it. *)
Definition acquire_wait (fl : flavour) (env : oracle) : M (Pool * world) conn :=
  try_except
    (connection <- get_with_timeout fl ;;
     try_except
       (lift (call env (Version connection)) ;;
        ret connection)
       (except_Exception (fun e =>
          lift (log WARNING "Connection validation failed, creating new one") ;;
          new_connection <- _create_connection env ;;
          ret new_connection)))
    (fun e =>
       if is_timeout fl e
       then Some (raise (ConnectionError "Timeout waiting for available connection" None))
       else if is_Exception e
       then Some (raise (ConnectionError "Failed to acquire connection" (Some e)))
       else None).

Definition acquire (fl : flavour) (env : oracle) : M (Pool * world) conn :=
  self <- get_self ;;
  if _closed self then raise (ConnectionError "Connection pool is closed" None)
  else
    (if is_empty (_pool self) then _initialize_pool env else ret tt) ;;
    acquire_wait fl env.

(** [try: connection.close()  except Exception: pass] *)
Definition close_quietly (env : oracle) (connection : conn) : M (Pool * world) unit :=
  try_except
    (lift (call env (Close connection)))
    (except_Exception (fun _ => ret tt)).

Definition release (env : oracle) (connection : conn) : M (Pool * world) unit :=
  lift (emit (Enter_release connection)) ;;
  self <- get_self ;;
  if _closed self then close_quietly env connection
  else
    try_except
      (lift (call env (Version connection)) ;;
       put connection)
      (except_Exception (fun e =>
         lift (log WARNING "Released connection is invalid, discarding") ;;
         close_quietly env connection ;;
         try_except
           (self <- get_self ;;
            if (Z.of_nat (List.length (_available self)) <? _pool_size self)%Z
            then
              new_connection <- _create_connection env ;;
              put new_connection
            else ret tt)
           (except_Exception (fun e =>
              lift (log ERROR "Failed to create replacement connection"))))).

(** The context manager [connection()]:
    [conn = acquire(); try: yield conn  finally: release(conn)]. *)
Definition with_connection {A} (fl : flavour) (env : oracle)
    (body : conn -> M (Pool * world) A) : M (Pool * world) A :=
  conn <- acquire fl env ;;
  try_finally (body conn) (release env conn).

Definition pool_execute_with_retry {A} (fl : flavour) (env : oracle) (op : operation A)
    (connection : conn) : M (Pool * world) A :=
  self <- get_self ;;
  lift (_execute_with_retry fl env (_max_retries self) (_retry_delay self) op connection).

Definition execute_with_connection {A} (fl : flavour) (env : oracle)
    (op : operation A) : M (Pool * world) A :=
  with_connection fl env (fun conn => pool_execute_with_retry fl env op conn).

(** The [while not self._available.empty()] loop of [close_all].  Every
    round takes one item off the queue, so [length queue] rounds and the
    closing test are enough; [fuel] counts them. *)
Fixpoint drain (fl : flavour) (env : oracle) (fuel : nat) : M (Pool * world) unit :=
  match fuel with
  | O => ret tt
  | S fuel' =>
      self <- get_self ;;
      if is_empty (_available self) then ret tt
      else
        again <-
          try_except
            (connection <- get_for_close fl ;;
             lift (call env (Close connection)) ;;
             ret true)
            (fun e =>
               match fl, e with
               | Sync, Empty => Some (ret false)            (* except Empty: break *)
               | _, _ =>
                   if is_Exception e
                   then Some (lift (log WARNING "Error closing connection") ;; ret true)
                   else None
               end) ;;
        if again then drain fl env fuel' else ret tt
  end.

Definition close_all (fl : flavour) (env : oracle) : M (Pool * world) unit :=
  set_self (set_closed true) ;;
  self <- get_self ;;
  drain fl env (S (List.length (_available self))) ;;
  set_self (set_pool []) ;;
  lift (log INFO "Connection pool closed").

(** The properties [pool_size], [available_connections], [is_closed]. *)
Definition pool_size (self : Pool) : Z := _pool_size self.
Definition available_connections (self : Pool) : Z := Z.of_nat (List.length (_available self)).
Definition is_closed (self : Pool) : bool := _closed self.

(** *** Sequences of calls on a pool

    Callers run one at a time; a call that raises or never returns leaves
    the pool in the state it reached. *)
Inductive pool_call : Type :=
| Acquire
| Release (c : conn)
| Close_all.

Definition run_call (fl : flavour) (env : oracle) (call : pool_call) (s : Pool * world)
  : Pool * world :=
  match call with
  | Acquire => snd (acquire fl env s)
  | Release c => snd (release env c s)
  | Close_all => snd (close_all fl env s)
  end.

Definition run_calls (fl : flavour) (env : oracle) (calls : list pool_call)
    (s : Pool * world) : Pool * world :=
  fold_left (fun s call => run_call fl env call s) calls s.

(** Consecutive calls of [execute_with_connection], one per operation; a
    call that raises leaves the pool in the state it reached. *)
Definition run_executions {A} (fl : flavour) (env : oracle) (ops : list (operation A))
    (s : Pool * world) : Pool * world :=
  fold_left (fun s op => snd (execute_with_connection fl env op s)) ops s.

(** The connections a sequence of calls releases, in order. *)
Definition released (calls : list pool_call) : list conn :=
  flat_map (fun call => match call with Release c => [c] | _ => [] end) calls.

(** ** DatabaseManager

    The manager holds at most one pool and one single connection per
    flavour, and builds them on demand.  The pools it builds are the
    decorated classes ([ConnectionPool]); the constructors of the manager
    and of the single connections raise nothing, so their decorator hands
    the instance through. *)

Module Manager.

Record DatabaseManager : Type := mkManager {
  _url : string;
  _namespace : string;
  _database : string;
  _auth_params : option (list (string * string));   (* [None] or a dict *)
  _pool_size : Z;
  _use_pool : bool;
  _max_retries : Z;
  _async_pool : option Pool;
  _sync_pool : option Pool;
  _async_single : option SingleConnection;
  _sync_single : option SingleConnection
}.

(** [__init__]: no connection object exists yet. *)
Definition new_manager (url namespace database : string)
    (auth_params : option (list (string * string))) (pool_size : Z) (use_pool : bool)
    (max_retries : Z) : DatabaseManager :=
  {| _url := url; _namespace := namespace; _database := database;
     _auth_params := auth_params; _pool_size := pool_size; _use_pool := use_pool;
     _max_retries := max_retries;
     _async_pool := None; _sync_pool := None; _async_single := None; _sync_single := None |}.

(** The fields of a flavour: [_async_pool] and [_async_single] for the
    coroutines, [_sync_pool] and [_sync_single] for the blocking methods. *)
Definition pool_of (fl : flavour) (self : DatabaseManager) : option Pool :=
  match fl with
  | Async => _async_pool self
  | Sync => _sync_pool self
  end.

Definition single_of (fl : flavour) (self : DatabaseManager) : option SingleConnection :=
  match fl with
  | Async => _async_single self
  | Sync => _sync_single self
  end.

Definition set_pool_of (fl : flavour) (pool : option Pool) (self : DatabaseManager)
  : DatabaseManager :=
  {| _url := _url self; _namespace := _namespace self; _database := _database self;
     _auth_params := _auth_params self; _pool_size := _pool_size self;
     _use_pool := _use_pool self; _max_retries := _max_retries self;
     _async_pool := match fl with Async => pool | Sync => _async_pool self end;
     _sync_pool := match fl with Async => _sync_pool self | Sync => pool end;
     _async_single := _async_single self; _sync_single := _sync_single self |}.

Definition set_single_of (fl : flavour) (single : option SingleConnection)
    (self : DatabaseManager) : DatabaseManager :=
  {| _url := _url self; _namespace := _namespace self; _database := _database self;
     _auth_params := _auth_params self; _pool_size := _pool_size self;
     _use_pool := _use_pool self; _max_retries := _max_retries self;
     _async_pool := _async_pool self; _sync_pool := _sync_pool self;
     _async_single := match fl with Async => single | Sync => _async_single self end;
     _sync_single := match fl with Async => _sync_single self | Sync => single end |}.

(** What [get_connection] returns: the pool or the single connection the
    manager holds, or [None] when the decorated pool class returned it. *)
Inductive wrapper : Type :=
| PoolWrapper (pool : Pool)
| SingleWrapper (single : SingleConnection)
| NoWrapper.

Definition wrapper_of_pool (pool : option Pool) : wrapper :=
  match pool with
  | Some pool => PoolWrapper pool
  | None => NoWrapper
  end.

(** [auth_params or {}] / [if self._auth_params] *)
Definition auth_items (auth_params : option (list (string * string))) : list (string * string) :=
  match auth_params with
  | Some items => items
  | None => []
  end.

(** [AsyncSurreal(self._url)] and [Surreal(self._url)]: a new connection
    object. *)
Definition Surreal (env : oracle) : M (DatabaseManager * world) conn :=
  fun s =>
    let c := next_conn (snd s) in
    let w := {| trace := trace (snd s); next_conn := S c |} in
    match call env (Construct c) w with
    | (Return _, w') => (Return c, (fst s, w'))
    | (Raise e, w') => (Raise e, (fst s, w'))
    | (Blocked, w') => (Blocked, (fst s, w'))
    end.

(** The default [retry_delay] of the pools and of the single connections. *)
Definition default_retry_delay : Q := 1 # 1.

(** [get_connection] ([fl = Async]) and [get_sync_connection] ([fl = Sync]). *)
Definition get_connection_of (Url : string -> outcome UrlScheme) (fl : flavour) (env : oracle)
  : M (DatabaseManager * world) wrapper :=
  self <- get_self ;;
  if _use_pool self then
    match pool_of fl self with
    | None =>
        pool <- lift (ConnectionPool Url (_url self) (_namespace self) (_database self)
                        (auth_items (_auth_params self)) (_pool_size self)
                        (_max_retries self) default_retry_delay) ;;
        set_self (set_pool_of fl pool) ;;
        ret (wrapper_of_pool pool)
    | Some pool => ret (PoolWrapper pool)
    end
  else
    match single_of fl self with
    | None =>
        raw_conn <- Surreal env ;;
        (if negb (is_empty (auth_items (_auth_params self)))
         then lift (call env (Signin raw_conn))
         else ret tt) ;;
        lift (call env (Use raw_conn)) ;;
        let single := mkSingle raw_conn (_max_retries self) default_retry_delay in
        set_self (set_single_of fl (Some single)) ;;
        ret (SingleWrapper single)
    | Some single => ret (SingleWrapper single)
    end.

Definition get_connection := fun Url => get_connection_of Url Async.
Definition get_sync_connection := fun Url => get_connection_of Url Sync.

(** A method of the pool, run on the pool object the manager holds: what
    it does to the pool is seen through the field. *)
Definition on_pool {A} (fl : flavour) (m : M (Pool * world) A) (pool : Pool)
  : M (DatabaseManager * world) A :=
  fun s =>
    let (r, s') := m (pool, snd s) in
    (r, (set_pool_of fl (Some (fst s')) (fst s), snd s')).

(** [close] ([fl = Async]) and [close_sync] ([fl = Sync]).  The pool is
    dropped once [close_all] has returned, whatever state it is left in. *)
Definition close_of (fl : flavour) (env : oracle) : M (DatabaseManager * world) unit :=
  self <- get_self ;;
  (match pool_of fl self with
   | Some pool =>
       on_pool fl (close_all fl env) pool ;;
       set_self (set_pool_of fl None)
   | None => ret tt
   end) ;;
  self <- get_self ;;
  match single_of fl self with
  | Some single =>
      lift (close env single) ;;
      set_self (set_single_of fl None)
  | None => ret tt
  end.

Definition close := close_of Async.
Definition close_sync := close_of Sync.

End Manager.

(** *** Sample configurations *)

(** The pool [__init__] builds for [http://localhost:8000]. *)
Definition new_pool (pool_size : Z) : Pool :=
  {| _url := "http://localhost:8000"; _namespace := "test_ns"; _database := "test_db";
     _auth_params := []; _pool_size := pool_size; _max_retries := 3;
     _retry_delay := 1 # 1; _connection_class := HttpSurrealConnection;
     _pool := []; _available := []; _closed := false |}.

Definition new_world : world := {| trace := []; next_conn := 0 |}.

(** A pool of two idle connections. *)
Definition warm_pool : Pool := set_available [0; 1] (set_pool [0; 1] (new_pool 2)).

(** An operation that fails twice and then answers 42. *)
Definition flaky_operation : operation nat :=
  fun n _ =>
    match n with
    | 0 => Raise (Failure 1)
    | 1 => Raise (Failure 2)
    | _ => Return 42
    end.

(** Every collaborator answers. *)
Definition all_well : oracle := fun _ _ => None.

(** The server cannot be reached: no connection can be constructed. *)
Definition server_down : oracle :=
  fun _ ev =>
    match ev with
    | Construct _ => Some (Other 1)
    | _ => None
    end.

(** The first connection has gone stale: its liveness probe fails. *)
Definition first_connection_stale : oracle :=
  fun _ ev =>
    match ev with
    | Version 0 => Some (Other 1)
    | _ => None
    end.

(** The first connection has gone stale and no second one can be made. *)
Definition stale_and_unreachable : oracle :=
  fun _ ev =>
    match ev with
    | Version 0 => Some (Other 1)
    | Construct (S _) => Some (Other 2)
    | _ => None
    end.

(** Rollbacks are refused by the server. *)
Definition rollback_fails : oracle :=
  fun _ ev =>
    match ev with
    | Rollback_transaction _ => Some (Other 2)
    | _ => None
    end.

(** A parser of URLs to run [__init__] on: the scheme is the text before
    the first colon; besides the four schemes of the pools it knows an
    in-memory scheme, and it rejects every other text. *)
Fixpoint before_colon (s : string) : string :=
  match s with
  | EmptyString => EmptyString
  | String c rest => if Ascii.eqb c ":"%char then EmptyString else String c (before_colon rest)
  end.

Definition example_Url (url : string) : outcome UrlScheme :=
  let name := before_colon url in
  if String.eqb name "http" then Return HTTP
  else if String.eqb name "https" then Return HTTPS
  else if String.eqb name "ws" then Return WS
  else if String.eqb name "wss" then Return WSS
  else if String.eqb name "mem" then Return (OtherScheme "MEM")
  else Raise (ValueError (name ++ " is not a valid UrlScheme")%string).

(** An operation that fails once and is then cancelled. *)
Definition cancelled_operation : operation nat :=
  fun n _ =>
    match n with
    | 0 => Raise (Failure 1)
    | _ => Raise (BaseFailure 7)
    end.

(** An operation that fails every time. *)
Definition failing_operation : operation nat := fun n _ => Raise (Failure n).

(** A probe that fails every time. *)
Definition failing_probe : operation string := fun n _ => Raise (Failure n).

(** The server refuses to begin a transaction. *)
Definition begin_fails : oracle :=
  fun _ ev =>
    match ev with
    | Begin_transaction _ => Some (Other 3)
    | _ => None
    end.

(** [close()] of the first connection raises [queue.Empty]. *)
Definition first_close_raises_empty : oracle :=
  fun _ ev =>
    match ev with
    | Close 0 => Some QueueEmpty
    | _ => None
    end.

(** A clock that refuses every sleep. *)
Definition sleep_refused : oracle :=
  fun _ ev =>
    match ev with
    | Sleep _ => Some (Other 5)
    | _ => None
    end.

(** A server that refuses the sign-in. *)
Definition signin_refused : oracle :=
  fun _ ev =>
    match ev with
    | Signin _ => Some (Other 4)
    | _ => None
    end.

(** ** Query-translation helpers: [BaseHelperMixin._build_filter_query] *)

Local Open Scope string_scope.

(** The values a filter can carry.  [PyOther] is any object of another
    type, given by the text [repr] prints for it. *)
Inductive pyvalue : Type :=
| PyNone
| PyBool (b : bool)
| PyInt (z : Z)
| PyStr (s : string)
| PyList (items : list pyvalue)
| PyTuple (items : list pyvalue)
| PyOther (repr_text : string).

Definition apostrophe : ascii := "039"%char.
Definition double_quote : ascii := "034"%char.
Definition backslash : ascii := "092"%char.

Fixpoint contains_char (c : ascii) (s : string) : bool :=
  match s with
  | EmptyString => false
  | String a rest => Ascii.eqb a c || contains_char c rest
  end.

Definition hex_digit (n : nat) : ascii :=
  nth n (list_ascii_of_string "0123456789abcdef") "0"%char.

(** One character of [repr(str)].  Characters outside ASCII are bytes of a
    UTF-8 sequence and are copied, as Python does for printable text (the
    characters beyond ASCII that Python holds for non-printable and
    escapes are not told apart here). *)
Definition escape_char (quote ch : ascii) : string :=
  if Ascii.eqb ch quote || Ascii.eqb ch backslash
  then String backslash (String ch EmptyString)
  else if Ascii.eqb ch "009"%char then String backslash "t"
  else if Ascii.eqb ch "010"%char then String backslash "n"
  else if Ascii.eqb ch "013"%char then String backslash "r"
  else
    let n := nat_of_ascii ch in
    if (n <? 32)%nat || (n =? 127)%nat
    then String backslash
           (String "x" (String (hex_digit (n / 16)) (String (hex_digit (n mod 16)) EmptyString)))
    else String ch EmptyString.

Fixpoint escape (quote : ascii) (s : string) : string :=
  match s with
  | EmptyString => EmptyString
  | String ch rest => escape_char quote ch ++ escape quote rest
  end.

(** [repr(s)] for a string: apostrophes around the text, double quotes
    when the text has an apostrophe and no double quote. *)
Definition repr_str (s : string) : string :=
  let quote :=
    if contains_char apostrophe s && negb (contains_char double_quote s)
    then double_quote else apostrophe in
  String quote (escape quote s ++ String quote EmptyString).

(** The builtin [repr]. *)
Fixpoint repr (v : pyvalue) : string :=
  match v with
  | PyNone => "None"
  | PyBool true => "True"
  | PyBool false => "False"
  | PyInt z => str_of_Z z
  | PyStr s => repr_str s
  | PyList items => "[" ++ String.concat ", " (map repr items) ++ "]"
  | PyTuple items =>
      match items with
      | [x] => "(" ++ repr x ++ ",)"
      | _ => "(" ++ String.concat ", " (map repr items) ++ ")"
      end
  | PyOther repr_text => repr_text
  end.

Fixpoint string_rev (s : string) : string :=
  match s with
  | EmptyString => EmptyString
  | String c rest => string_rev rest ++ String c EmptyString
  end.

(** [s.endswith(suffix)] *)
Definition endswith (s suffix : string) : bool :=
  String.prefix (string_rev suffix) (string_rev s).

(** [s[:-n]] for [n > 0] *)
Definition drop_last (n : nat) (s : string) : string :=
  substring 0 (String.length s - n) s.

(** One round of [for key, value in filter_kwargs.items()]: the text
    appended to [conditions]. *)
Definition condition (key : string) (value : pyvalue) : string :=
  if endswith key "__gte" then
    let field := drop_last 5 key in field ++ " >= " ++ repr value
  else if endswith key "__lte" then
    let field := drop_last 5 key in field ++ " <= " ++ repr value
  else if endswith key "__gt" then
    let field := drop_last 4 key in field ++ " > " ++ repr value
  else if endswith key "__lt" then
    let field := drop_last 4 key in field ++ " < " ++ repr value
  else if endswith key "__ne" then
    let field := drop_last 4 key in field ++ " != " ++ repr value
  else if endswith key "__in" then
    let field := drop_last 4 key in
    match value with
    | PyList items | PyTuple items =>
        let value_list := String.concat ", " (map repr items) in
        field ++ " IN [" ++ value_list ++ "]"
    | _ => field ++ " = " ++ repr value
    end
  else if endswith key "__contains" then
    let field := drop_last 10 key in field ++ " CONTAINS " ++ repr value
  else
    key ++ " = " ++ repr value.

(** [_build_filter_query(table, filter_kwargs)].  A dict is the list of
    its items in iteration order. *)
Definition _build_filter_query (table : string) (filter_kwargs : list (string * pyvalue))
  : string :=
  if is_empty filter_kwargs then "SELECT * FROM " ++ table
  else
    let conditions :=
      fold_left
        (fun conditions item => (conditions ++ [condition (fst item) (snd item)])%list)
        filter_kwargs [] in
    let where_clause := String.concat " AND " conditions in
    "SELECT * FROM " ++ table ++ " WHERE " ++ where_clause.

(** The translation as the specification words it: the operator is read
    off the suffix of the key alone. *)
Definition spec_operator (key : string) : string * string :=
  if endswith key "__gte" then (drop_last 5 key, ">=")
  else if endswith key "__lte" then (drop_last 5 key, "<=")
  else if endswith key "__gt" then (drop_last 4 key, ">")
  else if endswith key "__lt" then (drop_last 4 key, "<")
  else if endswith key "__ne" then (drop_last 4 key, "!=")
  else if endswith key "__in" then (drop_last 4 key, "IN")
  else if endswith key "__contains" then (drop_last 10 key, "CONTAINS")
  else (key, "=").

(** [isinstance(value, (list, tuple))] *)
Definition is_sequence (value : pyvalue) : bool :=
  match value with
  | PyList _ | PyTuple _ => true
  | _ => false
  end.

(** The suffixes the translation knows. *)
Definition suffixes : list string :=
  ["__gte"; "__lte"; "__gt"; "__lt"; "__ne"; "__in"; "__contains"].

Definition has_suffix (key : string) : bool :=
  existsb (endswith key) suffixes.

(** The right-hand side: the members in brackets for a membership test,
    the value otherwise. *)
Definition spec_operand (operator : string) (value : pyvalue) : string :=
  if String.eqb operator "IN" then
    match value with
    | PyList items | PyTuple items => "[" ++ String.concat ", " (map repr items) ++ "]"
    | _ => repr value
    end
  else repr value.

(** One predicate, as the specification words it. *)
Definition spec_condition (item : string * pyvalue) : string :=
  let (field, operator) := spec_operator (fst item) in
  field ++ " " ++ operator ++ " " ++ spec_operand operator (snd item).

(** The predicates conjoined with AND, in the order of the mapping. *)
Definition spec_filter_query (table : string) (filter : list (string * pyvalue)) : string :=
  match filter with
  | [] => "SELECT * FROM " ++ table
  | _ => "SELECT * FROM " ++ table ++ " WHERE " ++ String.concat " AND " (map spec_condition filter)
  end.

(** The value of an [__in] filter is a list or a tuple. *)
Definition sequence_for_in (item : string * pyvalue) : bool :=
  implb (String.eqb (snd (spec_operator (fst item))) "IN") (is_sequence (snd item)).

(** [_build_update_query(table, filter_kwargs, update_data, merge)] *)
Definition _build_update_query (table : string) (filter_kwargs update_data : list (string * pyvalue))
    (merge : bool) : string :=
  let operation := if merge then "MERGE" else "SET" in
  let set_clauses :=
    fold_left
      (fun set_clauses item => (set_clauses ++ [(fst item ++ " = " ++ repr (snd item))%string])%list)
      update_data [] in
  let set_clause := String.concat ", " set_clauses in
  if negb (is_empty filter_kwargs) then
    let conditions :=
      fold_left
        (fun conditions item => (conditions ++ [(fst item ++ " = " ++ repr (snd item))%string])%list)
        filter_kwargs [] in
    let where_clause := String.concat " AND " conditions in
    "UPDATE " ++ table ++ " " ++ operation ++ " {" ++ set_clause ++ "} WHERE " ++ where_clause
  else
    "UPDATE " ++ table ++ " " ++ operation ++ " {" ++ set_clause ++ "}".

(** [_build_delete_query(table, filter_kwargs)] *)
Definition _build_delete_query (table : string) (filter_kwargs : list (string * pyvalue))
  : string :=
  if negb (is_empty filter_kwargs) then
    let conditions :=
      fold_left
        (fun conditions item => (conditions ++ [(fst item ++ " = " ++ repr (snd item))%string])%list)
        filter_kwargs [] in
    let where_clause := String.concat " AND " conditions in
    "DELETE FROM " ++ table ++ " WHERE " ++ where_clause
  else
    "DELETE FROM " ++ table.

(** A filter none of whose keys carries an operator suffix. *)
Definition plain (filter_kwargs : list (string * pyvalue)) : bool :=
  forallb (fun item => negb (has_suffix (fst item))) filter_kwargs.

(** ** BulkResult *)

Record BulkResult : Type := mkBulkResult {
  success_count : Z;
  error_count : Z;
  errors : list (list (string * pyvalue));
  results : list pyvalue
}.

Definition total_count (self : BulkResult) : Z :=
  success_count self + error_count self.

(** [a / b] on integers: true division.  The result is the float nearest
    to the quotient; [OverflowError] when the quotient is too large for a
    float. *)
Definition truediv (a b : Z) : outcome Q :=
  if (b =? 0)%Z then Raise ZeroDivisionError
  else
    match binary64 (Qdiv (inject_Z a) (inject_Z b)) with
    | Finite ratio => Return ratio
    | Infinity _ => Raise OverflowError
    end.

Definition success_rate (self : BulkResult) : outcome pyfloat :=
  if (total_count self =? 0)%Z then Return (Finite (0 # 1))
  else
    match truediv (success_count self) (total_count self) with
    | Return ratio => Return (float_mul ratio (100 # 1))
    | Raise e => Raise e
    | Blocked => Blocked
    end.

Local Close Scope string_scope.

(** ** Observations on traces *)

Definition is_operation (x : entry) : bool :=
  match fst x with
  | Operation _ => true
  | _ => false
  end.

(** How many times the operation was invoked. *)
Definition attempts_made (t : list entry) : nat := List.length (filter is_operation t).

(** The delays slept, in order. *)
Definition sleeps (t : list entry) : list pyfloat :=
  flat_map (fun x => match fst x with Sleep d => [d] | _ => [] end) t.

(** The connections [close()] was called on, in order. *)
Definition closes (t : list entry) : list conn :=
  flat_map (fun x => match fst x with Close c => [c] | _ => [] end) t.

(** The connections [release] was entered with, in order. *)
Definition releases (t : list entry) : list conn :=
  flat_map (fun x => match fst x with Enter_release c => [c] | _ => [] end) t.

(** The gets on the availability queue, with their timeout. *)
Definition gets (t : list entry) : list (option Q) :=
  flat_map (fun x => match fst x with Get timeout => [timeout] | _ => [] end) t.

(** The connection objects constructed, in order. *)
Definition constructs (t : list entry) : list conn :=
  flat_map (fun x => match fst x with Construct c => [c] | _ => [] end) t.

(** The connections whose creation went through: [use] is its last step. *)
Definition created (t : list entry) : list conn :=
  flat_map (fun x => match x with (Use c, None) => [c] | _ => [] end) t.

(** How many times the loop of [_initialize_pool] was started. *)
Definition initializations (t : list entry) : nat :=
  List.length
    (filter (fun x => match fst x with
                      | Log INFO msg => String.eqb msg "Initializing connection pool"
                      | _ => false
                      end) t).

(** An invocation fails when it raises something [except Exception] catches. *)
Definition fails {A} (o : outcome A) : Prop :=
  exists e, o = Raise e /\ is_Exception e = true.

(** An invocation the executor does not retry: it returned, it never came
    back, or it raised outside [Exception]. *)
Definition passes {A} (o : outcome A) : Prop :=
  match o with
  | Raise e => is_Exception e = false
  | _ => True
  end.

(** What a failed attempt that is retried leaves in the trace. *)
Definition retried_attempt (retry_delay : Q) (c : conn) (attempt : nat) : list entry :=
  [(Operation c, None);
   (Log WARNING "Operation failed, retrying", None);
   (Sleep (Finite (Qmult retry_delay (inject_Z (2 ^ Z.of_nat attempt)))), None)].

(** What the last failed attempt leaves in the trace. *)
Definition last_attempt (c : conn) : list entry :=
  [(Operation c, None); (Log ERROR "Operation failed after all attempts", None)].

(** The time slept in all. *)
Definition total_sleep (delays : list Q) : Q := fold_right Qplus (0 # 1)%Q delays.

(** The connections whose [close()] raised. *)
Definition failed_closes (t : list entry) : list conn :=
  flat_map (fun x => match x with (Close c, Some _) => [c] | _ => [] end) t.

(** How many failures of [close()] [close_all] logged. *)
Definition close_warnings (t : list entry) : nat :=
  List.length
    (filter (fun x => match fst x with
                      | Log WARNING msg => String.eqb msg "Error closing connection"
                      | _ => false
                      end) t).

(** Entries other than the entry into [release]. *)
Definition no_release (x : entry) : bool :=
  match fst x with
  | Enter_release _ => false
  | _ => true
  end.

(** Entries that are neither the entry into [release] nor the start of
    an initialization. *)
Definition quiet (x : entry) : bool :=
  match fst x with
  | Enter_release _ => false
  | Log INFO msg => negb (String.eqb msg "Initializing connection pool")
  | _ => true
  end.

(** What the retry executor writes to the trace. *)
Definition executor_entry (x : entry) : bool :=
  match fst x with
  | Operation _ | Sleep _ | Log _ _ => true
  | _ => false
  end.

(** Entries other than a call of [close()]. *)
Definition no_close (x : entry) : bool :=
  match fst x with
  | Close _ => false
  | _ => true
  end.

(** The connections whose liveness probe failed, in order. *)
Definition failed_probes (t : list entry) : list conn :=
  flat_map (fun x => match x with (Version c, Some _) => [c] | _ => [] end) t.

(** What the drain of [close_all] writes to the trace. *)
Definition closing_entry (x : entry) : bool :=
  match fst x with
  | Get _ | Close _ | Log _ _ => true
  | _ => false
  end.

(** The drain of [close_all] is not cut short: [except Empty: break] of
    the blocking pool also catches a [queue.Empty] raised by [close()]; the
    asyncio pool has no such clause. *)
Definition drains_through (fl : flavour) (env : oracle) : Prop :=
  fl = Sync -> forall t c, env t (Close c) <> Some QueueEmpty.

(** ** Invariants of the pool *)

(** A bounded queue never holds more than [maxsize] items. *)
Definition capacity_ok (self : Pool) : Prop :=
  (0 < _pool_size self)%Z ->
  (Z.of_nat (List.length (_available self)) <= _pool_size self)%Z.

(** The pool holds a connection, or it is closed: [acquire] will not
    initialize it. *)
Definition settled (self : Pool) : Prop := _pool self <> [] \/ _closed self = true.

(** What every method keeps: the trace only grows, by entries of the
    class [P]; the configured size stays; the queue stays within its
    capacity; a closed pool stays closed; a settled pool stays settled. *)
Record step (P : entry -> bool) (s s' : Pool * world) : Prop := mkStep {
  step_trace : exists d, trace (snd s') = trace (snd s) ++ d /\ forallb P d = true;
  step_size : _pool_size (fst s') = _pool_size (fst s);
  step_capacity : capacity_ok (fst s) -> capacity_ok (fst s');
  step_closed : _closed (fst s) = true -> _closed (fst s') = true;
  step_settled : settled (fst s) -> settled (fst s')
}.

(** [m] moves every state to one related to it by [R]. *)
Definition preserves {St A} (R : St -> St -> Prop) (m : M St A) : Prop :=
  forall s, R s (snd (m s)).

(** What a transaction scope surfaces: the failure of the commit or
    rollback when there is one, else what the body did. *)
Definition exit_result {A} (body_result : outcome A) (exit_failure : option failure) : outcome A :=
  match exit_failure with
  | Some f => Raise (Failure f)
  | None => body_result
  end.

(** ** The contract of the retry executor

    [run] is an execution of [op] on connection [c] under the policy
    [(max_retries, retry_delay)]; [delta] is what it adds to the trace. *)
Definition retry_contract {A} (max_retries : Z) (retry_delay : Q) (op : operation A)
    (c : conn) (run : M world A) : Prop :=
  forall w, exists delta,
    snd (run w) = {| trace := trace w ++ delta; next_conn := next_conn w |}
    (* never more than max_retries + 1 attempts *)
    /\ (Z.of_nat (attempts_made delta) <= max_retries + 1)%Z
    (* k failures, k <= max_retries, then a success *)
    /\ (forall k v,
          (Z.of_nat k <= max_retries)%Z ->
          (forall i, i < k -> fails (op i c)) ->
          op k c = Return v ->
          fst (run w) = Return v
          /\ attempts_made delta = S k
          /\ sleeps delta
               = map (fun i => Finite (Qmult retry_delay (inject_Z (2 ^ Z.of_nat i)))) (seq 0 k))
    (* max_retries + 1 failures *)
    /\ ((forall i, (Z.of_nat i <= max_retries)%Z -> fails (op i c)) ->
          exists e,
            op (Z.to_nat max_retries) c = Raise e
            /\ fst (run w) = Raise (ConnectionError (exhausted_msg max_retries) (Some e))
            /\ Z.of_nat (attempts_made delta) = (max_retries + 1)%Z).

(** The delays of a policy stay finite floats: the largest of them,
    [retry_delay * 2 ^ (max_retries - 1)], is below [float_limit] in
    magnitude. *)
Definition finite_delays (max_retries : Z) (retry_delay : Q) : Prop :=
  (Qabs retry_delay * inject_Z (2 ^ (max_retries - 1)) < inject_Z float_limit)%Q.

(** [time.sleep] returns for the delays of the first [retries] retries. *)
Definition sleeps_return (env : oracle) (retry_delay : Q) (retries : Z) : Prop :=
  forall t i, (Z.of_nat i < retries)%Z ->
    env t (Sleep (Finite (Qmult retry_delay (inject_Z (2 ^ Z.of_nat i))))) = None.

(** The first [retries] retries of a policy go through: [2 ** attempt]
    converts to a float ([attempt < 1024]), the delays are finite floats
    and, in the synchronous flavour, [time.sleep] returns for them. *)
Definition retries_go_through (fl : flavour) (env : oracle) (retry_delay : Q) (retries : Z)
  : Prop :=
  (retries <= 1024)%Z
  /\ finite_delays retries retry_delay
  /\ (fl = Sync -> sleeps_return env retry_delay retries).

(** No delay of the policy is [inf]: [asyncio.sleep] comes back from each
    of them. *)
Definition never_waits_forever (max_retries : Z) (retry_delay : Q) : Prop :=
  forall i, (Z.of_nat i < max_retries)%Z -> (Z.of_nat i < 1024)%Z ->
    (Qmult retry_delay (inject_Z (2 ^ Z.of_nat i)) < inject_Z float_limit)%Q.

(** The retry that follows attempt [attempt] goes through. *)
Definition retry_proceeds (fl : flavour) (env : oracle) (retry_delay : Q) (attempt : nat)
  : Prop :=
  (Z.of_nat attempt < 1024)%Z
  /\ (Qabs (Qmult retry_delay (inject_Z (2 ^ Z.of_nat attempt))) < inject_Z float_limit)%Q
  /\ (fl = Sync ->
      forall t, env t (Sleep (Finite (Qmult retry_delay (inject_Z (2 ^ Z.of_nat attempt))))) = None).

(* ================================================================== *)
(** * Part II. Properties                                              *)
(* ================================================================== *)

(** ** Traces *)

Lemma attempts_made_app t1 t2 :
  attempts_made (t1 ++ t2) = attempts_made t1 + attempts_made t2.
Proof. unfold attempts_made. now rewrite filter_app, length_app. Qed.

Lemma sleeps_app t1 t2 : sleeps (t1 ++ t2) = sleeps t1 ++ sleeps t2.
Proof. apply flat_map_app. Qed.

Lemma closes_app t1 t2 : closes (t1 ++ t2) = closes t1 ++ closes t2.
Proof. apply flat_map_app. Qed.

Lemma releases_app t1 t2 : releases (t1 ++ t2) = releases t1 ++ releases t2.
Proof. apply flat_map_app. Qed.

Lemma constructs_app t1 t2 : constructs (t1 ++ t2) = constructs t1 ++ constructs t2.
Proof. apply flat_map_app. Qed.

Lemma created_app t1 t2 : created (t1 ++ t2) = created t1 ++ created t2.
Proof. apply flat_map_app. Qed.

Lemma initializations_app t1 t2 :
  initializations (t1 ++ t2) = initializations t1 + initializations t2.
Proof. unfold initializations. now rewrite filter_app, length_app. Qed.

(** ** RetryExecutor *)

(** The delay of a retry that goes through. *)
Lemma backoff_finite (retry_delay : Q) (attempt : nat) :
  (Z.of_nat attempt < 1024)%Z ->
  (Qabs (retry_delay * inject_Z (2 ^ Z.of_nat attempt)) < inject_Z float_limit)%Q ->
  backoff retry_delay attempt
  = Return (Finite (retry_delay * inject_Z (2 ^ Z.of_nat attempt))).
Proof.
  intros Ha Hd. unfold backoff.
  replace (1024 <=? Z.of_nat attempt)%Z with false by (symmetry; apply Z.leb_gt; lia).
  destruct (Qle_bool _ _) eqn:E; [|reflexivity].
  apply Qle_bool_iff in E. exfalso. exact (Qlt_not_le _ _ Hd E).
Qed.

(** From [2 ** 1024] on the power does not convert to a float. *)
Lemma backoff_overflow (retry_delay : Q) (attempt : nat) :
  (1024 <= Z.of_nat attempt)%Z -> backoff retry_delay attempt = Raise OverflowError.
Proof.
  intros Ha. unfold backoff.
  replace (1024 <=? Z.of_nat attempt)%Z with true by (symmetry; apply Z.leb_le; lia).
  reflexivity.
Qed.

(** The delays grow with the attempt: when the last one is finite, all are. *)
Lemma finite_delays_attempt (retries : Z) (retry_delay : Q) (i : nat) :
  finite_delays retries retry_delay ->
  (Z.of_nat i < retries)%Z ->
  (Qabs (retry_delay * inject_Z (2 ^ Z.of_nat i)) < inject_Z float_limit)%Q.
Proof.
  unfold finite_delays. destruct retry_delay as [n d]. intros H Hi.
  unfold Qlt, Qabs, Qmult, inject_Z in *. cbn [Qnum Qden] in *.
  rewrite Z.abs_mul.
  assert (Hpow : (0 < 2 ^ Z.of_nat i <= 2 ^ (retries - 1))%Z).
  { split; [apply Z.pow_pos_nonneg; lia | apply Z.pow_le_mono_r; lia]. }
  rewrite (Z.abs_eq (2 ^ Z.of_nat i)) by lia.
  assert (Hn : (0 <= Z.abs n)%Z) by apply Z.abs_nonneg.
  nia.
Qed.

Lemma retries_go_through_attempt (fl : flavour) (env : oracle) (retry_delay : Q)
    (retries : Z) (i : nat) :
  retries_go_through fl env retry_delay retries ->
  (Z.of_nat i < retries)%Z ->
  retry_proceeds fl env retry_delay i.
Proof.
  intros (Hmax & Hfinite & Hsleep) Hi. split; [lia|]. split.
  - eapply finite_delays_attempt; [exact Hfinite | exact Hi].
  - intros Hfl t. apply (Hsleep Hfl). exact Hi.
Qed.

Lemma retries_go_through_fewer (fl : flavour) (env : oracle) (retry_delay : Q)
    (retries fewer : Z) :
  retries_go_through fl env retry_delay retries ->
  (fewer <= retries)%Z ->
  forall i, (Z.of_nat i < fewer)%Z -> retry_proceeds fl env retry_delay i.
Proof.
  intros H Hle i Hi. eapply retries_go_through_attempt; [exact H | lia].
Qed.

(** However a sleep ends, it leaves its entry in the trace. *)
Lemma sleep_cases (fl : flavour) (env : oracle) (delay : pyfloat) (w : world) :
  exists r x, sleep fl env delay w = (r, record_entry (Sleep delay, x) w).
Proof.
  destruct fl; cbn.
  - destruct delay as [q|[|]]; eexists _, None; reflexivity.
  - unfold call. destruct (env (trace w) (Sleep delay)); eexists _, _; reflexivity.
Qed.

Section RetryLoop.
Context {A : Type}.
Variables (fl : flavour) (env : oracle).
Variables (max_retries : Z) (retry_delay : Q) (op : operation A) (c : conn).

Ltac run_step :=
  cbn [retry_loop];
  unfold try_except, invoke, except_Exception, bind, eval, log, emit,
    record_entry, raise; cbn [fst snd trace next_conn].

(** Whatever the operation and the clock do, the loop invokes the
    operation at most once per attempt of the range, and touches nothing
    but the trace, where it leaves invocations, log lines and sleeps. *)
Lemma retry_loop_bound :
  forall attempts last w,
  exists delta,
    snd (retry_loop fl env max_retries retry_delay op c attempts last w)
      = {| trace := trace w ++ delta; next_conn := next_conn w |}
    /\ attempts_made delta <= List.length attempts
    /\ forallb executor_entry delta = true.
Proof.
  induction attempts as [|a rest IH]; intros last w.
  - exists []. cbn. rewrite app_nil_r. destruct w; repeat split; lia.
  - run_step.
    destruct (op a c) as [v|e|];
      [exists [(Operation c, None)]; cbn; repeat split; lia | |
       exists [(Operation c, None)]; cbn; repeat split; lia].
    destruct (is_Exception e);
      [|exists [(Operation c, None)]; cbn; repeat split; lia].
    destruct (Z.of_nat a <? max_retries)%Z.
    + destruct (backoff retry_delay a) as [delay|e'|];
        [|exists [(Operation c, None)]; cbn; repeat split; lia
         |exists [(Operation c, None)]; cbn; repeat split; lia].
      match goal with |- context [sleep fl env delay ?w1] =>
        destruct (sleep_cases fl env delay w1) as (r & x & ->) end.
      unfold record_entry; cbn [trace next_conn].
      destruct r as [[]|e'|].
      * match goal with |- context [retry_loop _ _ _ _ _ _ _ ?l ?w'] =>
          destruct (IH l w') as (d & Hd & Hn & Hx) end.
        exists ([(Operation c, None);
                 (Log WARNING "Operation failed, retrying"%string, None);
                 (Sleep delay, x)] ++ d).
        rewrite Hd. cbn [trace next_conn]. repeat split.
        -- f_equal. rewrite <- !app_assoc. reflexivity.
        -- rewrite attempts_made_app. cbn. lia.
        -- cbn [forallb app executor_entry fst andb]. exact Hx.
      * exists [(Operation c, None);
                (Log WARNING "Operation failed, retrying"%string, None);
                (Sleep delay, x)].
        cbn [snd]. rewrite <- !app_assoc. repeat split. cbn. lia.
      * exists [(Operation c, None);
                (Log WARNING "Operation failed, retrying"%string, None);
                (Sleep delay, x)].
        cbn [snd]. rewrite <- !app_assoc. repeat split. cbn. lia.
    + match goal with |- context [retry_loop _ _ _ _ _ _ _ ?l ?w'] =>
        destruct (IH l w') as (d & Hd & Hn & Hx) end.
      exists ([(Operation c, None);
               (Log ERROR "Operation failed after all attempts"%string, None)] ++ d).
      rewrite Hd. cbn [trace next_conn]. repeat split.
      * f_equal. rewrite <- !app_assoc. reflexivity.
      * rewrite attempts_made_app. cbn. lia.
      * cbn [forallb app executor_entry fst andb]. exact Hx.
Qed.

(** An invocation that does not fail ends the loop. *)
Lemma retry_loop_pass a rest last w :
  passes (op a c) ->
  retry_loop fl env max_retries retry_delay op c (a :: rest) last w
  = (op a c, {| trace := trace w ++ [(Operation c, None)]; next_conn := next_conn w |}).
Proof.
  intros Hp. run_step.
  destruct (op a c) as [v|e|]; cbn in Hp |- *; try reflexivity.
  rewrite Hp. reflexivity.
Qed.

(** A failed attempt that is not the last is followed by a warning and a
    sleep of [retry_delay * 2 ^ attempt], and the loop goes on. *)
Lemma retry_loop_retry a rest last w e :
  op a c = Raise e ->
  is_Exception e = true ->
  (Z.of_nat a < max_retries)%Z ->
  retry_proceeds fl env retry_delay a ->
  retry_loop fl env max_retries retry_delay op c (a :: rest) last w
  = retry_loop fl env max_retries retry_delay op c rest (Some e)
      {| trace := trace w ++ retried_attempt retry_delay c a; next_conn := next_conn w |}.
Proof.
  intros He Hexc Ha (H1024 & Hfinite & Hsleep). run_step.
  rewrite He, Hexc.
  replace (Z.of_nat a <? max_retries)%Z with true by (symmetry; apply Z.ltb_lt; lia).
  rewrite (@backoff_finite retry_delay a H1024 Hfinite).
  unfold retried_attempt. destruct fl.
  - cbn. rewrite <- !app_assoc. reflexivity.
  - cbn. unfold call. rewrite (Hsleep eq_refl). cbn. rewrite <- !app_assoc. reflexivity.
Qed.

(** The failure of the last attempt is logged as an error; no sleep
    follows. *)
Lemma retry_loop_last a rest last w e :
  op a c = Raise e ->
  is_Exception e = true ->
  (max_retries <= Z.of_nat a)%Z ->
  retry_loop fl env max_retries retry_delay op c (a :: rest) last w
  = retry_loop fl env max_retries retry_delay op c rest (Some e)
      {| trace := trace w ++ last_attempt c; next_conn := next_conn w |}.
Proof.
  intros He Hexc Ha. run_step. rewrite He, Hexc.
  replace (Z.of_nat a <? max_retries)%Z with false by (symmetry; apply Z.ltb_ge; lia).
  cbn. rewrite <- !app_assoc. reflexivity.
Qed.

(** From attempt 1024 on the delay of a retry cannot be computed:
    [OverflowError] is raised in the [except] clause, before the warning,
    and leaves the loop. *)
Lemma retry_loop_overflow a rest last w e :
  op a c = Raise e ->
  is_Exception e = true ->
  (Z.of_nat a < max_retries)%Z ->
  (1024 <= Z.of_nat a)%Z ->
  retry_loop fl env max_retries retry_delay op c (a :: rest) last w
  = (Raise OverflowError,
     {| trace := trace w ++ [(Operation c, None)]; next_conn := next_conn w |}).
Proof.
  intros He Hexc Ha H1024. run_step. rewrite He, Hexc.
  replace (Z.of_nat a <? max_retries)%Z with true by (symmetry; apply Z.ltb_lt; lia).
  rewrite (@backoff_overflow retry_delay a H1024). reflexivity.
Qed.

(** [k] failed attempts that are retried: the loop is where it was, [k]
    attempts later, and remembers the last failure. *)
Lemma retry_loop_prefix :
  forall k a n last w,
    (forall i, i < k -> fails (op (a + i) c)) ->
    (forall i, i < k -> retry_proceeds fl env retry_delay (a + i)) ->
    (Z.of_nat (a + k) <= max_retries)%Z ->
    k <= n ->
    exists last',
      retry_loop fl env max_retries retry_delay op c (seq a n) last w
      = retry_loop fl env max_retries retry_delay op c (seq (a + k) (n - k)) last'
          {| trace := trace w ++ flat_map (retried_attempt retry_delay c) (seq a k);
             next_conn := next_conn w |}
      /\ (k = 0 -> last' = last)
      /\ (0 < k -> exists e, op (a + k - 1) c = Raise e /\ last' = Some e).
Proof.
  induction k as [|k IH]; intros a n last w Hfail Hgo Hmax Hkn.
  - exists last. rewrite Nat.add_0_r, Nat.sub_0_r. cbn. rewrite app_nil_r.
    destruct w. repeat split; auto. intros; lia.
  - destruct n as [|n]; [lia|].
    destruct (Hfail 0) as (e & He & Hexc); [lia|].
    rewrite Nat.add_0_r in He.
    cbn [seq].
    rewrite (@retry_loop_retry a (seq (S a) n) last w e He Hexc);
      [| lia | specialize (Hgo 0); rewrite Nat.add_0_r in Hgo; apply Hgo; lia].
    match goal with |- context [retry_loop _ _ _ _ _ _ _ ?l ?w'] =>
      destruct (IH (S a) n l w') as (last' & Hrun & Hzero & Hlast) end.
    + intros i Hi. replace (S a + i) with (a + S i) by lia. apply Hfail. lia.
    + intros i Hi. replace (S a + i) with (a + S i) by lia. apply Hgo. lia.
    + lia.
    + lia.
    + exists last'. rewrite Hrun. cbn [trace next_conn flat_map].
      replace (S a + k) with (a + S k) by lia.
      replace (S n - S k) with (n - k) by lia.
      rewrite <- !app_assoc. repeat split.
      * intros; lia.
      * intros _. destruct k as [|k].
        -- exists e. replace (a + 1 - 1) with a by lia. split; [exact He|].
           apply Hzero. reflexivity.
        -- destruct Hlast as (e' & He' & ->); [lia|].
           exists e'. replace (a + S (S k) - 1) with (S a + S k - 1) by lia. auto.
Qed.

(** [k] failures that are retried, then an invocation that does not fail:
    the executor ends as that invocation ends. *)
Lemma retry_loop_stops k w :
  (forall i, i < k -> fails (op i c)) ->
  (forall i, i < k -> retry_proceeds fl env retry_delay i) ->
  (Z.of_nat k <= max_retries)%Z ->
  passes (op k c) ->
  retry_loop fl env max_retries retry_delay op c (range (max_retries + 1)) None w
  = (op k c,
     {| trace := trace w ++ flat_map (retried_attempt retry_delay c) (seq 0 k)
                         ++ [(Operation c, None)];
        next_conn := next_conn w |}).
Proof.
  intros Hfail Hgo Hk Hpass. unfold range.
  destruct (@retry_loop_prefix k 0 (Z.to_nat (max_retries + 1)) None w)
    as (last' & Hrun & _); auto; try lia.
  rewrite Hrun. cbn [Nat.add].
  destruct (Z.to_nat (max_retries + 1) - k) as [|m] eqn:Hm; [lia|].
  cbn [seq]. rewrite retry_loop_pass by exact Hpass.
  cbn [trace next_conn]. rewrite <- app_assoc. reflexivity.
Qed.

(** Every attempt fails: the error raised carries the failure of the last
    attempt as its cause, and no sleep follows the last attempt. *)
Lemma retry_loop_exhausted w :
  (0 <= max_retries)%Z ->
  (forall i, (Z.of_nat i <= max_retries)%Z -> fails (op i c)) ->
  (forall i, (Z.of_nat i < max_retries)%Z -> retry_proceeds fl env retry_delay i) ->
  exists e,
    op (Z.to_nat max_retries) c = Raise e
    /\ retry_loop fl env max_retries retry_delay op c (range (max_retries + 1)) None w
       = (Raise (ConnectionError (exhausted_msg max_retries) (Some e)),
          {| trace := trace w
                      ++ flat_map (retried_attempt retry_delay c) (seq 0 (Z.to_nat max_retries))
                      ++ last_attempt c;
             next_conn := next_conn w |}).
Proof.
  intros Hmr Hfail Hgo. unfold range.
  destruct (@retry_loop_prefix (Z.to_nat max_retries) 0 (Z.to_nat (max_retries + 1)) None w)
    as (last' & Hrun & _).
  - intros i Hi. apply Hfail. lia.
  - intros i Hi. apply Hgo. lia.
  - lia.
  - lia.
  - destruct (Hfail (Z.to_nat max_retries)) as (e & He & Hexc); [lia|].
    exists e. split; [exact He|].
    rewrite Hrun. cbn [Nat.add].
    replace (Z.to_nat (max_retries + 1) - Z.to_nat max_retries) with 1 by lia.
    cbn [seq]. rewrite (@retry_loop_last _ [] _ _ e He Hexc) by lia.
    cbn [retry_loop raise trace next_conn]. rewrite <- app_assoc. reflexivity.
Qed.

(** With more than 1024 retries allowed, the 1025th failure ends the
    executor with [OverflowError]. *)
Lemma retry_loop_overflows w :
  (1024 < max_retries)%Z ->
  (forall i, i <= 1024 -> fails (op i c)) ->
  (forall i, (Z.of_nat i < 1024)%Z -> retry_proceeds fl env retry_delay i) ->
  retry_loop fl env max_retries retry_delay op c (range (max_retries + 1)) None w
  = (Raise OverflowError,
     {| trace := trace w ++ flat_map (retried_attempt retry_delay c) (seq 0 1024)
                         ++ [(Operation c, None)];
        next_conn := next_conn w |}).
Proof.
  intros Hmr Hfail Hgo. unfold range.
  destruct (@retry_loop_prefix 1024 0 (Z.to_nat (max_retries + 1)) None w)
    as (last' & Hrun & _).
  - intros i Hi. apply Hfail. lia.
  - intros i Hi. apply Hgo. lia.
  - lia.
  - lia.
  - destruct (Hfail 1024) as (e & He & Hexc); [lia|].
    rewrite Hrun.
    destruct (Z.to_nat (max_retries + 1) - 1024) as [|m] eqn:Hm; [lia|].
    replace (0 + 1024) with 1024 by reflexivity.
    cbn [seq]. rewrite (@retry_loop_overflow _ _ _ _ e He Hexc) by lia.
    cbn [trace next_conn]. rewrite <- app_assoc. reflexivity.
Qed.

End RetryLoop.

(** What the clock raises leaves the synchronous executor: [time.sleep] is
    called in the [except] clause. *)
Lemma retry_loop_sleep_fails {A} (env : oracle) (max_retries : Z) (retry_delay : Q)
    (op : operation A) (c : conn) (k : nat) (w : world) (f : failure) :
  (forall i, i <= k -> fails (op i c)) ->
  (forall i, i < k -> retry_proceeds Sync env retry_delay i) ->
  (Z.of_nat k < max_retries)%Z ->
  (Z.of_nat k < 1024)%Z ->
  (Qabs (retry_delay * inject_Z (2 ^ Z.of_nat k)) < inject_Z float_limit)%Q ->
  env (trace w ++ flat_map (retried_attempt retry_delay c) (seq 0 k)
               ++ [(Operation c, None); (Log WARNING "Operation failed, retrying", None)])
      (Sleep (Finite (retry_delay * inject_Z (2 ^ Z.of_nat k)))) = Some f ->
  retry_loop Sync env max_retries retry_delay op c (range (max_retries + 1)) None w
  = (Raise (Failure f),
     {| trace := trace w ++ flat_map (retried_attempt retry_delay c) (seq 0 k)
                         ++ [(Operation c, None);
                             (Log WARNING "Operation failed, retrying", None);
                             (Sleep (Finite (retry_delay * inject_Z (2 ^ Z.of_nat k))), Some f)];
        next_conn := next_conn w |}).
Proof.
  intros Hfail Hgo Hk H1024 Hfinite Henv. unfold range.
  destruct (@retry_loop_prefix A Sync env max_retries retry_delay op c k 0
              (Z.to_nat (max_retries + 1)) None w) as (last' & Hrun & _).
  - intros i Hi. apply Hfail. lia.
  - intros i Hi. apply Hgo. lia.
  - lia.
  - lia.
  - destruct (Hfail k) as (e & He & Hexc); [lia|].
    rewrite Hrun. cbn [Nat.add].
    destruct (Z.to_nat (max_retries + 1) - k) as [|m] eqn:Hm; [lia|].
    cbn [seq retry_loop].
    unfold try_except, invoke, except_Exception, bind, eval, log, emit, record_entry.
    cbn [fst snd trace next_conn].
    rewrite He, Hexc.
    replace (Z.of_nat k <? max_retries)%Z with true by (symmetry; apply Z.ltb_lt; lia).
    rewrite (@backoff_finite retry_delay k H1024 Hfinite).
    cbn [sleep]. unfold call. cbn [trace next_conn].
    rewrite <- !app_assoc. cbn [app].
    match goal with |- context [env ?t ?ev] =>
      replace (env t ev) with (Some f) by (symmetry; exact Henv) end.
    unfold record_entry. cbn [trace next_conn].
    rewrite <- !app_assoc. reflexivity.
Qed.

Lemma sleeps_retried_attempts (retry_delay : Q) (c : conn) (k a : nat) :
  sleeps (flat_map (retried_attempt retry_delay c) (seq a k))
  = map (fun i => Finite (retry_delay * inject_Z (2 ^ Z.of_nat i))) (seq a k).
Proof.
  revert a. induction k as [|k IH]; intros a; [reflexivity|].
  cbn [seq flat_map map]. rewrite sleeps_app, IH. reflexivity.
Qed.

Lemma attempts_retried_attempts (retry_delay : Q) (c : conn) (k a : nat) :
  attempts_made (flat_map (retried_attempt retry_delay c) (seq a k)) = k.
Proof.
  revert a. induction k as [|k IH]; intros a; [reflexivity|].
  cbn [seq flat_map]. rewrite attempts_made_app, IH. reflexivity.
Qed.

(** The contract of the executor, for both flavours, under a policy whose
    retries go through. *)
Lemma retry_loop_contract {A} (fl : flavour) (env : oracle) (max_retries : Z)
    (retry_delay : Q) (op : operation A) (c : conn) :
  (0 <= max_retries)%Z ->
  retries_go_through fl env retry_delay max_retries ->
  retry_contract max_retries retry_delay op c
    (retry_loop fl env max_retries retry_delay op c (range (max_retries + 1)) None).
Proof.
  intros Hmr Hgo w.
  destruct (retry_loop_bound fl env max_retries retry_delay op c
              (range (max_retries + 1)) None w) as (delta & Hsnd & Hbound & _).
  unfold range in Hbound. rewrite length_seq in Hbound.
  exists delta. split; [exact Hsnd|]. split; [lia|]. split.
  - (* k failures, then a success *)
    intros k v Hk Hfail Hok.
    assert (Hpass : passes (op k c)) by (rewrite Hok; exact I).
    assert (Hfew : forall i, i < k -> retry_proceeds fl env retry_delay i).
    { intros i Hi. eapply retries_go_through_attempt; [exact Hgo | lia]. }
    assert (Hrun := @retry_loop_stops A fl env max_retries retry_delay op c k w Hfail
                      Hfew Hk Hpass).
    rewrite Hok in Hrun. rewrite Hrun in Hsnd |- *.
    cbn [fst snd] in Hsnd |- *.
    injection Hsnd as Hd. apply app_inv_head in Hd. subst delta.
    split; [reflexivity|]. split.
    + rewrite attempts_made_app, attempts_retried_attempts. cbn. lia.
    + rewrite sleeps_app, sleeps_retried_attempts. cbn. apply app_nil_r.
  - (* max_retries + 1 failures *)
    intros Hfail.
    destruct (@retry_loop_exhausted A fl env max_retries retry_delay op c w Hmr Hfail)
      as (e & He & Hrun).
    + intros i Hi. eapply retries_go_through_attempt; [exact Hgo | lia].
    + exists e. split; [exact He|].
      rewrite Hrun in Hsnd |- *. cbn [fst snd] in Hsnd |- *.
      injection Hsnd as Hd. apply app_inv_head in Hd. subst delta.
      split; [reflexivity|].
      rewrite attempts_made_app, attempts_retried_attempts. cbn. lia.
Qed.

(** C1.  With a retry policy [(max_retries, retry_delay)] such that
    [0 <= max_retries <= 1024] and the delays are finite floats (the largest,
    [retry_delay * 2 ^ (max_retries - 1)], is below [2 ^ 1024] in magnitude),
    [AsyncSingleConnection.execute_with_retry] and
    [AsyncConnectionPool._execute_with_retry] invoke the operation at most
    [max_retries + 1] times.  When the operation fails on its first [k]
    invocations, [k <= max_retries], and then succeeds, the result of the
    success is returned after [k + 1] invocations and the sleeps
    [retry_delay * 2^0, ..., retry_delay * 2^(k-1)], in this order.  When it
    fails on all [max_retries + 1] invocations, [ConnectionError] is
    raised, and its cause is the failure of the last invocation. *)
Theorem execute_with_retry_contract {A} (env : oracle) (max_retries : Z) (retry_delay : Q)
    (c : conn) (op : operation A) :
  (0 <= max_retries <= 1024)%Z ->
  finite_delays max_retries retry_delay ->
  retry_contract max_retries retry_delay op c
    (execute_with_retry Async env (mkSingle c max_retries retry_delay) op)
  /\ retry_contract max_retries retry_delay op c
       (_execute_with_retry Async env max_retries retry_delay op c).
Proof.
  intros Hmr Hfinite.
  assert (Hgo : retries_go_through Async env retry_delay max_retries).
  { split; [lia|]. split; [exact Hfinite | discriminate]. }
  split.
  - unfold execute_with_retry. cbn [single_max_retries single_retry_delay single_connection].
    apply retry_loop_contract; [lia | exact Hgo].
  - unfold _execute_with_retry. apply retry_loop_contract; [lia | exact Hgo].
Qed.

Lemma execute_with_retry_contract_witness :
  (0 <= 3 <= 1024)%Z
  /\ finite_delays 3 (1 # 2)
  /\ (retry_contract 3 (1 # 2) flaky_operation 0
        (execute_with_retry Async all_well (mkSingle 0 3 (1 # 2)) flaky_operation)
      /\ retry_contract 3 (1 # 2) flaky_operation 0
           (_execute_with_retry Async all_well 3 (1 # 2) flaky_operation 0)).
Proof.
  assert (Hmr : (0 <= 3 <= 1024)%Z) by lia.
  assert (Hfinite : finite_delays 3 (1 # 2)) by (vm_compute; reflexivity).
  split; [exact Hmr|]. split; [exact Hfinite|].
  exact (@execute_with_retry_contract nat all_well 3 (1 # 2) 0 flaky_operation Hmr Hfinite).
Defined.

(** The policy [(1, 1.0)] extended to 1024 retries: the delays stay finite. *)
Lemma unit_delay_goes_through (fl : flavour) :
  retries_go_through fl all_well (1 # 1) 1024.
Proof.
  split; [lia|]. split; [vm_compute; reflexivity|]. intros _ t i _. reflexivity.
Qed.

Lemma failing_operation_fails (i : nat) (c : conn) : fails (failing_operation i c).
Proof. exists (Failure i). split; reflexivity. Qed.

(** Outside that range the contract fails.  With [max_retries = -2] no
    attempt is made, which is more than [max_retries + 1 = -1]; with
    [max_retries = 1025] and an operation that always fails the executor
    raises [OverflowError], not [ConnectionError], at the 1025th failure:
    [2 ** 1024] does not convert to a float. *)
Lemma retry_contract_outside_its_range :
  ~ retry_contract (-2) (1 # 1) failing_operation 0
      (execute_with_retry Async all_well (mkSingle 0 (-2) (1 # 1)) failing_operation)
  /\ ~ retry_contract 1025 (1 # 1) failing_operation 0
         (execute_with_retry Async all_well (mkSingle 0 1025 (1 # 1)) failing_operation)
  /\ fst (execute_with_retry Async all_well (mkSingle 0 1025 (1 # 1)) failing_operation
            new_world) = Raise OverflowError.
Proof.
  assert (Hover : forall w,
            fst (execute_with_retry Async all_well (mkSingle 0 1025 (1 # 1)) failing_operation w)
            = Raise OverflowError).
  { intros w. unfold execute_with_retry.
    cbn [single_max_retries single_retry_delay single_connection].
    rewrite retry_loop_overflows; [reflexivity | lia | |].
    - intros i _. apply failing_operation_fails.
    - intros i Hi. eapply retries_go_through_attempt;
        [apply (unit_delay_goes_through Async) | exact Hi]. }
  split; [|split].
  - intros H. destruct (H new_world) as (delta & _ & Hbound & _). lia.
  - intros H. destruct (H new_world) as (delta & _ & _ & _ & Hexhausted).
    destruct Hexhausted as (e & _ & Hrun & _).
    + intros i _. apply failing_operation_fails.
    + rewrite Hover in Hrun. discriminate.
  - apply Hover.
Qed.

(** ** TransactionScope *)

(** C2 (as amended).  For a scope entered on connection [c]
    ([begin_transaction] returned): when the body completes, the exit issues
    exactly [commit_transaction()] on [c] and no rollback; when the body
    raises [e], the exit issues exactly [rollback_transaction()] on [c] and no
    commit.  In both cases the scope is left inactive.  What the caller
    sees is the result of the body, respectively [e] itself, provided the
    commit or rollback returned; when that call raises, its failure is
    what surfaces ([e] is then only the context of the new exception). *)
Theorem transaction_scope_exit {A} (fl : flavour) (env : oracle) (body : M world A)
    (c : conn) (w : world) :
  env (trace w) (Begin_transaction c) = None ->
  let entered := record_entry (Begin_transaction c, None) w in
  match body entered with
  | (Return a, w') =>
      let failure := env (trace w') (Commit_transaction c) in
      transaction_scope fl env body (new_transaction c, w)
      = (exit_result (Return a) failure,
         (set_in_transaction false (new_transaction c),
          record_entry (Commit_transaction c, failure) w'))
  | (Raise e, w') =>
      let failure := env (trace w') (Rollback_transaction c) in
      transaction_scope fl env body (new_transaction c, w)
      = (exit_result (Raise e) failure,
         (set_in_transaction false (new_transaction c),
          record_entry (Rollback_transaction c, failure) w'))
  | (Blocked, w') =>
      transaction_scope fl env body (new_transaction c, w)
      = (Blocked, (set_in_transaction true (new_transaction c), w'))
  end.
Proof.
  intros Hbegin entered.
  destruct (body entered) as [[a|e|] w'] eqn:Hbody; subst entered; cbn in Hbody;
    destruct fl; unfold transaction_scope, with_statement, __aenter__, __aexit__,
      __enter__, __exit__, bind, get_self, set_self, lift, call, try_finally, ret, raise;
    cbn; rewrite Hbegin; cbn; rewrite Hbody; cbn;
    try reflexivity;
    match goal with |- context [env ?t ?ev] => destruct (env t ev) end; reflexivity.
Qed.

Lemma transaction_scope_exit_witness :
  all_well (trace new_world) (Begin_transaction 7) = None
  /\ transaction_scope Sync all_well (fun w => (Raise (Failure 1) : outcome nat, w))
       (new_transaction 7, new_world)
     = (Raise (Failure 1),
        (set_in_transaction false (new_transaction 7),
         {| trace := [(Begin_transaction 7, None); (Rollback_transaction 7, None)];
            next_conn := 0 |})).
Proof.
  split; [reflexivity|].
  exact (@transaction_scope_exit nat Sync all_well
           (fun w => (Raise (Failure 1) : outcome nat, w)) 7 new_world eq_refl).
Defined.

(** C2, as stated, fails when the rollback itself raises: the body raised
    [Failure 1], the caller sees [Failure 2]. *)
Lemma rollback_failure_replaces_original :
  ~ (forall (fl : flavour) (env : oracle) (body : M world nat) (c : conn) (w w' : world) (e : exn),
       env (trace w) (Begin_transaction c) = None ->
       body (record_entry (Begin_transaction c, None) w) = (Raise e, w') ->
       fst (transaction_scope fl env body (new_transaction c, w)) = Raise e).
Proof.
  intros H.
  specialize (H Async rollback_fails (fun w => (Raise (Failure 1), w)) 0
                (mkWorld [] 0) _ (Failure 1) eq_refl eq_refl).
  discriminate H.
Qed.

(** ** Steps of the pool *)

Section Preserves.
Context {St : Type} (R : St -> St -> Prop).
Hypothesis R_refl : forall s, R s s.
Hypothesis R_trans : forall a b c, R a b -> R b c -> R a c.

Lemma preserves_ret {A} (a : A) : preserves R (ret a).
Proof. intros s. apply R_refl. Qed.

Lemma preserves_raise {A} (e : exn) : preserves R (@raise St A e).
Proof. intros s. apply R_refl. Qed.

Lemma preserves_bind {A B} (m : M St A) (k : A -> M St B) :
  preserves R m -> (forall a, preserves R (k a)) -> preserves R (bind m k).
Proof.
  intros Hm Hk s. unfold bind. specialize (Hm s).
  destruct (m s) as [[a|e|] s1]; cbn in *; auto.
  eapply R_trans; [exact Hm | apply Hk].
Qed.

Lemma preserves_try_except {A} (body : M St A) handler :
  preserves R body ->
  (forall e h, handler e = Some h -> preserves R h) ->
  preserves R (try_except body handler).
Proof.
  intros Hb Hh s. unfold try_except. specialize (Hb s).
  destruct (body s) as [[a|e|] s1]; cbn in *; auto.
  destruct (handler e) as [h|] eqn:He; cbn; auto.
  eapply R_trans; [exact Hb | eapply Hh; eauto].
Qed.

Lemma preserves_except_Exception {A} (h : exn -> M St A) :
  (forall e, preserves R (h e)) ->
  forall e h', except_Exception h e = Some h' -> preserves R h'.
Proof.
  intros Hh e h'. unfold except_Exception.
  destruct (is_Exception e); intros E; inversion E; subst; auto.
Qed.

Lemma preserves_if {A} (b : bool) (m1 m2 : M St A) :
  preserves R m1 -> preserves R m2 -> preserves R (if b then m1 else m2).
Proof. destruct b; auto. Qed.
End Preserves.

Lemma step_refl P s : step P s s.
Proof.
  constructor; auto. exists []. now rewrite app_nil_r.
Qed.

Lemma step_trans P a b c : step P a b -> step P b c -> step P a c.
Proof.
  intros [(d1 & Ht1 & Hq1) Hs1 Hc1 Hcl1 Hi1] [(d2 & Ht2 & Hq2) Hs2 Hc2 Hcl2 Hi2].
  constructor; auto.
  - exists (d1 ++ d2). rewrite Ht2, Ht1, app_assoc. split; auto.
    rewrite forallb_app, Hq1, Hq2. reflexivity.
  - congruence.
Qed.

Lemma bind_emit {A} ev (k : unit -> M (Pool * world) A) (self : Pool) (w : world) :
  bind (lift (emit ev)) k (self, w) = k tt (self, record_entry (ev, None) w).
Proof. reflexivity. Qed.

Section Steps.
Variable P : entry -> bool.
Variable env : oracle.

Lemma step_world (self : Pool) w w' :
  (exists d, trace w' = trace w ++ d /\ forallb P d = true) ->
  step P (self, w) (self, w').
Proof. intros H. constructor; auto. Qed.

Lemma step_call ev :
  (forall r, P (ev, r) = true) -> preserves (step P) (lift (call env ev)).
Proof.
  intros HP [self w]. unfold lift, call; cbn.
  destruct (env (trace w) ev); cbn; apply step_world;
    eexists; (split; [reflexivity|]); cbn; rewrite HP; reflexivity.
Qed.

Lemma step_emit ev :
  P (ev, None) = true -> preserves (step P) (lift (emit ev)).
Proof.
  intros HP [self w]. unfold lift, emit; cbn.
  apply step_world. eexists; (split; [reflexivity|]); cbn; rewrite HP; reflexivity.
Qed.

Lemma step_get_self : preserves (step P) (@get_self Pool).
Proof. intros s. apply step_refl. Qed.

Lemma step_put c : preserves (step P) (put c).
Proof.
  intros [self w]. unfold put; cbn.
  destruct (full self) eqn:Hfull; cbn; [apply step_refl|].
  constructor; cbn; auto.
  - exists []. now rewrite app_nil_r.
  - unfold capacity_ok, full in *. cbn. rewrite length_app. cbn. intros _ Hpos.
    apply andb_false_iff in Hfull. destruct Hfull as [H|H].
    + apply Z.ltb_ge in H. lia.
    + apply Z.leb_gt in H. lia.
Qed.

Lemma step_dequeue {A} (on_empty : outcome A) (k : conn -> outcome A) :
  preserves (step P)
    (fun s : Pool * world =>
       match _available (fst s) with
       | [] => (on_empty, s)
       | c :: q => (k c, (set_available q (fst s), snd s))
       end).
Proof.
  intros [self w]. cbn. destruct (_available self) as [|c q] eqn:Hq; cbn.
  - apply step_refl.
  - constructor; cbn; auto.
    + exists []. now rewrite app_nil_r.
    + unfold capacity_ok. cbn. rewrite Hq. cbn. lia.
Qed.

Lemma step_ret {A} (a : A) : preserves (step P) (ret a).
Proof. apply preserves_ret, step_refl. Qed.

Lemma step_raise {A} (e : exn) : preserves (step P) (@raise _ A e).
Proof. apply preserves_raise, step_refl. Qed.

Lemma step_bind {A B} (m : M (Pool * world) A) (k : A -> M (Pool * world) B) :
  preserves (step P) m -> (forall a, preserves (step P) (k a)) ->
  preserves (step P) (bind m k).
Proof. apply preserves_bind, step_trans. Qed.

Lemma step_try_except {A} (body : M (Pool * world) A) handler :
  preserves (step P) body ->
  (forall e h, handler e = Some h -> preserves (step P) h) ->
  preserves (step P) (try_except body handler).
Proof. apply preserves_try_except, step_trans. Qed.

Hypothesis P_construct : forall c r, P (Construct c, r) = true.
Hypothesis P_signin : forall c r, P (Signin c, r) = true.
Hypothesis P_use : forall c r, P (Use c, r) = true.
Hypothesis P_version : forall c r, P (Version c, r) = true.
Hypothesis P_close : forall c r, P (Close c, r) = true.
Hypothesis P_get : forall t r, P (Get t, r) = true.
Hypothesis P_warning : forall msg r, P (Log WARNING msg, r) = true.
Hypothesis P_error : forall msg r, P (Log ERROR msg, r) = true.
Hypothesis P_operation : forall c r, P (Operation c, r) = true.
Hypothesis P_sleep : forall d r, P (Sleep d, r) = true.

Ltac step_tac :=
  repeat first
    [ apply step_bind; [ | intros ?]
    | apply step_try_except
    | apply preserves_except_Exception; intros ?
    | apply preserves_if
    | apply step_ret
    | apply step_raise
    | apply step_get_self
    | apply step_put
    | apply step_call; intros ?; solve [auto]
    | apply step_emit; solve [auto] ].

Lemma step_construct : preserves (step P) (construct env).
Proof.
  intros [self w]. unfold construct, call; cbn.
  destruct (env (trace w) (Construct (next_conn w))); cbn; apply step_world;
    eexists; (split; [reflexivity|]); cbn; rewrite P_construct; reflexivity.
Qed.

Lemma step_create_connection : preserves (step P) (_create_connection env).
Proof.
  unfold _create_connection, log.
  apply step_try_except.
  - apply step_bind; [apply step_construct | intros c]. step_tac.
  - step_tac.
Qed.

Lemma step_initialize_loop iterations :
  preserves (step P) (initialize_loop env iterations).
Proof.
  induction iterations as [|i rest IH]; cbn [initialize_loop]; [apply step_ret|].
  apply step_bind; [|intros _; exact IH].
  apply step_try_except.
  - apply step_bind; [apply step_create_connection | intros c].
    apply step_bind; [|intros _; apply step_put].
    intros [self w]. cbn. constructor; cbn; auto.
    + exists []. now rewrite app_nil_r.
    + intros _. left. destruct (_pool self); discriminate.
  - unfold log. step_tac.
Qed.

Lemma step_close_quietly c : preserves (step P) (close_quietly env c).
Proof. unfold close_quietly. step_tac. Qed.

Lemma step_get_with_timeout fl : preserves (step P) (get_with_timeout fl).
Proof.
  unfold get_with_timeout. apply step_bind; [step_tac | intros _].
  apply step_dequeue.
Qed.

Lemma step_retry_loop {A} fl mr delay (op : operation A) c attempts last :
  preserves (step P) (lift (retry_loop fl env mr delay op c attempts last)).
Proof.
  intros [self w]. unfold lift; cbn.
  destruct (retry_loop fl env mr delay op c attempts last w) as [r w'] eqn:E. cbn.
  apply step_world. revert last w r w' E.
  induction attempts as [|a rest IH]; intros last w r w' E.
  - cbn in E. inversion E; subst. exists []. now rewrite app_nil_r.
  - cbn [retry_loop] in E. unfold try_except, invoke, except_Exception in E.
    assert (Hop : forallb P [(Operation c, @None failure)] = true)
      by (cbn; rewrite P_operation; reflexivity).
    destruct (op a c) as [v|e|].
    + inversion E; subst. eexists; split; [reflexivity | exact Hop].
    + destruct (is_Exception e).
      * unfold bind at 1 in E.
        destruct (Z.of_nat a <? mr)%Z.
        -- unfold eval, log, emit, bind in E. cbn [fst snd] in E.
           destruct (backoff delay a) as [d|e'|].
           ++ match type of E with context [sleep fl env d ?w1] =>
                destruct (sleep_cases fl env d w1) as (r0 & x & Hs); rewrite Hs in E end.
              unfold record_entry in E. cbn [trace next_conn] in E.
              destruct r0 as [[]|e'|].
              ** apply IH in E. destruct E as (d' & Hd & HP).
                 cbn in Hd. rewrite Hd. rewrite <- !app_assoc. eexists; split; [reflexivity|].
                 cbn. rewrite P_operation, P_warning, P_sleep. exact HP.
              ** inversion E; subst. cbn. rewrite <- !app_assoc.
                 eexists; split; [reflexivity|].
                 cbn. rewrite P_operation, P_warning, P_sleep. reflexivity.
              ** inversion E; subst. cbn. rewrite <- !app_assoc.
                 eexists; split; [reflexivity|].
                 cbn. rewrite P_operation, P_warning, P_sleep. reflexivity.
           ++ inversion E; subst. eexists; split; [reflexivity | exact Hop].
           ++ inversion E; subst. eexists; split; [reflexivity | exact Hop].
        -- unfold log, emit in E. cbn in E. apply IH in E. destruct E as (d & Hd & HP).
           cbn in Hd. rewrite Hd. rewrite <- !app_assoc. eexists; split; [reflexivity|].
           cbn. rewrite P_operation, P_error. exact HP.
      * inversion E; subst. eexists; split; [reflexivity | exact Hop].
    + inversion E; subst. eexists; split; [reflexivity | exact Hop].
Qed.

Ltac step_methods :=
  repeat first
    [ apply step_create_connection
    | apply step_close_quietly
    | apply step_get_with_timeout
    | apply step_bind; [ | intros ?]
    | apply step_try_except
    | apply preserves_except_Exception; intros ?
    | apply preserves_if
    | apply step_ret
    | apply step_raise
    | apply step_get_self
    | apply step_put
    | apply step_call; intros ?; solve [auto]
    | apply step_emit; solve [auto] ].

Lemma step_acquire_handler fl e (h : M (Pool * world) conn) :
  (if is_timeout fl e
   then Some (raise (ConnectionError "Timeout waiting for available connection" None))
   else if is_Exception e
   then Some (raise (ConnectionError "Failed to acquire connection" (Some e)))
   else None) = Some h ->
  preserves (step P) h.
Proof.
  destruct (is_timeout fl e); [|destruct (is_Exception e)];
    intros E; inversion E; subst; apply step_raise.
Qed.

Lemma step_acquire_wait fl : preserves (step P) (acquire_wait fl env).
Proof.
  unfold acquire_wait.
  apply step_try_except; [|apply step_acquire_handler].
  unfold log. step_methods.
Qed.

(** [acquire] on a pool that needs no initialization. *)
Lemma step_acquire_settled fl (self : Pool) (w : world) :
  settled self -> step P (self, w) (snd (acquire fl env (self, w))).
Proof.
  intros Hsettled. unfold acquire, bind at 1, get_self at 1. cbn -[acquire_wait].
  destruct (_closed self) eqn:Hclosed; [apply step_refl|].
  destruct Hsettled as [Hpool | Hc]; [|congruence].
  destruct (_pool self) as [|c0 p] eqn:Hp; [congruence|]. cbn -[acquire_wait].
  apply step_acquire_wait.
Qed.

Hypothesis P_init : P (Log INFO "Initializing connection pool", None) = true.

Lemma step_initialize_pool : preserves (step P) (_initialize_pool env).
Proof.
  intros [self w]. unfold _initialize_pool, bind at 1, get_self at 1. cbn.
  destruct (negb (is_empty (_pool self))); [apply step_refl|].
  match goal with |- step _ ?s (snd (?m ?s)) =>
    cut (preserves (step P) m); [intros Hm; apply Hm|] end.
  apply step_bind; [unfold log; apply step_emit; exact P_init | intros _].
  apply step_initialize_loop.
Qed.

Lemma step_acquire fl : preserves (step P) (acquire fl env).
Proof.
  intros [self w]. unfold acquire, bind at 1, get_self at 1. cbn -[acquire_wait].
  destruct (_closed self) eqn:Hclosed; [apply step_refl|].
  match goal with |- step _ ?s (snd (?m ?s)) =>
    cut (preserves (step P) m); [intros Hm; apply Hm|] end.
  apply step_bind; [apply preserves_if; [apply step_initialize_pool | apply step_ret] | intros _].
  apply step_acquire_wait.
Qed.

Lemma step_release c (self : Pool) (w : world) :
  step P (self, record_entry (Enter_release c, None) w) (snd (release env c (self, w))).
Proof.
  unfold release. rewrite bind_emit.
  match goal with |- step _ ?s (snd (?m ?s)) =>
    cut (preserves (step P) m); [intros Hm; apply Hm|] end.
  unfold log. step_methods.
Qed.
End Steps.

(** ** ConnectionPool *)

Section Pool.
Variable env : oracle.

Ltac run :=
  unfold _create_connection, construct, try_except, except_Exception, bind, get_self,
    set_self, lift, call, emit, log, ret, raise, record_entry; cbn.

Lemma create_connection_cases (self : Pool) (w : world) :
  exists delta,
    snd (_create_connection env (self, w))
      = (self, {| trace := trace w ++ delta; next_conn := S (next_conn w) |})
    /\ gets delta = [] /\ closes delta = [] /\ releases delta = []
    /\ constructs delta = [next_conn w]
    /\ initializations delta = 0
    /\ ((created delta = [next_conn w]
         /\ fst (_create_connection env (self, w)) = Return (next_conn w))
        \/ (created delta = []
            /\ exists tag,
                 fst (_create_connection env (self, w))
                 = Raise (ConnectionError "Failed to create connection" (Some (Failure tag))))).
Proof.
  run.
  destruct (env (trace w) (Construct (next_conn w))) as [t1|] eqn:E1; cbn.
  - eexists. split; [rewrite <- !app_assoc; reflexivity|]. cbn.
    repeat split. right. split; eauto.
  - destruct (is_empty (_auth_params self)); cbn.
    + match goal with |- context [env ?t (Use ?c)] => destruct (env t (Use c)) as [t2|] eqn:E2 end; cbn.
      * eexists. split; [rewrite <- !app_assoc; reflexivity|]. cbn.
        repeat split. right. split; eauto.
      * eexists. split; [rewrite <- !app_assoc; reflexivity|]. cbn.
        repeat split. left. split; eauto.
    + match goal with |- context [env ?t (Signin ?c)] => destruct (env t (Signin c)) as [t2|] eqn:E2 end; cbn.
      * eexists. split; [rewrite <- !app_assoc; reflexivity|]. cbn.
        repeat split. right. split; eauto.
      * match goal with |- context [env ?t (Use ?c)] => destruct (env t (Use c)) as [t3|] eqn:E3 end; cbn.
        -- eexists. split; [rewrite <- !app_assoc; reflexivity|]. cbn.
           repeat split. right. split; eauto.
        -- eexists. split; [rewrite <- !app_assoc; reflexivity|]. cbn.
           repeat split. left. split; eauto.
Qed.

(** [acquire] on an open pool: the initialization, if the pool holds no
    connection, then the wait. *)
Lemma acquire_open fl (self : Pool) (w : world) :
  _closed self = false ->
  acquire fl env (self, w)
  = match (if is_empty (_pool self) then _initialize_pool env (self, w)
           else (Return tt, (self, w))) with
    | (Return _, s0) => acquire_wait fl env s0
    | (Raise e, s0) => (Raise e, s0)
    | (Blocked, s0) => (Blocked, s0)
    end.
Proof.
  intros Hopen. unfold acquire, bind, get_self. cbn beta iota. cbn [fst].
  rewrite Hopen. destruct (is_empty (_pool self)); reflexivity.
Qed.

(** The wait, by cases on the queue, on the probe and on the creation
    of the replacement. *)
Lemma acquire_wait_cases (fl : flavour) (self0 : Pool) (w0 : world) :
  let waited := record_entry (Get (Some acquire_timeout), None) w0 in
  match _available self0 with
  | [] =>
      acquire_wait fl env (self0, w0)
      = (Raise (ConnectionError "Timeout waiting for available connection" None),
         (self0, waited))
  | c :: q =>
      let rest := set_available q self0 in
      match env (trace waited) (Version c) with
      | None =>
          acquire_wait fl env (self0, w0)
          = (Return c, (rest, record_entry (Version c, None) waited))
      | Some tag =>
          let warned :=
            record_entry
              (Log WARNING "Connection validation failed, creating new one", None)
              (record_entry (Version c, Some tag) waited) in
          exists delta,
            snd (acquire_wait fl env (self0, w0))
            = (rest, {| trace := trace warned ++ delta;
                        next_conn := S (next_conn warned) |})
            /\ gets delta = [] /\ closes delta = [] /\ releases delta = []
            /\ constructs delta = [next_conn warned]
            /\ ((created delta = [next_conn warned]
                 /\ fst (acquire_wait fl env (self0, w0)) = Return (next_conn warned))
                \/ (created delta = []
                    /\ exists tag',
                         fst (acquire_wait fl env (self0, w0))
                         = Raise (ConnectionError "Failed to acquire connection"
                                    (Some (ConnectionError "Failed to create connection"
                                             (Some (Failure tag')))))))
      end
  end.
Proof.
  intros waited. subst waited.
  set (result := acquire_wait fl env (self0, w0)).
  destruct (_available self0) as [|c q] eqn:Hq.
  - subst result.
    unfold acquire_wait, try_except, bind, get_with_timeout, lift, emit; cbn. rewrite Hq.
    destruct fl; reflexivity.
  - cbn zeta.
    destruct (env (trace (record_entry (Get (Some acquire_timeout), None) w0)) (Version c))
      as [tag|] eqn:Hv; cbn in Hv.
    + cbn zeta.
      match goal with |- context [trace ?x ++ _] => set (warned := x) end.
      destruct (create_connection_cases (set_available q self0) warned)
        as (delta & Hsnd & Hg & Hc & Hr & Hk & _ & Hres).
      exists delta.
      destruct (_create_connection env (set_available q self0, warned)) as [r s'] eqn:Hcr.
      cbn in Hsnd, Hres. subst s'.
      assert (Hresult :
                result
                = (match r with
                   | Raise e => Raise (ConnectionError "Failed to acquire connection" (Some e))
                   | _ => r
                   end,
                   (set_available q self0,
                    {| trace := trace warned ++ delta; next_conn := S (next_conn warned) |}))).
      { subst result.
        unfold acquire_wait, try_except, bind, get_with_timeout, lift, emit, call, log,
          except_Exception, ret, raise.
        cbn. rewrite Hq. cbn. rewrite Hv. cbn.
        subst warned. cbn in Hcr |- *. rewrite Hcr.
        destruct Hres as [[_ ->] | [_ (tag' & ->)]]; destruct fl; reflexivity. }
      rewrite Hresult.
      destruct Hres as [[Hcreated ->] | [Hcreated (tag' & ->)]]; cbn;
        (split; [reflexivity|]); repeat (split; [assumption|]);
        solve [left; eauto | right; eauto].
    + subst result.
      unfold acquire_wait, try_except, bind, get_with_timeout, lift, emit, call, ret; cbn.
      rewrite Hq. cbn. rewrite Hv. reflexivity.
Qed.

Lemma not_full (self : Pool) (n : nat) :
  ((0 < _pool_size self)%Z ->
   (Z.of_nat (List.length (_available self) + S n) <= _pool_size self)%Z) ->
  full self = false.
Proof.
  intros H. unfold full. destruct (0 <? _pool_size self)%Z eqn:Hpos; cbn; auto.
  apply Z.ltb_lt in Hpos. apply Z.leb_gt. specialize (H Hpos). lia.
Qed.

Lemma initialize_loop_spec :
  forall iterations self w,
    ((0 < _pool_size self)%Z ->
     (Z.of_nat (List.length (_available self) + List.length iterations)
      <= _pool_size self)%Z) ->
    exists delta self',
      initialize_loop env iterations (self, w)
      = (Return tt,
         (self', {| trace := trace w ++ delta;
                    next_conn := next_conn w + List.length iterations |}))
      /\ _pool self' = _pool self ++ created delta
      /\ _available self' = _available self ++ created delta
      /\ _pool_size self' = _pool_size self
      /\ _closed self' = _closed self
      /\ List.length (constructs delta) = List.length iterations
      /\ initializations delta = 0.
Proof.
  induction iterations as [|i rest IH]; intros self w Hcap.
  - exists [], self. cbn. rewrite !app_nil_r, Nat.add_0_r. destruct w. repeat split.
  - cbn [initialize_loop]. unfold bind at 1, try_except at 1, bind at 1.
    destruct (create_connection_cases self w)
      as (d & Hsnd & _ & _ & _ & Hk & Hi & Hres).
    destruct (_create_connection env (self, w)) as [r s1] eqn:Hcr.
    cbn in Hsnd, Hres. subst s1.
    destruct Hres as [[Hcreated ->] | [Hcreated (tag & ->)]].
    + (* the connection was created: it joins the list and the queue *)
      unfold set_self, bind, put. cbn.
      replace (full (set_pool (_pool self ++ [next_conn w]) self)) with false
        by (symmetry; apply (@not_full _ (List.length rest)); exact Hcap).
      cbn.
      match goal with |- context [initialize_loop env rest (?s, ?w')] =>
        destruct (IH s w') as (d' & self' & Hrun & Hp & Ha & Hs & Hc & Hk' & Hi') end.
      { cbn. rewrite length_app. cbn.
        intros Hpos. specialize (Hcap Hpos). cbn in Hcap. lia. }
      rewrite Hrun. cbn in Hp, Ha, Hs, Hc |- *.
      exists (d ++ d'), self'. repeat split; auto.
      * rewrite app_assoc. repeat f_equal. lia.
      * rewrite Hp, created_app, Hcreated, <- app_assoc. reflexivity.
      * rewrite Ha, created_app, Hcreated, <- app_assoc. reflexivity.
      * rewrite constructs_app, length_app, Hk, Hk'. reflexivity.
      * rewrite initializations_app, Hi, Hi'. reflexivity.
    + (* the creation failed: logged, and the loop goes on *)
      unfold except_Exception. cbn. unfold lift, log, emit. cbn.
      match goal with |- context [initialize_loop env rest (?s, ?w')] =>
        destruct (IH s w') as (d' & self' & Hrun & Hp & Ha & Hs & Hc & Hk' & Hi') end.
      { intros Hpos. specialize (Hcap Hpos). cbn in Hcap. lia. }
      rewrite Hrun. cbn.
      exists (d ++ (Log ERROR "Failed to initialize connection", None) :: d'), self'.
      repeat split; auto.
      * rewrite <- !app_assoc. cbn. repeat f_equal. lia.
      * rewrite Hp, created_app, Hcreated. reflexivity.
      * rewrite Ha, created_app, Hcreated. reflexivity.
      * rewrite constructs_app, length_app, Hk.
        change (constructs ((Log ERROR "Failed to initialize connection"%string, None) :: d'))
          with (constructs d').
        rewrite Hk'. reflexivity.
      * rewrite initializations_app, Hi. exact Hi'.
Qed.

(** *** Drain *)

Lemma drain_spec fl :
  forall q fuel self w,
    _available self = q ->
    List.length q < fuel ->
    exists delta rest,
      drain fl env fuel (self, w)
      = (Return tt,
         (set_available rest self,
          {| trace := trace w ++ delta; next_conn := next_conn w |}))
      /\ closes delta ++ rest = q
      /\ forallb quiet delta = true
      /\ forallb closing_entry delta = true
      /\ (drains_through fl env ->
          rest = [] /\ List.length (failed_closes delta) = close_warnings delta).
Proof.
  induction q as [|c q IH]; intros fuel self w Hq Hfuel.
  - destruct fuel as [|fuel]; [cbn in Hfuel; lia|].
    cbn [drain]. unfold bind, get_self. cbn. rewrite Hq. cbn.
    exists [], []. rewrite app_nil_r. destruct w, self. cbn in Hq. subst.
    split; [reflexivity|]. split; [reflexivity|]. split; [reflexivity|].
    split; [reflexivity|]. intros _. split; reflexivity.
  - destruct fuel as [|fuel]; [cbn in Hfuel; lia|].
    cbn [drain]. unfold bind at 1, get_self at 1. cbn. rewrite Hq. cbn.
    unfold bind at 1, try_except at 1, bind at 1, get_for_close, bind at 1, lift at 1, emit.
    cbn. rewrite Hq.
    unfold bind at 1, lift at 1, call. cbn.
    match goal with |- context [env ?t (Close c)] =>
      destruct (env t (Close c)) as [f|] eqn:Hclose end.
    + destruct (match fl, f with Sync, QueueEmpty => true | _, _ => false end) eqn:Hcut.
      * (* the blocking pool, [close()] raised [queue.Empty]: break *)
        destruct fl; [discriminate|]. destruct f; try discriminate.
        unfold ret. cbn.
        exists [(Get None, None); (Close c, Some QueueEmpty)], q.
        split; [rewrite <- app_assoc; reflexivity|].
        split; [reflexivity|]. split; [reflexivity|]. split; [reflexivity|].
        intros Hthrough. exfalso. exact (Hthrough eq_refl _ _ Hclose).
      * assert (Hh : forall (k1 : M (Pool * world) bool) k2,
                   match fl, Failure f with
                   | Sync, Empty => Some k1
                   | _, _ => if is_Exception (Failure f) then Some k2 else None
                   end = Some k2)
          by (intros; destruct fl, f; try reflexivity; discriminate).
        rewrite (Hh (ret false)). unfold bind at 1, lift, log, emit, ret. cbn.
        match goal with |- context [drain fl env fuel (?s, ?w')] =>
          destruct (IH fuel s w') as (d & rest & Hrun & Hc & Hquiet & Hclosing & Hthrough) end;
          [reflexivity | cbn in Hfuel; lia |].
        rewrite Hrun. cbn.
        exists ([(Get None, None); (Close c, Some f);
                 (Log WARNING "Error closing connection"%string, None)] ++ d), rest.
        split; [rewrite <- !app_assoc; reflexivity|].
        split; [rewrite closes_app, <- Hc; reflexivity|].
        split; [rewrite forallb_app; apply andb_true_intro; split;
                  [reflexivity | exact Hquiet]|].
        split; [rewrite forallb_app; apply andb_true_intro; split;
                  [reflexivity | exact Hclosing]|].
        intros Ht. destruct (Hthrough Ht) as [Hrest Hf]. split; [exact Hrest|].
        unfold failed_closes, close_warnings in *. cbn. rewrite Hf. reflexivity.
    + unfold ret. cbn.
      match goal with |- context [drain fl env fuel (?s, ?w')] =>
        destruct (IH fuel s w') as (d & rest & Hrun & Hc & Hquiet & Hclosing & Hthrough) end;
        [reflexivity | cbn in Hfuel; lia |].
      rewrite Hrun. cbn.
      exists ([(Get None, None); (Close c, None)] ++ d), rest.
      split; [rewrite <- !app_assoc; reflexivity|].
      split; [rewrite closes_app, <- Hc; reflexivity|].
      split; [rewrite forallb_app; apply andb_true_intro; split;
                [reflexivity | exact Hquiet]|].
      split; [rewrite forallb_app; apply andb_true_intro; split;
                [reflexivity | exact Hclosing]|].
      intros Ht. destruct (Hthrough Ht) as [Hrest Hf]. split; [exact Hrest|].
      unfold failed_closes, close_warnings in *. cbn. rewrite Hf. reflexivity.
Qed.

(** [close_all] on a pool: the queue is drained to its end, or, in the
    blocking pool, up to a connection whose [close()] raised [queue.Empty]. *)
Lemma close_all_cases fl (self : Pool) (w : world) :
  exists delta rest,
    close_all fl env (self, w)
    = (Return tt,
       (set_pool [] (set_available rest (set_closed true self)),
        {| trace := trace w ++ delta ++ [(Log INFO "Connection pool closed"%string, None)];
           next_conn := next_conn w |}))
    /\ closes delta ++ rest = _available self
    /\ forallb quiet delta = true
    /\ forallb closing_entry delta = true
    /\ (drains_through fl env ->
        rest = [] /\ List.length (failed_closes delta) = close_warnings delta).
Proof.
  destruct (@drain_spec fl (_available self) (S (List.length (_available self)))
              (set_closed true self) w eq_refl (Nat.lt_succ_diag_r _))
    as (delta & rest & Hrun & Hc & Hq & Hk & Hthrough).
  exists delta, rest. split; [|split; [exact Hc | split; [exact Hq | split; [exact Hk | exact Hthrough]]]].
  unfold close_all, bind, set_self, get_self. cbn -[drain]. rewrite Hrun. cbn.
  unfold lift, log, emit. cbn. rewrite <- app_assoc. reflexivity.
Qed.

(** *** Instances of the step lemmas *)

Lemma forallb_quiet_releases d : forallb quiet d = true -> releases d = [].
Proof.
  induction d as [|[ev r] d IH]; cbn; auto.
  intros H. apply andb_true_iff in H. destruct H as [H1 H2].
  destruct ev; cbn in *; auto; discriminate.
Qed.

Lemma forallb_no_release_releases d : forallb no_release d = true -> releases d = [].
Proof.
  induction d as [|[ev r] d IH]; cbn; auto.
  intros H. apply andb_true_iff in H. destruct H as [H1 H2].
  destruct ev; cbn in *; auto; discriminate.
Qed.

Lemma forallb_quiet_initializations d : forallb quiet d = true -> initializations d = 0.
Proof.
  unfold initializations.
  induction d as [|[ev r] d IH]; cbn; auto.
  intros H. apply andb_true_iff in H. destruct H as [H1 H2].
  destruct ev; cbn in *; auto.
  destruct l; cbn in *; auto.
  destruct (String.eqb msg "Initializing connection pool"); cbn in *; auto; discriminate.
Qed.

Lemma acquire_no_release fl (s : Pool * world) :
  step no_release s (snd (acquire fl env s)).
Proof. apply step_acquire; intros; reflexivity. Qed.

Lemma acquire_settled fl (self : Pool) (w : world) :
  settled self -> step quiet (self, w) (snd (acquire fl env (self, w))).
Proof. apply step_acquire_settled; intros; reflexivity. Qed.

Lemma release_quiet c (self : Pool) (w : world) :
  step quiet (self, record_entry (Enter_release c, None) w) (snd (release env c (self, w))).
Proof. apply step_release; intros; reflexivity. Qed.

Lemma initialize_pool_no_release (s : Pool * world) :
  step no_release s (snd (_initialize_pool env s)).
Proof. apply step_initialize_pool; intros; reflexivity. Qed.

Lemma close_all_quiet fl (self : Pool) (w : world) :
  step quiet (self, w) (snd (close_all fl env (self, w))).
Proof.
  destruct (close_all_cases fl self w) as (delta & rest & Hrun & Hc & Hq & _).
  rewrite Hrun. constructor; cbn; auto.
  - eexists. split; [reflexivity|].
    rewrite forallb_app. apply andb_true_intro; split; [exact Hq | reflexivity].
  - unfold capacity_ok. cbn. rewrite <- Hc, length_app. lia.
  - intros _. right. reflexivity.
Qed.

(** *** [release] always returns when the queue has a free slot *)

Lemma release_returns c (self : Pool) (w : world) :
  full self = false -> fst (release env c (self, w)) = Return tt.
Proof.
  intros Hroom. unfold release. rewrite bind_emit.
  unfold bind at 1, get_self at 1. cbn [fst snd].
  destruct (_closed self) eqn:Hclosed.
  - unfold close_quietly, try_except, lift, call, except_Exception. cbn.
    match goal with |- context [env ?t (Close c)] => destruct (env t (Close c)) end;
      reflexivity.
  - unfold try_except at 1, bind at 1, lift at 1, call. cbn.
    match goal with |- context [env ?t (Version c)] => destruct (env t (Version c)) end; cbn.
    + unfold except_Exception. cbn.
      unfold bind at 1, lift at 1, log, emit. cbn.
      unfold bind at 1, close_quietly, try_except at 1, lift at 1, call, except_Exception. cbn.
      assert (Hrepl : forall w',
                fst (try_except
                       (self0 <- get_self ;;
                        (if (Z.of_nat (List.length (_available self0)) <? _pool_size self0)%Z
                         then new_connection <- _create_connection env ;; put new_connection
                         else ret tt))
                       (fun e : exn =>
                          if is_Exception e
                          then Some (lift (emit (Log ERROR "Failed to create replacement connection")))
                          else None) (self, w')) = Return tt).
      { intros w'. unfold try_except, bind at 1, get_self. cbn.
        destruct (Z.of_nat (List.length (_available self)) <? _pool_size self)%Z eqn:Hlt;
          [|reflexivity].
        unfold bind.
        destruct (create_connection_cases self w') as (d & Hsnd & _ & _ & _ & _ & _ & Hres).
        destruct (_create_connection env (self, w')) as [r s1]. cbn in Hsnd, Hres. subst s1.
        destruct Hres as [[_ ->] | [_ (tag & ->)]]; cbn.
        - unfold put. cbn. rewrite Hroom. reflexivity.
        - reflexivity. }
      match goal with |- context [env ?t (Close c)] => destruct (env t (Close c)) end;
        cbn; apply Hrepl.
    + unfold put. cbn. rewrite Hroom. reflexivity.
Qed.

Lemma full_after_get (self : Pool) c q :
  capacity_ok self -> _available self = c :: q -> full (set_available q self) = false.
Proof.
  intros Hcap Hq. unfold full. cbn.
  destruct (0 <? _pool_size self)%Z eqn:Hpos; cbn; auto.
  apply Z.ltb_lt in Hpos. apply Z.leb_gt.
  specialize (Hcap Hpos). rewrite Hq in Hcap. cbn in Hcap. lia.
Qed.

Lemma acquire_returns_room fl (self : Pool) (w : world) c s1 :
  capacity_ok self ->
  acquire fl env (self, w) = (Return c, s1) ->
  full (fst s1) = false.
Proof.
  intros Hcap Hacq.
  destruct (_closed self) eqn:Hc.
  - revert Hacq. unfold acquire, bind, get_self. cbn. rewrite Hc. discriminate.
  - rewrite (@acquire_open fl self w Hc) in Hacq.
    assert (Hcap0 : capacity_ok
                      (fst (snd (if is_empty (_pool self) then _initialize_pool env (self, w)
                                 else (Return tt, (self, w)))))).
    { destruct (is_empty (_pool self)).
      - destruct (initialize_pool_no_release (self, w)) as [_ _ Hcap' _ _]. auto.
      - exact Hcap. }
    destruct (if is_empty (_pool self) then _initialize_pool env (self, w)
              else (Return tt, (self, w))) as [[[]|e|] [self0 w0]]; try discriminate.
    cbn in Hcap0.
    pose proof (acquire_wait_cases fl self0 w0) as Hcases. cbn zeta in Hcases.
    destruct (_available self0) as [|c0 q] eqn:Hq.
    + rewrite Hcases in Hacq. discriminate.
    + match type of Hcases with match ?x with _ => _ end => destruct x end.
      * destruct Hcases as (delta & Hsnd & _).
        rewrite Hacq in Hsnd. cbn in Hsnd. subst s1. cbn [fst].
        eapply full_after_get; eauto.
      * rewrite Hcases in Hacq. inversion Hacq; subst. cbn [fst].
        eapply full_after_get; eauto.
Qed.

Lemma pool_retry_step {A} fl (op : operation A) c (s : Pool * world) :
  step no_release s (snd (pool_execute_with_retry fl env op c s))
  /\ fst (snd (pool_execute_with_retry fl env op c s)) = fst s.
Proof.
  unfold pool_execute_with_retry, bind, get_self, _execute_with_retry. cbn. split.
  - match goal with |- context [lift ?m] =>
      pose proof (@step_retry_loop no_release) as H end.
    destruct s as [self w].
    apply (H env (fun _ _ => eq_refl) (fun _ _ => eq_refl) (fun _ _ => eq_refl)
             (fun _ _ => eq_refl)
             A fl (_max_retries self) (_retry_delay self) op c _ None (self, w)).
  - unfold lift. destruct (retry_loop _ _ _ _ _ _ _ _ _). reflexivity.
Qed.

(** C6.  [execute_with_connection(operation)] on a pool whose queue is
    within its capacity.  When [acquire] hands out connection [c], the retry
    executor runs on [c], and however it ends (the operation succeeded,
    the operation raised past the executor, or the retries were exhausted
    and [ConnectionError] was raised) [release(c)] is entered exactly once,
    with [c], returns, and the caller gets the very result or failure [r] of
    the executor.  When [acquire] fails, its failure is propagated and
    nothing is released.  (An operation that never returns is the one
    case without an exit path.) *)
Theorem execute_with_connection_releases {A} fl (op : operation A)
    (self : Pool) (w : world) :
  capacity_ok self ->
  match acquire fl env (self, w) with
  | (Return c, s1) =>
      match pool_execute_with_retry fl env op c s1 with
      | (Blocked, s2) =>
          execute_with_connection fl env op (self, w) = (Blocked, s2)
      | (r, s2) =>
          exists s3 delta,
            execute_with_connection fl env op (self, w) = (r, s3)
            /\ release env c s2 = (Return tt, s3)
            /\ trace (snd s3) = trace w ++ delta
            /\ releases delta = [c]
      end
  | (Raise e, s1) => execute_with_connection fl env op (self, w) = (Raise e, s1)
  | (Blocked, s1) => execute_with_connection fl env op (self, w) = (Blocked, s1)
  end.
Proof.
  intros Hcap.
  destruct (acquire fl env (self, w)) as [[c|e|] s1] eqn:Hacq;
    unfold execute_with_connection, with_connection, bind; rewrite Hacq; try reflexivity.
  pose proof (@acquire_returns_room fl self w c s1 Hcap Hacq) as Hroom.
  pose proof (acquire_no_release fl (self, w)) as Hs1. rewrite Hacq in Hs1. cbn in Hs1.
  destruct (pool_retry_step fl op c s1) as [Hs2 Hf2].
  unfold try_finally.
  destruct (pool_execute_with_retry fl env op c s1) as [r s2] eqn:Hretry. cbn in Hs2, Hf2.
  assert (Hrel : exists s3 delta,
             release env c s2 = (Return tt, s3)
             /\ trace (snd s3) = trace w ++ delta /\ releases delta = [c]).
  { destruct s2 as [self2 w2]. cbn in Hf2. subst self2.
    pose proof (@release_returns c (fst s1) w2 Hroom) as Hret.
    pose proof (release_quiet c (fst s1) w2) as Hs3.
    destruct (release env c (fst s1, w2)) as [r3 s3]. cbn in Hret, Hs3. subst r3.
    destruct (step_trace Hs1) as (d1 & Ht1 & Hq1).
    destruct (step_trace Hs2) as (d2 & Ht2 & Hq2).
    destruct (step_trace Hs3) as (d3 & Ht3 & Hq3).
    cbn in Ht1, Ht2, Ht3.
    exists s3, (d1 ++ d2 ++ (Enter_release c, None) :: d3).
    split; [reflexivity|]. split.
    - rewrite Ht3, Ht2, Ht1, <- !app_assoc. reflexivity.
    - rewrite !releases_app.
      rewrite (@forallb_no_release_releases d1 Hq1), (@forallb_no_release_releases d2 Hq2).
      change (releases ((Enter_release c, None) :: d3)) with (c :: releases d3).
      rewrite (@forallb_quiet_releases d3 Hq3). reflexivity. }
  destruct Hrel as (s3 & delta & Hrel & Ht & Hr).
  destruct r as [v|e|]; [| |reflexivity];
    exists s3, delta; rewrite Hrel; auto.
Qed.

(** *** Initialization *)

Lemma initialize_pool_skips (self : Pool) (w : world) :
  _pool self <> [] -> _initialize_pool env (self, w) = (Return tt, (self, w)).
Proof.
  intros Hp. unfold _initialize_pool, bind, get_self. cbn.
  destruct (_pool self); [congruence | reflexivity].
Qed.

Lemma initialize_pool_fresh (self : Pool) (w : world) :
  _pool self = [] -> _available self = [] ->
  exists delta self',
    _initialize_pool env (self, w)
    = (Return tt,
       (self', {| trace := trace w ++ delta;
                  next_conn := next_conn w + Z.to_nat (_pool_size self) |}))
    /\ initializations delta = 1
    /\ List.length (constructs delta) = Z.to_nat (_pool_size self)
    /\ _available self' = created delta
    /\ _pool self' = created delta
    /\ available_connections self' = Z.of_nat (List.length (created delta))
    /\ pool_size self' = pool_size self
    /\ is_closed self' = is_closed self.
Proof.
  intros Hp Ha. unfold _initialize_pool, bind at 1, get_self at 1. cbn.
  rewrite Hp. cbn. unfold bind, lift, log, emit. cbn.
  match goal with |- context [initialize_loop env ?l (?s, ?w')] =>
    destruct (@initialize_loop_spec l s w') as (d & self' & Hrun & Hp' & Ha' & Hs & Hc & Hk & Hi) end.
  { rewrite Ha. unfold range. rewrite length_seq. cbn. lia. }
  rewrite Hrun. unfold range in *. rewrite length_seq in *. cbn in *.
  rewrite Hp in Hp'. rewrite Ha in Ha'. cbn in Hp', Ha'.
  exists ((Log INFO "Initializing connection pool"%string, None) :: d), self'.
  repeat split.
  - rewrite <- app_assoc. reflexivity.
  - change (initializations ((Log INFO "Initializing connection pool"%string, None) :: d))
      with (S (initializations d)). rewrite Hi. reflexivity.
  - exact Hk.
  - exact Ha'.
  - exact Hp'.
  - unfold available_connections. rewrite Ha'. reflexivity.
  - exact Hs.
  - exact Hc.
Qed.

Lemma run_call_settled fl call (s : Pool * world) :
  settled (fst s) ->
  settled (fst (run_call fl env call s))
  /\ exists delta,
       trace (snd (run_call fl env call s)) = trace (snd s) ++ delta
       /\ initializations delta = 0.
Proof.
  intros Hsettled. destruct s as [self w]. cbn in Hsettled.
  destruct call as [|c|]; cbn [run_call].
  - destruct (acquire_settled fl w Hsettled) as [(d & Ht & Hq) _ _ _ Hi].
    split; [apply Hi; exact Hsettled|].
    exists d. split; [exact Ht | apply forallb_quiet_initializations; exact Hq].
  - destruct (release_quiet c self w) as [(d & Ht & Hq) _ _ _ Hi].
    split; [apply Hi; exact Hsettled|].
    exists ((Enter_release c, None) :: d). split.
    + rewrite Ht. cbn. rewrite <- app_assoc. reflexivity.
    + change (initializations ((Enter_release c, None) :: d)) with (initializations d).
      apply forallb_quiet_initializations; exact Hq.
  - destruct (close_all_quiet fl self w) as [(d & Ht & Hq) _ _ _ Hi].
    split; [apply Hi; exact Hsettled|].
    exists d. split; [exact Ht | apply forallb_quiet_initializations; exact Hq].
Qed.

Lemma run_calls_settled fl calls :
  forall s : Pool * world,
    settled (fst s) ->
    exists delta,
      trace (snd (run_calls fl env calls s)) = trace (snd s) ++ delta
      /\ initializations delta = 0.
Proof.
  induction calls as [|call calls IH]; intros s Hs; cbn.
  - exists []. now rewrite app_nil_r.
  - destruct (@run_call_settled fl call s Hs) as (Hs' & d1 & Ht1 & Hi1).
    destruct (IH _ Hs') as (d2 & Ht2 & Hi2).
    exists (d1 ++ d2). split.
    + unfold run_calls in Ht2. rewrite Ht2, Ht1, app_assoc. reflexivity.
    + rewrite initializations_app, Hi1, Hi2. reflexivity.
Qed.

(** C3 (as amended).  [acquire()] on a pool, in its three situations.
    (i) The pool is closed: [ConnectionError] is raised at once; nothing is
    waited for, nothing is tried again (the state and the trace are
    untouched).  (ii) The pool is open and, once initialized, its queue is
    empty: after the one wait of [acquire_timeout] = 30 seconds,
    [ConnectionError] is raised.  (iii) A connection [c] is dequeued: if its
    probe answers, [c] is returned; if its probe fails, [c] is dropped (it
    is not put back), one replacement is constructed without another get on
    the queue, and either the replacement is returned, or, when its
    creation fails, [ConnectionError] is raised, caused by the creation's
    [ConnectionError]. *)
Theorem acquire_contract (fl : flavour) (self : Pool) (w : world) :
  (_closed self = true ->
     acquire fl env (self, w)
     = (Raise (ConnectionError "Connection pool is closed" None), (self, w)))
  /\
  (_closed self = false ->
   forall s0,
     (if is_empty (_pool self) then _initialize_pool env (self, w)
      else (Return tt, (self, w))) = (Return tt, s0) ->
     let waited := record_entry (Get (Some acquire_timeout), None) (snd s0) in
     match _available (fst s0) with
     | [] =>
         acquire fl env (self, w)
         = (Raise (ConnectionError "Timeout waiting for available connection" None),
            (fst s0, waited))
     | c :: q =>
         let rest := set_available q (fst s0) in
         match env (trace waited) (Version c) with
         | None =>
             acquire fl env (self, w)
             = (Return c, (rest, record_entry (Version c, None) waited))
         | Some tag =>
             let warned :=
               record_entry
                 (Log WARNING "Connection validation failed, creating new one", None)
                 (record_entry (Version c, Some tag) waited) in
             exists delta,
               snd (acquire fl env (self, w))
               = (rest, {| trace := trace warned ++ delta;
                           next_conn := S (next_conn warned) |})
               /\ gets delta = [] /\ releases delta = []
               /\ constructs delta = [next_conn warned]
               /\ ((created delta = [next_conn warned]
                    /\ fst (acquire fl env (self, w)) = Return (next_conn warned))
                   \/ (created delta = []
                       /\ exists tag',
                            fst (acquire fl env (self, w))
                            = Raise (ConnectionError "Failed to acquire connection"
                                       (Some (ConnectionError "Failed to create connection"
                                                (Some (Failure tag')))))))
         end
     end).
Proof.
  split.
  - intros Hclosed. unfold acquire, bind, get_self; cbn. rewrite Hclosed. reflexivity.
  - intros Hopen [self0 w0] Hinit. rewrite (@acquire_open fl self w Hopen), Hinit.
    pose proof (acquire_wait_cases fl self0 w0) as Hwait.
    cbn zeta in Hwait |- *. cbn [fst snd].
    destruct (_available self0) as [|c q]; [exact Hwait|].
    match goal with |- context [env ?t (Version c)] =>
      destruct (env t (Version c)) as [f|] end; [|exact Hwait].
    destruct Hwait as (delta & Hsnd & Hgets & _ & Hrest).
    exists delta. split; [exact Hsnd|]. split; [exact Hgets | exact Hrest].
Qed.

(** C5 (as amended).  Initialization of a pool.  Once the pool holds a
    connection, [_initialize_pool] does nothing (this is what a caller
    finds who waited for the lock while another one initialized), and from
    a pool that holds a connection or is closed no sequence of [acquire],
    [release] and [close_all] starts an initialization again.  On a pool
    that holds none, it tries [pool_size] creations and returns whatever
    their outcome: the connections created are exactly those of the queue
    and of the pool list, in order, so [available_connections] is the
    number of creations that succeeded, while [pool_size] still reports
    the configured size and the pool stays open.  (When every creation
    failed the pool still holds none, and the next [acquire] initializes it
    again.) *)
Theorem initialize_pool_contract (fl : flavour) (self : Pool) (w : world) :
  (_pool self <> [] -> _initialize_pool env (self, w) = (Return tt, (self, w)))
  /\
  (settled self ->
   forall calls, exists delta,
     trace (snd (run_calls fl env calls (self, w))) = trace w ++ delta
     /\ initializations delta = 0)
  /\
  (_pool self = [] -> _available self = [] ->
   exists delta self',
     _initialize_pool env (self, w)
     = (Return tt,
        (self', {| trace := trace w ++ delta;
                   next_conn := next_conn w + Z.to_nat (_pool_size self) |}))
     /\ initializations delta = 1
     /\ List.length (constructs delta) = Z.to_nat (_pool_size self)
     /\ _available self' = created delta
     /\ _pool self' = created delta
     /\ available_connections self' = Z.of_nat (List.length (created delta))
     /\ pool_size self' = pool_size self
     /\ is_closed self' = is_closed self).
Proof.
  split; [apply initialize_pool_skips|]. split.
  - intros Hs calls. exact (@run_calls_settled fl calls (self, w) Hs).
  - apply initialize_pool_fresh.
Qed.

End Pool.

Lemma execute_with_connection_releases_witness :
  capacity_ok warm_pool
  /\ exists s3 delta,
       execute_with_connection Async all_well flaky_operation
         (warm_pool, {| trace := []; next_conn := 2 |})
       = (Return 42, s3)
       /\ trace (snd s3) = delta
       /\ releases delta = [0].
Proof.
  assert (Hcap : capacity_ok warm_pool) by (unfold capacity_ok; cbn; lia).
  split; [exact Hcap|].
  pose proof (@execute_with_connection_releases all_well nat Async flaky_operation
                warm_pool {| trace := []; next_conn := 2 |} Hcap) as H.
  vm_compute in H. destruct H as (s3 & delta & Hrun & _ & Ht & Hr).
  exists s3, delta. vm_compute. repeat split; assumption.
Defined.

(** C3, as stated, fails when the replacement cannot be created: the
    probe of the dequeued connection fails, and [acquire] raises instead of
    returning a replacement. *)
Lemma replacement_creation_can_fail :
  ~ (forall (fl : flavour) (env : oracle) (self : Pool) (w : world) (c : conn) (q : list conn),
       _closed self = false ->
       _pool self <> [] ->
       _available self = c :: q ->
       env (trace w ++ [(Get (Some acquire_timeout), None)]) (Version c) <> None ->
       exists replacement, fst (acquire fl env (self, w)) = Return replacement).
Proof.
  intros H.
  destruct (H Async stale_and_unreachable
              (set_available [0] (set_pool [0] (new_pool 1)))
              {| trace := []; next_conn := 1 |} 0 [])
    as (replacement & Hr); try reflexivity; try discriminate.
Qed.

(** C4 at its failing input: a pool of size 1 whose one connection has
    gone stale.  [acquire] creates connection 0, dequeues it, finds it
    dead and hands out the new connection 1.  Connection 0 is then not in
    the queue, not with the caller, and never closed: not by [acquire], nor
    by the [release] and [close_all] that end the life of the pool. *)
Theorem acquire_drops_stale_connection_unclosed :
  forall fl : flavour,
    let acquired := acquire fl first_connection_stale (new_pool 1, new_world) in
    let ended := run_calls fl first_connection_stale [Release 1; Close_all] (snd acquired) in
    fst acquired = Return 1
    /\ created (trace (snd (snd acquired))) = [0; 1]
    /\ _available (fst (snd acquired)) = []
    /\ closes (trace (snd (snd acquired))) = []
    /\ closes (trace (snd ended)) = [1].
Proof. intros []; vm_compute; repeat split. Qed.

(** C5, as stated, fails when every creation fails: each [acquire] on
    the still empty pool runs the initialization again. *)
Lemma initialization_runs_again :
  ~ (initializations
       (trace (snd (run_calls Async server_down [Acquire; Acquire] (new_pool 2, new_world))))
     <= 1).
Proof. vm_compute. lia. Qed.

(** C7 at its failing input.  In [SyncConnectionPool.close_all] the call
    [connection.close()] stands in the [try] whose clause
    [except Empty: break] is there for [get_nowait()].  On a pool of two
    idle connections, when [close()] of the first raises [queue.Empty] the
    loop is left at once: the failure is not logged, the second connection
    stays in the queue and is never closed, and [close_all] returns with
    the pool marked closed.  [AsyncConnectionPool.close_all], on the same
    pool and with the same collaborators, logs the failure and goes on to
    close the second connection. *)
Theorem sync_close_all_stops_at_queue_empty :
  let blocking := close_all Sync first_close_raises_empty (warm_pool, new_world) in
  let asyncio := close_all Async first_close_raises_empty (warm_pool, new_world) in
  fst blocking = Return tt
  /\ is_closed (fst (snd blocking)) = true
  /\ _available (fst (snd blocking)) = [1]
  /\ trace (snd (snd blocking))
     = [(Get None, None); (Close 0, Some QueueEmpty);
        (Log INFO "Connection pool closed", None)]
  /\ fst asyncio = Return tt
  /\ _available (fst (snd asyncio)) = []
  /\ trace (snd (snd asyncio))
     = [(Get None, None); (Close 0, Some QueueEmpty);
        (Log WARNING "Error closing connection", None);
        (Get None, None); (Close 1, None);
        (Log INFO "Connection pool closed", None)].
Proof. vm_compute. repeat split. Qed.

(** The body of the constructor: for a URL whose scheme is none of http,
    https, ws, wss, [__init__] raises [ValueError]; a URL the parser itself
    rejects raises what the parser raised.  Nothing is created, slept or
    tried again (the world is untouched). *)
Lemma init_rejects_unsupported_scheme
    (Url : string -> outcome UrlScheme) (url namespace database : string)
    (auth_params : list (string * string)) (pool_size max_retries : Z) (retry_delay : Q)
    (w : world) :
  match Url url with
  | Return scheme =>
      is_supported scheme = false ->
      __init__ Url url namespace database auth_params pool_size max_retries retry_delay w
      = (Raise (ValueError ("Unsupported URL scheme: " ++ scheme_text scheme)%string), w)
  | Raise e =>
      __init__ Url url namespace database auth_params pool_size max_retries retry_delay w
      = (Raise e, w)
  | Blocked => True
  end.
Proof.
  unfold __init__, bind, eval.
  destruct (Url url) as [scheme|e|]; auto.
  destruct scheme; cbn; intros H; try discriminate; reflexivity.
Qed.

(** C9 (code bug).  The pool classes are decorated with [@logger.catch],
    so the names [AsyncConnectionPool] and [SyncConnectionPool] are bound
    to the catcher's wrapper.  The [ValueError] that [__init__] raises for
    a URL whose scheme is none of http, https, ws, wss, and the error of a
    URL the parser rejects, do not reach the caller of the constructor:
    the error is logged and the call returns [None].  No error is observed
    at construction time, and there is no pool. *)
Theorem pool_constructor_swallows_error
    (Url : string -> outcome UrlScheme) (url namespace database : string)
    (auth_params : list (string * string)) (pool_size max_retries : Z) (retry_delay : Q)
    (w : world) :
  let logged :=
    record_entry (Log ERROR "An error has been caught in function", None) w in
  match Url url with
  | Return scheme =>
      is_supported scheme = false ->
      ConnectionPool Url url namespace database auth_params pool_size max_retries retry_delay w
      = (Return None, logged)
  | Raise e =>
      is_Exception e = true ->
      ConnectionPool Url url namespace database auth_params pool_size max_retries retry_delay w
      = (Return None, logged)
  | Blocked => True
  end.
Proof.
  intros logged.
  pose proof (init_rejects_unsupported_scheme Url url namespace database auth_params
                pool_size max_retries retry_delay w) as Hinit.
  unfold ConnectionPool, logger_catch, try_except, bind.
  destruct (Url url) as [scheme|e|]; [| |exact I].
  - intros Hscheme. rewrite (Hinit Hscheme). reflexivity.
  - intros Hexc. rewrite Hinit. unfold except_Exception. rewrite Hexc. reflexivity.
Qed.

Example constructor_returns_none_for_mem :
  ConnectionPool example_Url "mem://" "test_ns" "test_db" [] 10 3 (1 # 1) new_world
  = (Return None,
     {| trace := [(Log ERROR "An error has been caught in function", None)];
        next_conn := 0 |}).
Proof. reflexivity. Qed.

Example constructor_returns_none_for_ftp :
  ConnectionPool example_Url "ftp://localhost:8000" "test_ns" "test_db" [] 10 3 (1 # 1)
    new_world
  = (Return None,
     {| trace := [(Log ERROR "An error has been caught in function", None)];
        next_conn := 0 |}).
Proof. reflexivity. Qed.

Example init_rejects_mem :
  __init__ example_Url "mem://" "test_ns" "test_db" [] 10 3 (1 # 1) new_world
  = (Raise (ValueError "Unsupported URL scheme: UrlScheme.MEM"), new_world).
Proof. reflexivity. Qed.

Example init_rejects_ftp :
  __init__ example_Url "ftp://localhost:8000" "test_ns" "test_db" [] 10 3 (1 # 1) new_world
  = (Raise (ValueError "ftp is not a valid UrlScheme"), new_world).
Proof. reflexivity. Qed.

Example constructor_accepts_ws :
  exists self,
    ConnectionPool example_Url "ws://localhost:8000/rpc" "test_ns" "test_db" [] 10 3 (1 # 1)
      new_world
    = (Return (Some self), new_world)
    /\ _connection_class self = WsSurrealConnection.
Proof. eexists. split; reflexivity. Qed.

(** ** Query-translation helpers *)

Local Open Scope string_scope.

Lemma append_empty_r (s : string) : s ++ EmptyString = s.
Proof. induction s as [|c s IH]; cbn; [reflexivity | now rewrite IH]. Qed.

Lemma append_assoc (a b c : string) : (a ++ b) ++ c = a ++ (b ++ c).
Proof. induction a as [|x a IH]; cbn; [reflexivity | now rewrite IH]. Qed.

Lemma length_append (a b : string) : String.length (a ++ b) = String.length a + String.length b.
Proof. induction a as [|x a IH]; cbn; [reflexivity | now rewrite IH]. Qed.

Lemma string_rev_append (a b : string) :
  string_rev (a ++ b) = string_rev b ++ string_rev a.
Proof.
  induction a as [|x a IH]; cbn.
  - now rewrite append_empty_r.
  - now rewrite IH, append_assoc.
Qed.

Lemma prefix_empty (s : string) : String.prefix EmptyString s = true.
Proof. destruct s; reflexivity. Qed.

Lemma substring_prefix (a b : string) : substring 0 (String.length a) (a ++ b) = a.
Proof.
  induction a as [|x a IH]; cbn.
  - destruct b; reflexivity.
  - now rewrite IH.
Qed.

Lemma drop_last_append (n : nat) (field suffix : string) :
  n = String.length suffix -> drop_last n (field ++ suffix) = field.
Proof.
  intros ->. unfold drop_last. rewrite length_append, Nat.add_sub. apply substring_prefix.
Qed.

(** Settles every test [endswith (field ++ a) b] of the goal, for literal
    [a] and [b], by running it on the reversed texts. *)
Ltac decide_suffix_tests :=
  repeat match goal with
    | |- context [endswith (?f ++ ?a) ?b] =>
        first
          [ replace (endswith (f ++ a) b) with true
              by (unfold endswith; rewrite string_rev_append; cbn;
                  rewrite ?prefix_empty; reflexivity)
          | replace (endswith (f ++ a) b) with false
              by (unfold endswith; rewrite string_rev_append; cbn; reflexivity) ]
    end;
  cbv beta iota zeta.

Lemma condition_of_suffix (field : string) (value : pyvalue) :
  condition (field ++ "__gte") value = field ++ " >= " ++ repr value
  /\ condition (field ++ "__lte") value = field ++ " <= " ++ repr value
  /\ condition (field ++ "__gt") value = field ++ " > " ++ repr value
  /\ condition (field ++ "__lt") value = field ++ " < " ++ repr value
  /\ condition (field ++ "__ne") value = field ++ " != " ++ repr value
  /\ condition (field ++ "__contains") value = field ++ " CONTAINS " ++ repr value
  /\ condition (field ++ "__in") value
     = match value with
       | PyList items | PyTuple items =>
           field ++ " IN [" ++ String.concat ", " (map repr items) ++ "]"
       | _ => field ++ " = " ++ repr value
       end.
Proof.
  repeat split; unfold condition; decide_suffix_tests.
  - now rewrite (@drop_last_append 5 field "__gte" eq_refl).
  - now rewrite (@drop_last_append 5 field "__lte" eq_refl).
  - now rewrite (@drop_last_append 4 field "__gt" eq_refl).
  - now rewrite (@drop_last_append 4 field "__lt" eq_refl).
  - now rewrite (@drop_last_append 4 field "__ne" eq_refl).
  - now rewrite (@drop_last_append 10 field "__contains" eq_refl).
  - rewrite (@drop_last_append 4 field "__in" eq_refl). destruct value; reflexivity.
Qed.

Lemma condition_without_suffix (key : string) (value : pyvalue) :
  has_suffix key = false -> condition key value = key ++ " = " ++ repr value.
Proof.
  unfold has_suffix, suffixes. cbn. intros H.
  repeat (apply orb_false_iff in H; destruct H as [? H]).
  unfold condition.
  repeat match goal with E : endswith key _ = false |- _ => rewrite E; clear E end.
  reflexivity.
Qed.

Lemma condition_refines (item : string * pyvalue) :
  sequence_for_in item = true -> condition (fst item) (snd item) = spec_condition item.
Proof.
  destruct item as [key value]. unfold sequence_for_in, spec_condition, condition, spec_operator.
  cbn [fst snd].
  destruct (endswith key "__gte"); [reflexivity|].
  destruct (endswith key "__lte"); [reflexivity|].
  destruct (endswith key "__gt"); [reflexivity|].
  destruct (endswith key "__lt"); [reflexivity|].
  destruct (endswith key "__ne"); [reflexivity|].
  destruct (endswith key "__in").
  - cbn. destruct value; cbn; intros H; try discriminate; reflexivity.
  - destruct (endswith key "__contains"); reflexivity.
Qed.

Lemma fold_left_append {A B} (f : A -> B) (l : list A) (init : list B) :
  fold_left (fun acc x => (acc ++ [f x])%list) l init = (init ++ map f l)%list.
Proof.
  revert init. induction l as [|x l IH]; intros init; cbn.
  - now rewrite app_nil_r.
  - rewrite IH, <- app_assoc. reflexivity.
Qed.

(** C8 (as amended).  [_build_filter_query(table, filter)].  Without a
    filter there is no WHERE clause.  With one, the query is
    [SELECT * FROM table WHERE] followed by one predicate per item,
    conjoined with AND in the iteration order of the mapping.  A key
    [field__gte] gives [field >= value], [__lte] gives [<=], [__gt] gives
    [>], [__lt] gives [<], [__ne] gives [!=], [__contains] gives
    [CONTAINS], each whatever the type of the value; a key with none of
    these suffixes gives [key = value]; a key [field__in] gives the
    membership test [field IN [...]] when the value is a list or a tuple,
    and the equality [field = value] when it is anything else.  Values are
    printed by [repr]: a string between apostrophes (or double quotes).
    Whenever every [__in] carries a list or a tuple, the query is the one
    the suffix table of the specification describes. *)
Theorem build_filter_query_translation (table : string) :
  (forall filter,
     forallb sequence_for_in filter = true ->
     _build_filter_query table filter = spec_filter_query table filter)
  /\ (forall item rest,
        _build_filter_query table (item :: rest)
        = "SELECT * FROM " ++ table ++ " WHERE "
          ++ String.concat " AND " (map (fun kv => condition (fst kv) (snd kv)) (item :: rest)))
  /\ (forall field value,
        condition (field ++ "__gte") value = field ++ " >= " ++ repr value
        /\ condition (field ++ "__lte") value = field ++ " <= " ++ repr value
        /\ condition (field ++ "__gt") value = field ++ " > " ++ repr value
        /\ condition (field ++ "__lt") value = field ++ " < " ++ repr value
        /\ condition (field ++ "__ne") value = field ++ " != " ++ repr value
        /\ condition (field ++ "__contains") value = field ++ " CONTAINS " ++ repr value
        /\ condition (field ++ "__in") value
           = match value with
             | PyList items | PyTuple items =>
                 field ++ " IN [" ++ String.concat ", " (map repr items) ++ "]"
             | _ => field ++ " = " ++ repr value
             end)
  /\ (forall key value,
        has_suffix key = false -> condition key value = key ++ " = " ++ repr value)
  /\ (forall s, exists quote,
        (quote = apostrophe \/ quote = double_quote)
        /\ repr (PyStr s) = String quote (escape quote s ++ String quote EmptyString))
  /\ _build_filter_query "users" [("age__gte", PyInt 18); ("name", PyStr "Bob")]
     = "SELECT * FROM users WHERE age >= 18 AND name = 'Bob'".
Proof.
  split; [|split; [|split; [|split; [|split]]]].
  - intros filter Hseq. destruct filter as [|item rest]; [reflexivity|].
    unfold _build_filter_query, spec_filter_query. cbn [is_empty].
    rewrite (fold_left_append (fun kv => condition (fst kv) (snd kv))). cbn [app].
    assert (Hmap : map (fun kv => condition (fst kv) (snd kv)) (item :: rest)
                   = map spec_condition (item :: rest)).
    { apply map_ext_in. intros kv Hin. apply condition_refines.
      rewrite forallb_forall in Hseq. auto. }
    rewrite Hmap. reflexivity.
  - intros item rest. unfold _build_filter_query. cbn [is_empty].
    rewrite (fold_left_append (fun kv => condition (fst kv) (snd kv))). reflexivity.
  - apply condition_of_suffix.
  - apply condition_without_suffix.
  - intros s. unfold repr, repr_str.
    destruct (contains_char apostrophe s && negb (contains_char double_quote s));
      [exists double_quote | exists apostrophe]; split; auto.
  - reflexivity.
Qed.

(** C8, as stated, fails on [__in] with a value that is no list: the
    filter [{age__in: 5}] gives the equality [age = 5], not a membership
    test. *)
Lemma in_of_a_scalar_is_an_equality :
  ~ (forall key value,
       endswith key "__in" = true ->
       exists members, condition key value = drop_last 4 key ++ " IN " ++ members).
Proof.
  intros H. destruct (H "age__in" (PyInt 5) eq_refl) as (members & Hm).
  cbn in Hm. discriminate Hm.
Qed.

Example filter_in_and_contains :
  _build_filter_query "users"
    [("role__in", PyList [PyStr "admin"; PyStr "staff"]); ("tags__contains", PyStr "new");
     ("age__lt", PyInt 65)]
  = "SELECT * FROM users WHERE role IN ['admin', 'staff'] AND tags CONTAINS 'new' AND age < 65".
Proof. reflexivity. Qed.

Local Close Scope string_scope.

(** ** Floats *)

Local Open Scope Z_scope.

(** The nearest integer is within a half of the quotient. *)
Lemma nearest_even_close (n d : Z) :
  0 < d ->
  2 * nearest_even n d * d <= 2 * n + d /\ 2 * n <= 2 * nearest_even n d * d + d.
Proof.
  intros Hd. unfold nearest_even.
  pose proof (Z.div_mod n d ltac:(lia)) as Hdm.
  pose proof (Z.mod_pos_bound n d Hd) as Hmod.
  destruct (Z.compare_spec (2 * (n mod d)) d) as [He|Hl|Hg].
  - destruct (Z.even (n / d)); nia.
  - nia.
  - nia.
Qed.

Lemma nearest_even_nonneg (n d : Z) : 0 <= n -> 0 < d -> 0 <= nearest_even n d.
Proof.
  intros Hn Hd. unfold nearest_even.
  pose proof (Z.div_pos n d Hn Hd) as Hq.
  destruct (2 * (n mod d) ?= d); [destruct (Z.even (n / d))| |]; lia.
Qed.

(** Rounding does not cross an integer. *)
Lemma nearest_even_le (n d K : Z) : 0 < d -> n <= K * d -> nearest_even n d <= K.
Proof.
  intros Hd Hn. unfold nearest_even.
  pose proof (Z.div_mod n d ltac:(lia)) as Hdm.
  pose proof (Z.mod_pos_bound n d Hd) as Hmod.
  assert (Hq : n / d <= K) by nia.
  destruct (Z.eq_dec (n / d) K) as [Heq|Hne].
  - assert (Hz : n mod d = 0) by nia.
    rewrite Hz. replace (2 * 0 ?= d) with Lt by (symmetry; apply Z.compare_lt_iff; lia).
    lia.
  - destruct (2 * (n mod d) ?= d); [destruct (Z.even (n / d))| |]; lia.
Qed.

Lemma nearest_even_exact (k d : Z) : 0 < d -> nearest_even (k * d) d = k.
Proof.
  intros Hd. unfold nearest_even.
  rewrite Z.div_mul, Z.mod_mul by lia.
  replace (2 * 0 ?= d) with Lt by (symmetry; apply Z.compare_lt_iff; lia).
  reflexivity.
Qed.

(** [floor_log2] is a lower bound of the logarithm. *)
Lemma floor_log2_lower (n d : Z) :
  0 < n -> 0 < d ->
  let k := floor_log2 n d in
  (0 <= k -> d * 2 ^ k <= n) /\ (k < 0 -> d <= n * 2 ^ (- k)).
Proof.
  intros Hn Hd. unfold floor_log2.
  pose proof (Z.log2_spec n Hn) as [Hn1 Hn2].
  pose proof (Z.log2_spec d Hd) as [Hd1 Hd2].
  pose proof (Z.log2_nonneg n) as Hln. pose proof (Z.log2_nonneg d) as Hld.
  set (k0 := Z.log2 n - Z.log2 d).
  destruct (0 <=? k0) eqn:Hk0.
  - apply Z.leb_le in Hk0.
    destruct (n <? d * 2 ^ k0) eqn:Hlow; cbn zeta.
    + apply Z.ltb_lt in Hlow. split; intros Hk.
      * (* d * 2^(k0-1) < 2^(log2 d + 1) * 2^(k0 - 1) = 2^(log2 n) <= n *)
        assert (Hp : 2 ^ Z.succ (Z.log2 d) * 2 ^ (k0 - 1) = 2 ^ Z.log2 n).
        { rewrite <- Z.pow_add_r by lia. f_equal. unfold k0. lia. }
        assert (0 < 2 ^ (k0 - 1)) by (apply Z.pow_pos_nonneg; lia).
        nia.
      * (* k0 = 0: d < 2 * 2^(log2 d) = 2 * 2^(log2 n) <= 2 * n *)
        assert (Hk00 : k0 = 0) by lia.
        replace (- (k0 - 1)) with 1 by lia. change (2 ^ 1) with 2.
        rewrite Z.pow_succ_r in Hd2 by lia.
        replace (Z.log2 d) with (Z.log2 n) in Hd2 by (unfold k0 in Hk00; lia).
        lia.
    + apply Z.ltb_ge in Hlow. split; [intros _; exact Hlow | lia].
  - apply Z.leb_gt in Hk0.
    destruct (n * 2 ^ (- k0) <? d) eqn:Hlow; cbn zeta.
    + apply Z.ltb_lt in Hlow. split; [lia|]. intros _.
      (* d < 2^(log2 d + 1) = 2^(log2 n) * 2^(-k0+1) <= n * 2^(-(k0-1)) *)
      assert (Hp : 2 ^ Z.log2 n * 2 ^ (- (k0 - 1)) = 2 ^ Z.succ (Z.log2 d)).
      { rewrite <- Z.pow_add_r by lia. f_equal. unfold k0. lia. }
      assert (0 < 2 ^ (- (k0 - 1))) by (apply Z.pow_pos_nonneg; lia).
      nia.
    + apply Z.ltb_ge in Hlow. split; [lia | intros _; exact Hlow].
Qed.

Lemma pow2_pos (e : Z) : 0 <= e -> 0 < 2 ^ e.
Proof. intros. apply Z.pow_pos_nonneg; lia. Qed.

(** A quotient that is at most an integer below [2 ^ 52] rounds to a float
    that is at most this integer. *)
Lemma round_magnitude_le (n d K : Z) :
  0 < n -> 0 < d -> n <= K * d -> K < 2 ^ 52 ->
  exists r, round_magnitude false n d = Finite r /\ (0 <= r)%Q /\ (r <= inject_Z K)%Q.
Proof.
  intros Hn Hd HnK HK.
  assert (HKpos : 0 < K) by nia.
  unfold round_magnitude.
  assert (He : ulp_exponent n d <= 0).
  { unfold ulp_exponent. apply Z.max_lub; [|lia].
    destruct (floor_log2_lower Hn Hd) as [Hlow _].
    destruct (Z.le_gt_cases (floor_log2 n d) 52) as [|Hbig]; [lia|].
    exfalso. specialize (Hlow ltac:(lia)).
    assert (2 ^ 53 <= 2 ^ floor_log2 n d) by (apply Z.pow_le_mono_r; lia).
    assert (2 ^ 52 < 2 ^ 53) by reflexivity.
    nia. }
  remember (ulp_exponent n d) as e eqn:Hdef. clear Hdef.
  destruct (0 <=? e) eqn:Hsign.
  - apply Z.leb_le in Hsign. assert (e = 0) by lia. subst e.
    change (2 ^ 0) with 1. rewrite !Z.mul_1_r.
    pose proof (@nearest_even_le n d K Hd HnK) as Hm.
    pose proof (@nearest_even_nonneg n d ltac:(lia) Hd) as Hm0.
    replace (float_limit <=? nearest_even n d) with false.
    + cbn [andb]. eexists. split; [reflexivity|].
      unfold scaled. cbn [Z.leb Z.compare]. change (2 ^ 0) with 1. rewrite Z.mul_1_r.
      unfold Qle, inject_Z. cbn [Qnum Qden]. lia.
    + symmetry. apply Z.leb_gt.
      assert (2 ^ 52 < float_limit) by reflexivity. lia.
  - apply Z.leb_gt in Hsign. cbn [andb].
    pose proof (@pow2_pos (- e) ltac:(lia)) as Hp.
    assert (Hm : nearest_even (n * 2 ^ (- e)) d <= K * 2 ^ (- e))
      by (apply nearest_even_le; [exact Hd | nia]).
    assert (Hm0 : 0 <= nearest_even (n * 2 ^ (- e)) d)
      by (apply nearest_even_nonneg; [nia | exact Hd]).
    eexists. split; [reflexivity|].
    unfold scaled. replace (0 <=? e) with false by (symmetry; apply Z.leb_gt; lia).
    unfold Qle, inject_Z. cbn [Qnum Qden].
    rewrite Z2Pos.id by exact Hp. lia.
Qed.

Local Close Scope Z_scope.

Lemma binary64_le (q : Q) (K : Z) :
  (0 <= q)%Q -> (q <= inject_Z K)%Q -> (0 < K < 2 ^ 52)%Z ->
  exists r, binary64 q = Finite r /\ (0 <= r)%Q /\ (r <= inject_Z K)%Q.
Proof.
  destruct q as [n d]. unfold Qle, inject_Z, binary64. cbn [Qnum Qden].
  intros H0 HK HKrange.
  destruct n as [|n|n].
  - exists (0 # 1)%Q. split; [reflexivity|]. unfold Qle. cbn [Qnum Qden]. lia.
  - apply round_magnitude_le; lia.
  - lia.
Qed.

(** When the rounding overflows, the quotient is at least [2 ^ 1023]. *)
Lemma round_magnitude_overflow (negative sign : bool) (n d : Z) :
  (0 < n)%Z -> (0 < d)%Z ->
  round_magnitude negative n d = Infinity sign ->
  (2 ^ 1023 * d <= n)%Z.
Proof.
  intros Hn Hd. unfold round_magnitude.
  remember (ulp_exponent n d) as e eqn:Hdef. clear Hdef.
  destruct (0 <=? e)%Z eqn:Hsign; [|discriminate].
  apply Z.leb_le in Hsign. cbn [andb].
  destruct (float_limit <=? nearest_even n (d * 2 ^ e) * 2 ^ e)%Z eqn:Hover; [|discriminate].
  intros _. apply Z.leb_le in Hover.
  pose proof (@pow2_pos e Hsign) as Hp.
  assert (HD : (0 < d * 2 ^ e)%Z) by nia.
  destruct (@nearest_even_close n (d * 2 ^ e) HD) as [Hup _].
  assert (Hlimit : float_limit = (2 * 2 ^ 1023)%Z) by reflexivity.
  assert (H1023 : (0 < 2 ^ 1023)%Z) by reflexivity.
  remember (nearest_even n (d * 2 ^ e)) as m. remember (2 ^ 1023)%Z as big.
  remember (2 ^ e)%Z as p.
  assert (Hm : (1 <= m)%Z) by nia.
  nia.
Qed.

Lemma binary64_overflow (q : Q) (sign : bool) :
  binary64 q = Infinity sign -> (2 ^ 1023 * Zpos (Qden q) <= Z.abs (Qnum q))%Z.
Proof.
  destruct q as [n d]. unfold binary64. cbn [Qnum Qden].
  destruct n as [|n|n]; [discriminate| |]; intros H;
    apply round_magnitude_overflow in H; lia.
Qed.

(** The quotient of two integers as a fraction. *)
Lemma quotient_parts (a b : Z) :
  b <> 0%Z ->
  Z.abs (Qnum (inject_Z a / inject_Z b)) = Z.abs a
  /\ Zpos (Qden (inject_Z a / inject_Z b)) = Z.abs b.
Proof.
  intros Hb. unfold Qdiv, Qmult, Qinv, inject_Z. cbn [Qnum Qden].
  destruct b as [|p|p]; [congruence| |]; cbn [Qnum Qden Z.abs]; split; try reflexivity; lia.
Qed.

(** Python's own results, for comparison: [1 / 3] is
    [0.3333333333333333], that is [6004799503160661 / 2 ** 54];
    [0.1 * 3.0] is [0.30000000000000004]; the largest float is
    [2 ** 1024 - 2 ** 971], and half a unit above it the quotient
    overflows; [3 / 2 ** 1075] is [1e-323], twice the smallest float, and
    [1 / 2 ** 1075], a tie, is [0.0]. *)
Example truediv_one_third :
  exists ratio, truediv 1 3 = Return ratio /\ (ratio == 6004799503160661 # 18014398509481984)%Q.
Proof. eexists. split; vm_compute; reflexivity. Qed.

Example float_mul_tenth_by_three :
  exists product,
    float_mul (3602879701896397 # 36028797018963968) (3 # 1) = Finite product
    /\ (product == 1351079888211149 # 4503599627370496)%Q.
Proof. eexists. split; vm_compute; reflexivity. Qed.

Example truediv_largest_float :
  exists ratio,
    truediv (2 ^ 1024 - 2 ^ 970 - 1) 1 = Return ratio
    /\ (ratio == inject_Z (2 ^ 1024 - 2 ^ 971))%Q.
Proof. eexists. split; vm_compute; reflexivity. Qed.

Example truediv_overflows :
  truediv (2 ^ 1024 - 2 ^ 970) 1 = Raise OverflowError.
Proof. vm_compute. reflexivity. Qed.

Example truediv_smallest_floats :
  (exists ratio, truediv 3 (2 ^ 1075) = Return ratio /\ (ratio == 2 # Z.to_pos (2 ^ 1074))%Q)
  /\ (exists ratio, truediv 1 (2 ^ 1075) = Return ratio /\ (ratio == 0)%Q).
Proof. split; eexists; split; vm_compute; reflexivity. Qed.

(** ** BulkResult *)

(** C10 (as amended).  [total_count] is [success_count + error_count].
    [success_rate] never divides by zero: it is [0.0] when [total_count] is 0,
    where the division is not reached.  Otherwise it is
    [success_count / total_count * 100.0] in float arithmetic: the quotient
    rounded to the nearest float, and its product by 100 rounded again.  The
    one error it can raise is the [OverflowError] of the true division, when
    the quotient is too large for a float; this takes
    [|success_count| >= 2 ^ 1023 * |total_count|], hence a negative count:
    with counts that are not negative it returns. *)
Theorem success_rate_total (self : BulkResult) :
  total_count self = (success_count self + error_count self)%Z
  /\ ((total_count self = 0)%Z -> success_rate self = Return (Finite (0 # 1)))
  /\ success_rate self <> Raise ZeroDivisionError
  /\ success_rate self <> Blocked
  /\ (forall e,
        success_rate self = Raise e ->
        e = OverflowError
        /\ (2 ^ 1023 * Z.abs (total_count self) <= Z.abs (success_count self))%Z)
  /\ (forall rate,
        success_rate self = Return rate ->
        (total_count self <> 0)%Z ->
        exists ratio,
          binary64 (inject_Z (success_count self) / inject_Z (total_count self))
          = Finite ratio
          /\ rate = binary64 (ratio * (100 # 1)))
  /\ ((0 <= success_count self)%Z -> (0 <= error_count self)%Z ->
      exists rate, success_rate self = Return rate).
Proof.
  split; [reflexivity|].
  assert (Hcases :
    (total_count self = 0%Z /\ success_rate self = Return (Finite (0 # 1)))
    \/ (total_count self <> 0%Z
        /\ ((exists ratio,
               binary64 (inject_Z (success_count self) / inject_Z (total_count self))
               = Finite ratio
               /\ success_rate self = Return (binary64 (ratio * (100 # 1))))
            \/ (success_rate self = Raise OverflowError
                /\ (2 ^ 1023 * Z.abs (total_count self) <= Z.abs (success_count self))%Z)))).
  { unfold success_rate, truediv.
    destruct (total_count self =? 0)%Z eqn:Hzero.
    - left. apply Z.eqb_eq in Hzero. split; [exact Hzero | reflexivity].
    - right. apply Z.eqb_neq in Hzero. split; [exact Hzero|].
      destruct (binary64 (inject_Z (success_count self) / inject_Z (total_count self)))
        as [ratio|sign] eqn:Hq.
      + left. exists ratio. split; reflexivity.
      + right. split; [reflexivity|].
        apply binary64_overflow in Hq.
        destruct (@quotient_parts (success_count self) (total_count self) Hzero) as [Hn Hd].
        rewrite Hn, Hd in Hq. exact Hq. }
  split; [|split; [|split; [|split; [|split]]]].
  - intros Hzero. destruct Hcases as [[_ Hrun]|[Hne _]]; [exact Hrun | contradiction].
  - destruct Hcases as [[_ Hrun]|[_ [(ratio & _ & Hrun)|[Hrun _]]]];
      rewrite Hrun; discriminate.
  - destruct Hcases as [[_ Hrun]|[_ [(ratio & _ & Hrun)|[Hrun _]]]];
      rewrite Hrun; discriminate.
  - intros e He.
    destruct Hcases as [[_ Hrun]|[_ [(ratio & _ & Hrun)|[Hrun Hbig]]]];
      rewrite Hrun in He; try discriminate.
    injection He as <-. split; [reflexivity | exact Hbig].
  - intros rate Hrate Hne.
    destruct Hcases as [[Hzero _]|[_ [(ratio & Hq & Hrun)|[Hrun _]]]];
      [contradiction | | rewrite Hrun in Hrate; discriminate].
    exists ratio. split; [exact Hq|]. rewrite Hrun in Hrate. injection Hrate as <-.
    reflexivity.
  - intros Hs He.
    destruct Hcases as [[_ Hrun]|[Hne [(ratio & _ & Hrun)|[_ Hbig]]]];
      [eexists; exact Hrun | eexists; exact Hrun |].
    exfalso. unfold total_count in *.
    assert (H1023 : (2 <= 2 ^ 1023)%Z) by (vm_compute; discriminate).
    remember (2 ^ 1023)%Z as big. lia.
Qed.

(** C10, as stated, fails for a count below zero: with [10 ** 400]
    successes and [1 - 10 ** 400] errors the total is 1 and the quotient is
    too large for a float. *)
Lemma success_rate_overflows :
  ~ (forall self : BulkResult, exists rate, success_rate self = Return rate).
Proof.
  intros H.
  destruct (H {| success_count := 10 ^ 400; error_count := 1 - 10 ^ 400;
                 errors := []; results := [] |}) as (rate & Hrate).
  vm_compute in Hrate. discriminate.
Qed.

Example success_rate_three_of_four :
  exists rate,
    success_rate {| success_count := 3; error_count := 1; errors := []; results := [] |}
    = Return (Finite rate)
    /\ (rate == 75 # 1)%Q.
Proof. eexists. split; vm_compute; reflexivity. Qed.

Example success_rate_one_of_three :
  exists rate,
    success_rate {| success_count := 1; error_count := 2; errors := []; results := [] |}
    = Return (Finite rate)
    /\ (rate == 4691249611844266 # 140737488355328)%Q
    /\ ~ (rate == 100 # 3)%Q.
Proof. eexists. split; [vm_compute; reflexivity|]. split; vm_compute; congruence. Qed.

Example success_rate_of_nothing :
  success_rate {| success_count := 0; error_count := 0; errors := []; results := [] |}
  = Return (Finite (0 # 1)).
Proof. reflexivity. Qed.

(* ================================================================== *)
(** * Part III. Further properties                                     *)
(* ================================================================== *)

(** ** RetryExecutor: the two flavours, and the ends of the loop *)

Lemma total_sleep_app l1 l2 :
  (total_sleep (l1 ++ l2) == total_sleep l1 + total_sleep l2)%Q.
Proof.
  induction l1 as [|d l1 IH]; cbn.
  - rewrite Qplus_0_l. reflexivity.
  - rewrite IH. apply Qplus_assoc.
Qed.

(** [retry_delay * (2^0 + ... + 2^(n-1)) = retry_delay * (2^n - 1)] *)
Lemma total_backoff (retry_delay : Q) (n : nat) :
  (total_sleep (map (fun i => retry_delay * inject_Z (2 ^ Z.of_nat i)) (seq 0 n))
   == retry_delay * inject_Z (2 ^ Z.of_nat n - 1))%Q.
Proof.
  induction n as [|n IH].
  - cbn. rewrite Qmult_0_r. reflexivity.
  - rewrite seq_S, map_app, total_sleep_app, IH. cbn [map total_sleep fold_right Nat.add].
    rewrite Nat2Z.inj_succ, Z.pow_succ_r by lia.
    rewrite Qplus_0_r, <- Qmult_plus_distr_r, <- inject_Z_plus.
    replace (2 ^ Z.of_nat n - 1 + 2 ^ Z.of_nat n)%Z with (2 * 2 ^ Z.of_nat n - 1)%Z by lia.
    reflexivity.
Qed.

(** The sample policies go through, whatever the flavour. *)
Lemma half_second_goes_through (fl : flavour) (retries : Z) :
  (retries <= 3)%Z -> retries_go_through fl all_well (1 # 2) retries.
Proof.
  intros Hr. split; [lia|]. split; [|intros _ t i _; reflexivity].
  unfold finite_delays.
  apply Qle_lt_trans with (y := (Qabs (1 # 2) * inject_Z (2 ^ 2))%Q); [|vm_compute; reflexivity].
  apply Qmult_le_l; [reflexivity|].
  rewrite <- Zle_Qle. destruct (Z.le_gt_cases 1 retries) as [H1|H1].
  - apply Z.pow_le_mono_r; lia.
  - rewrite Z.pow_neg_r by lia. lia.
Qed.

(** X1.  The executors of the synchronous classes,
    [SyncSingleConnection.execute_with_retry] and
    [SyncConnectionPool._execute_with_retry], keep the contract of the
    asynchronous ones for a policy with [0 <= max_retries <= 1024] whose
    delays are finite floats, provided [time.sleep] returns for each of
    the delays [retry_delay * 2^i], [i < max_retries]. *)
Theorem sync_execute_with_retry_contract {A} (env : oracle) (max_retries : Z)
    (retry_delay : Q) (c : conn) (op : operation A) :
  (0 <= max_retries)%Z ->
  retries_go_through Sync env retry_delay max_retries ->
  retry_contract max_retries retry_delay op c
    (execute_with_retry Sync env (mkSingle c max_retries retry_delay) op)
  /\ retry_contract max_retries retry_delay op c
       (_execute_with_retry Sync env max_retries retry_delay op c).
Proof.
  intros Hmr Hgo. split.
  - unfold execute_with_retry. cbn [single_max_retries single_retry_delay single_connection].
    apply retry_loop_contract; assumption.
  - unfold _execute_with_retry. apply retry_loop_contract; assumption.
Qed.

Lemma sync_execute_with_retry_contract_witness :
  (0 <= 3)%Z /\ retries_go_through Sync all_well (1 # 2) 3
  /\ retry_contract 3 (1 # 2) flaky_operation 0
       (execute_with_retry Sync all_well (mkSingle 0 3 (1 # 2)) flaky_operation).
Proof.
  assert (Hmr : (0 <= 3)%Z) by lia.
  assert (Hgo : retries_go_through Sync all_well (1 # 2) 3)
    by (apply half_second_goes_through; lia).
  split; [exact Hmr|]. split; [exact Hgo|].
  exact (proj1 (@sync_execute_with_retry_contract nat all_well 3 (1 # 2) 0 flaky_operation
                  Hmr Hgo)).
Defined.

(** X2.  The executor ends as the first invocation ends that does not
    fail with an [Exception]: its result is returned; an exception outside
    [Exception] (a cancellation, an interrupt) leaves the executor as it is,
    not wrapped and not retried; an invocation that never returns is not
    abandoned.  The [k] failures before it, [k <= max_retries], were
    retried, each with its warning and its sleep, and nothing follows the
    last invocation.  (The [k] retries are assumed to go through:
    [k <= 1024], finite delays, and a [time.sleep] that returns.) *)
Theorem execute_with_retry_stops {A} (fl : flavour) (env : oracle) (max_retries : Z)
    (retry_delay : Q) (c : conn) (op : operation A) (k : nat) (w : world) :
  retries_go_through fl env retry_delay (Z.of_nat k) ->
  (Z.of_nat k <= max_retries)%Z ->
  (forall i, i < k -> fails (op i c)) ->
  passes (op k c) ->
  let w' :=
    {| trace := trace w ++ flat_map (retried_attempt retry_delay c) (seq 0 k)
                        ++ [(Operation c, None)];
       next_conn := next_conn w |} in
  execute_with_retry fl env (mkSingle c max_retries retry_delay) op w = (op k c, w')
  /\ _execute_with_retry fl env max_retries retry_delay op c w = (op k c, w').
Proof.
  intros Hgo Hk Hfail Hpass w'.
  assert (Hloop : retry_loop fl env max_retries retry_delay op c
                    (range (max_retries + 1)) None w = (op k c, w')).
  { apply retry_loop_stops; try assumption.
    intros i Hi. eapply retries_go_through_attempt; [exact Hgo | lia]. }
  split; exact Hloop.
Qed.

Lemma execute_with_retry_stops_witness :
  execute_with_retry Sync all_well (mkSingle 0 3 (1 # 2)) cancelled_operation new_world
  = (Raise (BaseFailure 7),
     {| trace := [(Operation 0, None);
                  (Log WARNING "Operation failed, retrying", None);
                  (Sleep (Finite ((1 # 2) * 1)), None);
                  (Operation 0, None)];
        next_conn := 0 |}).
Proof.
  refine (proj1 (@execute_with_retry_stops nat Sync all_well 3 (1 # 2) 0 cancelled_operation 1
                   new_world _ _ _ _)).
  - apply half_second_goes_through. lia.
  - lia.
  - intros i Hi. exists (Failure 1). destruct i as [|i]; [split; reflexivity | lia].
  - reflexivity.
Defined.

(** X3.  A negative [max_retries] leaves no attempt: [range(max_retries + 1)]
    is empty, the operation is not invoked once, nothing is logged or slept,
    and [ConnectionError] is raised without a cause. *)
Theorem execute_with_retry_without_attempts {A} (fl : flavour) (env : oracle)
    (max_retries : Z) (retry_delay : Q) (c : conn) (op : operation A) (w : world) :
  (max_retries < 0)%Z ->
  execute_with_retry fl env (mkSingle c max_retries retry_delay) op w
  = (Raise (ConnectionError (exhausted_msg max_retries) None), w)
  /\ _execute_with_retry fl env max_retries retry_delay op c w
     = (Raise (ConnectionError (exhausted_msg max_retries) None), w).
Proof.
  intros Hneg.
  unfold execute_with_retry, _execute_with_retry, range. cbn [single_max_retries].
  replace (Z.to_nat (max_retries + 1)) with 0 by lia.
  split; reflexivity.
Qed.

Lemma execute_with_retry_without_attempts_witness :
  (-1 < 0)%Z
  /\ execute_with_retry Async all_well (mkSingle 0 (-1) (1 # 1)) flaky_operation new_world
     = (Raise (ConnectionError "Operation failed after 0 attempts" None), new_world).
Proof.
  split; [lia|].
  apply (@execute_with_retry_without_attempts nat Async all_well (-1) (1 # 1) 0
           flaky_operation new_world).
  lia.
Defined.

(** X4.  [time.sleep] is called in the [except] clause of the synchronous
    executors, so what it raises ([ValueError] for a negative delay,
    [OverflowError] for one outside the range of the C timestamp) leaves
    the executor, neither retried nor wrapped.  When the first invocation
    fails, [max_retries > 0], and the sleep of [retry_delay * 2^0] that
    follows the warning raises, this is the end: one invocation, the
    warning, the failed sleep, and no second attempt. *)
Theorem sync_sleep_failure_leaves_executor {A} (env : oracle) (max_retries : Z)
    (retry_delay : Q) (c : conn) (op : operation A) (w : world) (f : failure) :
  (0 < max_retries)%Z ->
  (Qabs retry_delay < inject_Z float_limit)%Q ->
  fails (op 0 c) ->
  env (trace w ++ [(Operation c, None); (Log WARNING "Operation failed, retrying", None)])
      (Sleep (Finite (retry_delay * 1))) = Some f ->
  let w' :=
    {| trace := trace w ++ [(Operation c, None);
                            (Log WARNING "Operation failed, retrying", None);
                            (Sleep (Finite (retry_delay * 1)), Some f)];
       next_conn := next_conn w |} in
  execute_with_retry Sync env (mkSingle c max_retries retry_delay) op w
  = (Raise (Failure f), w')
  /\ _execute_with_retry Sync env max_retries retry_delay op c w = (Raise (Failure f), w').
Proof.
  intros Hmr Hfinite Hfail Henv w'.
  assert (Hloop : retry_loop Sync env max_retries retry_delay op c
                    (range (max_retries + 1)) None w = (Raise (Failure f), w')).
  { apply (@retry_loop_sleep_fails A env max_retries retry_delay op c 0 w f).
    - intros i Hi. replace i with 0 by lia. exact Hfail.
    - intros i Hi. lia.
    - lia.
    - lia.
    - change (inject_Z (2 ^ Z.of_nat 0)) with 1%Q. rewrite Qmult_1_r. exact Hfinite.
    - exact Henv. }
  split; exact Hloop.
Qed.

Lemma sync_sleep_failure_leaves_executor_witness :
  execute_with_retry Sync sleep_refused (mkSingle 0 3 (-1 # 2)) flaky_operation new_world
  = (Raise (Failure 5),
     {| trace := [(Operation 0, None);
                  (Log WARNING "Operation failed, retrying", None);
                  (Sleep (Finite ((-1 # 2) * 1)), Some (Other 5))];
        next_conn := 0 |}).
Proof.
  refine (proj1 (@sync_sleep_failure_leaves_executor nat sleep_refused 3 (-1 # 2) 0
                   flaky_operation new_world 5 _ _ _ _)).
  - lia.
  - vm_compute. reflexivity.
  - exists (Failure 1). split; reflexivity.
  - reflexivity.
Defined.

(** X5.  [2 ** attempt] is converted to a float to be multiplied by
    [retry_delay], and from [2 ** 1024] on the conversion raises
    [OverflowError], in the [except] clause and before the warning.  With
    [max_retries > 1024] and an operation that fails on its first 1025
    invocations, the executor therefore ends with [OverflowError], not
    [ConnectionError], after exactly 1025 invocations and 1024 sleeps
    (assumed to go through), whatever [retry_delay] is. *)
Theorem execute_with_retry_overflows {A} (fl : flavour) (env : oracle) (max_retries : Z)
    (retry_delay : Q) (c : conn) (op : operation A) (w : world) :
  (1024 < max_retries)%Z ->
  retries_go_through fl env retry_delay 1024 ->
  (forall i, i <= 1024 -> fails (op i c)) ->
  let w' :=
    {| trace := trace w ++ flat_map (retried_attempt retry_delay c) (seq 0 1024)
                        ++ [(Operation c, None)];
       next_conn := next_conn w |} in
  execute_with_retry fl env (mkSingle c max_retries retry_delay) op w
  = (Raise OverflowError, w')
  /\ _execute_with_retry fl env max_retries retry_delay op c w = (Raise OverflowError, w')
  /\ attempts_made (trace w' ) = attempts_made (trace w) + 1025.
Proof.
  intros Hmr Hgo Hfail w'.
  assert (Hloop : retry_loop fl env max_retries retry_delay op c
                    (range (max_retries + 1)) None w = (Raise OverflowError, w')).
  { apply retry_loop_overflows; try assumption.
    intros i Hi. eapply retries_go_through_attempt; [exact Hgo | exact Hi]. }
  split; [exact Hloop|]. split; [exact Hloop|].
  subst w'. cbn [trace]. rewrite !attempts_made_app, attempts_retried_attempts.
  cbn [attempts_made filter is_operation fst List.length]. lia.
Qed.

Lemma execute_with_retry_overflows_witness :
  fst (execute_with_retry Async all_well (mkSingle 0 2000 (0 # 1)) failing_operation new_world)
  = Raise OverflowError.
Proof.
  destruct (@execute_with_retry_overflows nat Async all_well 2000 (0 # 1) 0 failing_operation
              new_world) as (Hrun & _).
  - lia.
  - split; [lia|]. split; [vm_compute; reflexivity | discriminate].
  - intros i _. apply failing_operation_fails.
  - rewrite Hrun. reflexivity.
Defined.

(** X6.  When the operation fails on all [max_retries + 1] invocations
    ([max_retries >= 0], and the [max_retries] retries go through), the
    executor leaves in the trace [max_retries] retried attempts (invocation,
    warning, sleep of [retry_delay * 2^i]) and the last one (invocation,
    error): it has slept [max_retries] times, [retry_delay * (2^max_retries - 1)]
    seconds in all, and it does not sleep after the last failure. *)
Theorem exhausted_retries_trace {A} (fl : flavour) (env : oracle) (max_retries : Z)
    (retry_delay : Q) (c : conn) (op : operation A) (w : world) :
  (0 <= max_retries)%Z ->
  retries_go_through fl env retry_delay max_retries ->
  (forall i, (Z.of_nat i <= max_retries)%Z -> fails (op i c)) ->
  let delays :=
    map (fun i => retry_delay * inject_Z (2 ^ Z.of_nat i))%Q (seq 0 (Z.to_nat max_retries)) in
  let delta :=
    flat_map (retried_attempt retry_delay c) (seq 0 (Z.to_nat max_retries))
    ++ last_attempt c in
  let w' := {| trace := trace w ++ delta; next_conn := next_conn w |} in
  snd (execute_with_retry fl env (mkSingle c max_retries retry_delay) op w) = w'
  /\ snd (_execute_with_retry fl env max_retries retry_delay op c w) = w'
  /\ sleeps delta = map Finite delays
  /\ (total_sleep delays == retry_delay * inject_Z (2 ^ max_retries - 1))%Q.
Proof.
  intros Hmr Hgo Hfail delays delta w'.
  assert (Hloop : snd (retry_loop fl env max_retries retry_delay op c
                         (range (max_retries + 1)) None w) = w').
  { destruct (@retry_loop_exhausted A fl env max_retries retry_delay op c w Hmr Hfail)
      as (e & _ & Hrun).
    - intros i Hi. eapply retries_go_through_attempt; [exact Hgo | exact Hi].
    - rewrite Hrun. reflexivity. }
  split; [exact Hloop|]. split; [exact Hloop|]. split.
  - subst delta delays. rewrite sleeps_app, sleeps_retried_attempts, map_map.
    cbn. apply app_nil_r.
  - subst delays. rewrite total_backoff, Z2Nat.id by lia. reflexivity.
Qed.

Lemma exhausted_retries_trace_witness :
  sleeps (trace (snd (execute_with_retry Async all_well (mkSingle 0 3 (1 # 2))
                        failing_operation new_world)))
  = map Finite [((1 # 2) * 1)%Q; ((1 # 2) * inject_Z 2)%Q; ((1 # 2) * inject_Z 4)%Q].
Proof.
  destruct (@exhausted_retries_trace nat Async all_well 3 (1 # 2) 0 failing_operation
              new_world) as (Hrun & _ & Hsleeps & _).
  - lia.
  - apply half_second_goes_through. lia.
  - intros i _. apply failing_operation_fails.
  - rewrite Hrun. cbn [trace new_world app]. rewrite Hsleeps. reflexivity.
Defined.

(** ** SingleConnection: [ensure_connected] *)

(** X7.  [ensure_connected()] probes the connection through the retry
    executor ([max_retries >= 0], and the [max_retries] retries go
    through).  When a probe answers within [max_retries + 1] tries it
    returns [None].  When every probe fails it raises [ConnectionError]
    ("Connection check failed") whose cause is the [ConnectionError] of the
    executor, whose cause in turn is the failure of the last probe: the
    error is wrapped twice. *)
Theorem ensure_connected_contract (fl : flavour) (env : oracle) (max_retries : Z)
    (retry_delay : Q) (c : conn) (check_operation : operation string) (w : world) :
  (0 <= max_retries)%Z ->
  retries_go_through fl env retry_delay max_retries ->
  let self := mkSingle c max_retries retry_delay in
  (forall k v,
     (Z.of_nat k <= max_retries)%Z ->
     (forall i, i < k -> fails (check_operation i c)) ->
     check_operation k c = Return v ->
     fst (ensure_connected fl env self check_operation w) = Return tt)
  /\ ((forall i, (Z.of_nat i <= max_retries)%Z -> fails (check_operation i c)) ->
      exists e,
        check_operation (Z.to_nat max_retries) c = Raise e
        /\ fst (ensure_connected fl env self check_operation w)
           = Raise (ConnectionError "Connection check failed"
                      (Some (ConnectionError (exhausted_msg max_retries) (Some e))))).
Proof.
  intros Hmr Hgo self.
  destruct (@retry_loop_contract string fl env max_retries retry_delay check_operation c
              Hmr Hgo w) as (delta & _ & _ & Hsucc & Hexh).
  unfold ensure_connected, try_except, bind, execute_with_retry. subst self.
  cbn [single_max_retries single_retry_delay single_connection].
  destruct (retry_loop fl env max_retries retry_delay check_operation c
              (range (max_retries + 1)) None w) as [r w1].
  cbn [fst] in Hsucc, Hexh. split.
  - intros k v Hk Hfail Hok. destruct (Hsucc k v Hk Hfail Hok) as (-> & _). reflexivity.
  - intros Hfail. destruct (Hexh Hfail) as (e & He & -> & _).
    exists e. split; [exact He | reflexivity].
Qed.

Lemma ensure_connected_contract_witness :
  fst (ensure_connected Async all_well (mkSingle 0 1 (1 # 1)) failing_probe
         new_world)
  = Raise (ConnectionError "Connection check failed"
             (Some (ConnectionError "Operation failed after 2 attempts" (Some (Failure 1))))).
Proof.
  destruct (@ensure_connected_contract Async all_well 1 (1 # 1) 0 failing_probe
              new_world) as (_ & Hexh).
  - lia.
  - split; [lia|]. split; [vm_compute; reflexivity | discriminate].
  - destruct Hexh as (e & He & Hrun).
    + intros i _. exists (Failure i). split; reflexivity.
    + injection He as <-. exact Hrun.
Defined.

(** X8.  Whatever the probes and the clock do, an [Exception] that leaves
    [ensure_connected()] is [ConnectionError] ("Connection check failed"),
    and the exception it wraps is its cause: the [ConnectionError] of the
    exhausted executor, but also the [OverflowError] of a delay that
    cannot be computed, or what [time.sleep] raised. *)
Theorem ensure_connected_wraps (fl : flavour) (env : oracle) (self : SingleConnection)
    (check_operation : operation string) (w : world) (e : exn) :
  fst (ensure_connected fl env self check_operation w) = Raise e ->
  is_Exception e = true ->
  exists cause,
    e = ConnectionError "Connection check failed" (Some cause)
    /\ fst (execute_with_retry fl env self check_operation w) = Raise cause.
Proof.
  unfold ensure_connected, try_except, bind.
  destruct (execute_with_retry fl env self check_operation w) as [[v|e'|] w1];
    cbn; try discriminate.
  unfold except_Exception. destruct (is_Exception e') eqn:He'; cbn.
  - intros E _. injection E as <-. eauto.
  - intros E. injection E as <-. congruence.
Qed.

Lemma ensure_connected_wraps_witness :
  exists cause,
    ConnectionError "Connection check failed" (Some (Failure 5))
    = ConnectionError "Connection check failed" (Some cause)
    /\ fst (execute_with_retry Sync sleep_refused (mkSingle 0 3 (1 # 1)) failing_probe
              new_world) = Raise cause.
Proof.
  apply (@ensure_connected_wraps Sync sleep_refused (mkSingle 0 3 (1 # 1)) failing_probe
           new_world (ConnectionError "Connection check failed" (Some (Failure 5))));
    reflexivity.
Defined.

(** ** TransactionScope: entering and leaving *)

(** X9.  When [begin_transaction()] raises, the scope is not entered: the
    body does not run, neither commit nor rollback is issued, the scope
    stays inactive, and the failure of the begin is what the caller sees. *)
Theorem transaction_begin_failure {A} (fl : flavour) (env : oracle) (body : M world A)
    (c : conn) (w : world) (tag : failure) :
  env (trace w) (Begin_transaction c) = Some tag ->
  transaction_scope fl env body (new_transaction c, w)
  = (Raise (Failure tag),
     (new_transaction c, record_entry (Begin_transaction c, Some tag) w)).
Proof.
  intros Hbegin.
  destruct fl; unfold transaction_scope, with_statement, __aenter__, __enter__, bind,
    get_self, lift, call; cbn; rewrite Hbegin; reflexivity.
Qed.

Lemma transaction_begin_failure_witness :
  transaction_scope Async begin_fails (fun w => (Return 5, record_entry (Operation 7, None) w))
    (new_transaction 7, new_world)
  = (Raise (Failure 3),
     (new_transaction 7,
      {| trace := [(Begin_transaction 7, Some (Other 3))]; next_conn := 0 |})).
Proof.
  exact (@transaction_begin_failure nat Async begin_fails
           (fun w => (Return 5, record_entry (Operation 7, None) w)) 7 new_world (Other 3)
           eq_refl).
Defined.

(** X10.  The exit of a scope ends it, whatever the commit or the rollback
    did: the scope is inactive afterwards, and an exit called again issues
    no call and changes nothing.  A scope commits or rolls back at most
    once per entry. *)
Theorem transaction_exit_once (fl : flavour) (env : oracle) (exc exc' : option exn)
    (self : Transaction) (w : world) :
  let exited := snd (scope_exit fl env exc (self, w)) in
  _in_transaction (fst exited) = false
  /\ connection (fst exited) = connection self
  /\ scope_exit fl env exc' exited = (Return tt, exited).
Proof.
  assert (Hexit : forall s : Transaction * world,
             _in_transaction (fst s) = false -> scope_exit fl env exc' s = (Return tt, s)).
  { intros [t w'] H. cbn in H.
    destruct fl; unfold scope_exit, __aexit__, __exit__, bind, get_self; cbn; rewrite H;
      reflexivity. }
  assert (Hstate : _in_transaction (fst (snd (scope_exit fl env exc (self, w)))) = false
                   /\ connection (fst (snd (scope_exit fl env exc (self, w)))) = connection self).
  { destruct self as [c active].
    destruct fl; unfold scope_exit, __aexit__, __exit__, bind, get_self; cbn;
      destruct active; cbn; auto;
      unfold try_finally, lift, call, set_self; destruct exc; cbn;
      match goal with |- context [env ?t ?ev] => destruct (env t ev) end; cbn; auto. }
  cbn zeta. destruct Hstate as [Hinactive Hconn].
  split; [exact Hinactive|]. split; [exact Hconn|]. apply Hexit. exact Hinactive.
Qed.

(** ** ConnectionPool: [release], the closed pool, round trips *)

Lemma gets_app t1 t2 : gets (t1 ++ t2) = gets t1 ++ gets t2.
Proof. apply flat_map_app. Qed.

Section PoolLifecycle.
Variable env : oracle.

Lemma room_below_size (self : Pool) :
  (Z.of_nat (List.length (_available self)) <? _pool_size self)%Z = true ->
  full self = false.
Proof.
  intros H. apply Z.ltb_lt in H. unfold full.
  apply andb_false_iff. right. apply Z.leb_gt. exact H.
Qed.

(** The replacement step of [release]: a connection is created and queued
    when the queue holds fewer than [pool_size] items; a failure of the
    creation is logged. *)
Lemma release_replacement (self : Pool) (w : world) :
  exists delta self',
    try_except
      (self0 <- get_self ;;
       if (Z.of_nat (List.length (_available self0)) <? _pool_size self0)%Z
       then new_connection <- _create_connection env ;; put new_connection
       else ret tt)
      (except_Exception (fun e =>
         lift (log ERROR "Failed to create replacement connection"))) (self, w)
    = (Return tt,
       (self', {| trace := trace w ++ delta;
                  next_conn := next_conn w + List.length (constructs delta) |}))
    /\ closes delta = [] /\ gets delta = [] /\ releases delta = []
    /\ _pool self' = _pool self /\ _closed self' = _closed self
    /\ _pool_size self' = _pool_size self
    /\ constructs delta
       = (if (Z.of_nat (List.length (_available self)) <? _pool_size self)%Z
          then [next_conn w] else [])
    /\ _available self' = _available self ++ created delta.
Proof.
  unfold try_except, bind at 1, get_self. cbn [fst snd].
  destruct (Z.of_nat (List.length (_available self)) <? _pool_size self)%Z eqn:Hlt.
  - unfold bind.
    destruct (@create_connection_cases env self w)
      as (d & Hsnd & Hg & Hc & Hr & Hk & _ & Hres).
    destruct (_create_connection env (self, w)) as [r s1]. cbn in Hsnd, Hres. subst s1.
    destruct Hres as [[Hcreated ->] | [Hcreated (tag & ->)]].
    + unfold put. cbn [fst snd]. rewrite (room_below_size self Hlt).
      exists d, (set_available (_available self ++ [next_conn w]) self).
      rewrite Hk, Hcreated. cbn. rewrite Nat.add_1_r. repeat split; assumption.
    + cbn. unfold lift, log, emit. cbn.
      exists (d ++ [(Log ERROR "Failed to create replacement connection"%string, None)]), self.
      rewrite constructs_app, closes_app, created_app, releases_app, gets_app,
        Hk, Hc, Hcreated, Hr, Hg.
      cbn. rewrite Nat.add_1_r, app_nil_r, <- app_assoc.
      repeat split; reflexivity.
  - cbn. exists [], self. cbn. rewrite !app_nil_r, Nat.add_0_r. destruct w. repeat split.
Qed.

Lemma release_closed (c : conn) (self : Pool) (w : world) :
  _closed self = true ->
  let entered := record_entry (Enter_release c, None) w in
  release env c (self, w)
  = (Return tt, (self, record_entry (Close c, env (trace entered) (Close c)) entered)).
Proof.
  intros Hclosed. unfold release. rewrite bind_emit.
  unfold bind, get_self. cbn [fst snd]. rewrite Hclosed.
  unfold close_quietly, try_except, lift, call, except_Exception. cbn.
  match goal with |- context [env ?t (Close c)] => destruct (env t (Close c)) end;
    reflexivity.
Qed.

Lemma release_alive (c : conn) (self : Pool) (w : world) :
  _closed self = false ->
  let entered := record_entry (Enter_release c, None) w in
  env (trace entered) (Version c) = None ->
  let probed := record_entry (Version c, None) entered in
  release env c (self, w)
  = if full self then (Blocked, (self, probed))
    else (Return tt, (set_available (_available self ++ [c]) self, probed)).
Proof.
  intros Hopen entered Hv. subst entered. cbn [trace record_entry] in Hv. cbn zeta.
  unfold release. rewrite bind_emit.
  unfold bind at 1, get_self at 1. cbn [fst snd]. rewrite Hopen.
  unfold try_except at 1, bind at 1, lift at 1, call. cbn [fst snd trace record_entry].
  rewrite Hv. unfold put. cbn. destruct (full self); reflexivity.
Qed.

Lemma release_dead (c : conn) (self : Pool) (w : world) (tag : failure) :
  _closed self = false ->
  let entered := record_entry (Enter_release c, None) w in
  env (trace entered) (Version c) = Some tag ->
  let warned :=
    record_entry (Log WARNING "Released connection is invalid, discarding", None)
      (record_entry (Version c, Some tag) entered) in
  let discarded := record_entry (Close c, env (trace warned) (Close c)) warned in
  exists delta self',
    release env c (self, w)
    = (Return tt,
       (self', {| trace := trace discarded ++ delta;
                  next_conn := next_conn w + List.length (constructs delta) |}))
    /\ closes delta = [] /\ gets delta = [] /\ releases delta = []
    /\ _pool self' = _pool self /\ _closed self' = false
    /\ _pool_size self' = _pool_size self
    /\ constructs delta
       = (if (Z.of_nat (List.length (_available self)) <? _pool_size self)%Z
          then [next_conn w] else [])
    /\ _available self' = _available self ++ created delta.
Proof.
  intros Hopen entered Hv. subst entered. cbn [trace record_entry] in Hv. cbn zeta.
  unfold release. rewrite bind_emit.
  unfold bind at 1, get_self at 1. cbn [fst snd]. rewrite Hopen.
  unfold try_except at 1, bind at 1, lift at 1, call. cbn [fst snd trace record_entry].
  rewrite Hv. unfold except_Exception. cbn [is_Exception].
  unfold bind at 1, lift at 1, log, emit. cbn [fst snd].
  unfold bind at 1, close_quietly, try_except at 1, lift at 1, call, except_Exception.
  cbn [fst snd trace record_entry].
  match goal with |- context [env ?t (Close c)] =>
    destruct (env t (Close c)) as [tag'|] end;
    cbn -[try_except _create_connection put];
    match goal with |- context [try_except ?b ?h (self, ?w')] =>
      destruct (release_replacement self w') as (delta & self' & Hrun & H);
      match type of Hrun with _ = ?result =>
        replace (try_except b h (self, w')) with result by (symmetry; exact Hrun)
      end
    end;
    exists delta, self'; (split; [reflexivity|]);
    cbn in H; rewrite Hopen in H; exact H.
Qed.

(** X11.  [release(c)], by cases.  On a closed pool [c] is closed, a failure
    of [close()] is swallowed, and the pool is not touched.  On an open pool
    [c] is probed.  If the probe answers, [c] goes to the tail of the queue;
    when the queue is full, this [put] does not return.  If the probe fails,
    a warning is logged, [c] is closed (a failure swallowed) and, when the
    queue holds fewer than [pool_size] items, one replacement is created:
    it goes to the tail of the queue, or the failure of its creation is
    logged.  In this last case [release] returns whatever the collaborators
    do.  The pool list is never updated: it keeps [c] and does not get the
    replacement. *)
Theorem release_contract (c : conn) (self : Pool) (w : world) :
  let entered := record_entry (Enter_release c, None) w in
  (_closed self = true ->
     release env c (self, w)
     = (Return tt, (self, record_entry (Close c, env (trace entered) (Close c)) entered)))
  /\
  (_closed self = false ->
     match env (trace entered) (Version c) with
     | None =>
         let probed := record_entry (Version c, None) entered in
         release env c (self, w)
         = if full self then (Blocked, (self, probed))
           else (Return tt, (set_available (_available self ++ [c]) self, probed))
     | Some tag =>
         let warned :=
           record_entry (Log WARNING "Released connection is invalid, discarding", None)
             (record_entry (Version c, Some tag) entered) in
         let discarded := record_entry (Close c, env (trace warned) (Close c)) warned in
         exists delta self',
           release env c (self, w)
           = (Return tt,
              (self', {| trace := trace discarded ++ delta;
                         next_conn := next_conn w + List.length (constructs delta) |}))
           /\ closes delta = [] /\ gets delta = [] /\ releases delta = []
           /\ _pool self' = _pool self /\ _closed self' = false
           /\ _pool_size self' = _pool_size self
           /\ constructs delta
              = (if (Z.of_nat (List.length (_available self)) <? _pool_size self)%Z
                 then [next_conn w] else [])
           /\ _available self' = _available self ++ created delta
     end).
Proof.
  intros entered. split.
  - intros Hclosed. exact (@release_closed c self w Hclosed).
  - intros Hopen.
    destruct (env (trace entered) (Version c)) as [tag|] eqn:Hv.
    + exact (@release_dead c self w tag Hopen Hv).
    + exact (@release_alive c self w Hopen Hv).
Qed.

(** *** [close_all] *)

(** X12.  [close_all()] returns normally, whatever the collaborators do.
    When the queue is drained to its end (always in the asyncio pool; in
    the blocking pool provided no [close()] raises [queue.Empty]), it
    leaves the pool closed, the queue empty and the pool list empty;
    [close()] was called on every connection that was queued, once each, in
    queue order; every [close()] that raised was logged, and the drain went
    on.  A second [close_all()] returns normally too, calls [close()] on
    nothing and changes nothing but the log. *)
Theorem close_all_contract (fl : flavour) (self : Pool) (w : world) :
  drains_through fl env ->
  exists delta,
    let closed_pool := set_pool [] (set_available [] (set_closed true self)) in
    let w' := {| trace := trace w ++ delta ++ [(Log INFO "Connection pool closed"%string, None)];
                 next_conn := next_conn w |} in
    close_all fl env (self, w) = (Return tt, (closed_pool, w'))
    /\ is_closed closed_pool = true
    /\ available_connections closed_pool = 0%Z
    /\ _pool closed_pool = []
    /\ closes delta = _available self
    /\ List.length (failed_closes delta) = close_warnings delta
    /\ close_all fl env (closed_pool, w')
       = (Return tt,
          (closed_pool, record_entry (Log INFO "Connection pool closed"%string, None) w')).
Proof.
  intros Hthrough.
  destruct (@close_all_cases env fl self w) as (delta & rest & Hrun & Hc & _ & _ & Hrest).
  destruct (Hrest Hthrough) as [-> Hf]. rewrite app_nil_r in Hc.
  exists delta. cbn zeta.
  split; [exact Hrun|]. split; [reflexivity|]. split; [reflexivity|]. split; [reflexivity|].
  split; [exact Hc|]. split; [exact Hf|].
  (* the second call: the pool is closed already and its queue is empty,
     the loop is not entered *)
  unfold close_all, bind, set_self, get_self. cbn.
  unfold bind, get_self. cbn. reflexivity.
Qed.

(** X13.  In the blocking pool, a [close()] that raises [queue.Empty] ends
    the drain of [close_all()]: when the connection at the head of the
    queue does so, [close_all()] logs no failure, leaves the rest of the
    queue where it is, unclosed, and returns with the pool marked closed
    and its list cleared. *)
Theorem sync_close_all_cut_short (self : Pool) (w : world) (c : conn) (q : list conn) :
  _available self = c :: q ->
  env (trace w ++ [(Get None, None)]) (Close c) = Some QueueEmpty ->
  close_all Sync env (self, w)
  = (Return tt,
     (set_pool [] (set_available q (set_closed true self)),
      {| trace := trace w ++ [(Get None, None); (Close c, Some QueueEmpty);
                              (Log INFO "Connection pool closed"%string, None)];
         next_conn := next_conn w |})).
Proof.
  intros Hq Hclose.
  unfold close_all, bind at 1, set_self at 1. cbn [fst snd].
  unfold bind at 1, get_self at 1. cbn [fst snd set_closed _available]. rewrite Hq.
  cbn [List.length drain].
  unfold bind at 1. unfold bind at 1, get_self at 1. cbn [fst snd set_closed _available].
  rewrite Hq. cbn [is_empty].
  unfold bind at 1, try_except at 1, bind at 1, get_for_close, bind at 1, lift at 1, emit.
  cbn [fst snd set_closed _available record_entry trace next_conn]. rewrite Hq.
  unfold bind at 1, lift at 1, call. cbn [fst snd trace next_conn].
  match goal with |- context [env ?t (Close c)] =>
    replace (env t (Close c)) with (Some QueueEmpty) by (symmetry; exact Hclose) end.
  unfold ret, set_self, lift, log, emit, record_entry. cbn.
  rewrite <- !app_assoc. reflexivity.
Qed.

(** *** A closed pool *)

Lemma run_call_closed fl (call : pool_call) (self : Pool) (w : world) :
  _closed self = true -> _available self = [] ->
  exists delta self',
    run_call fl env call (self, w)
    = (self', {| trace := trace w ++ delta; next_conn := next_conn w |})
    /\ _closed self' = true /\ _available self' = []
    /\ closes delta = released [call]
    /\ constructs delta = [] /\ gets delta = [].
Proof.
  intros Hclosed Hqueue. destruct call as [|c|]; cbn [run_call].
  - exists [], self. unfold acquire, bind, get_self. cbn [fst snd]. rewrite Hclosed.
    cbn. rewrite app_nil_r. destruct w. repeat split; assumption.
  - unfold release. rewrite bind_emit. unfold bind, get_self. cbn [fst snd]. rewrite Hclosed.
    unfold close_quietly, try_except, lift, call, except_Exception. cbn.
    match goal with |- context [env ?t (Close c)] => destruct (env t (Close c)) as [tag|] end;
      cbn; eexists; exists self; rewrite <- app_assoc;
      (split; [reflexivity|]); repeat split; assumption.
  - unfold close_all, bind, set_self, get_self. cbn. rewrite Hqueue. cbn.
    unfold bind, get_self. cbn.
    exists [(Log INFO "Connection pool closed"%string, None)],
           (set_pool [] (set_closed true self)).
    repeat split. exact Hqueue.
Qed.

Lemma run_calls_closed fl (calls : list pool_call) :
  forall (self : Pool) (w : world),
    _closed self = true -> _available self = [] ->
    exists delta self',
      run_calls fl env calls (self, w)
      = (self', {| trace := trace w ++ delta; next_conn := next_conn w |})
      /\ _closed self' = true /\ _available self' = []
      /\ closes delta = released calls
      /\ constructs delta = [] /\ gets delta = [].
Proof.
  induction calls as [|call calls IH]; intros self w Hclosed Hqueue.
  - exists [], self. cbn. rewrite app_nil_r. destruct w. repeat split; assumption.
  - destruct (@run_call_closed fl call self w Hclosed Hqueue)
      as (d1 & self1 & Hrun1 & Hc1 & Hq1 & Hcl1 & Hk1 & Hg1).
    cbn [run_calls fold_left]. rewrite Hrun1.
    destruct (IH self1 {| trace := trace w ++ d1; next_conn := next_conn w |} Hc1 Hq1)
      as (d2 & self2 & Hrun2 & Hc2 & Hq2 & Hcl2 & Hk2 & Hg2).
    unfold run_calls in Hrun2. rewrite Hrun2. cbn [trace next_conn].
    exists (d1 ++ d2), self2. rewrite app_assoc.
    split; [reflexivity|]. split; [exact Hc2|]. split; [exact Hq2|].
    rewrite closes_app, constructs_app, gets_app, Hcl1, Hcl2, Hk1, Hk2, Hg1, Hg2.
    cbn. rewrite app_nil_r. repeat split.
Qed.

(** X14.  Once [close_all()] has run and drained the queue (in the
    blocking pool: provided no [close()] raises [queue.Empty]) the pool is
    dead.  Whatever calls follow, it stays closed and its queue stays
    empty; it constructs no connection and waits on no queue; every
    connection released to it is closed, in the order of the releases, and
    nothing else is; and [acquire()] raises [ConnectionError] at once. *)
Theorem closed_pool_stays_closed (fl : flavour) (self : Pool) (w : world)
    (calls : list pool_call) :
  drains_through fl env ->
  let closed := snd (close_all fl env (self, w)) in
  let ended := run_calls fl env calls closed in
  exists delta,
    trace (snd ended) = trace (snd closed) ++ delta
    /\ next_conn (snd ended) = next_conn w
    /\ is_closed (fst ended) = true
    /\ available_connections (fst ended) = 0%Z
    /\ closes delta = released calls
    /\ constructs delta = [] /\ gets delta = []
    /\ acquire fl env ended
       = (Raise (ConnectionError "Connection pool is closed" None), ended).
Proof.
  intros Hthrough closed ended. subst ended closed.
  destruct (@close_all_cases env fl self w) as (d0 & rest & Hrun0 & _ & _ & _ & Hrest).
  destruct (Hrest Hthrough) as [-> _].
  rewrite Hrun0. cbn [snd].
  match goal with |- context [run_calls fl env calls (?s0, ?w0)] =>
    destruct (@run_calls_closed fl calls s0 w0 eq_refl eq_refl)
      as (delta & self' & Hrun & Hc & Hq & Hcl & Hk & Hg) end.
  rewrite Hrun. cbn [fst snd trace next_conn]. exists delta.
  split; [reflexivity|]. split; [reflexivity|]. split; [exact Hc|].
  split; [unfold available_connections; rewrite Hq; reflexivity|].
  split; [exact Hcl|]. split; [exact Hk|]. split; [exact Hg|].
  unfold acquire, bind, get_self. cbn [fst snd]. rewrite Hc. reflexivity.
Qed.

(** *** Round trips *)

Lemma executor_entries d :
  forallb executor_entry d = true ->
  releases d = [] /\ closes d = [] /\ constructs d = [].
Proof.
  induction d as [|[ev r] d IH]; cbn; [auto|].
  intros H. apply andb_true_iff in H. destruct H as [H1 H2].
  destruct (IH H2) as (Hr & Hc & Hk).
  destruct ev; cbn in *; auto; discriminate.
Qed.

(** A delay that is [inf] is at least [float_limit]. *)
Lemma backoff_infinite (retry_delay : Q) (attempt : nat) :
  backoff retry_delay attempt = Return (Infinity false) ->
  (Z.of_nat attempt < 1024)%Z
  /\ (inject_Z float_limit <= retry_delay * inject_Z (2 ^ Z.of_nat attempt))%Q.
Proof.
  unfold backoff. destruct (1024 <=? Z.of_nat attempt)%Z eqn:Hbig; [discriminate|].
  apply Z.leb_gt in Hbig.
  destruct (Qle_bool _ (Qabs _)) eqn:Hlimit; [|discriminate].
  intros H. injection H as Hsign. apply negb_false_iff in Hsign.
  apply Qle_bool_iff in Hlimit, Hsign.
  split; [exact Hbig|]. rewrite Qabs_pos in Hlimit by exact Hsign. exact Hlimit.
Qed.

(** The executor comes back when the operation does and no sleep is
    endless. *)
Lemma retry_loop_returns {A} fl mr delay (op : operation A) c :
  (forall n, op n c <> Blocked) ->
  (fl = Async -> never_waits_forever mr delay) ->
  forall attempts last w,
    fst (retry_loop fl env mr delay op c attempts last w) <> Blocked.
Proof.
  intros Hop Hfinite. induction attempts as [|a rest IH]; intros last w; [discriminate|].
  cbn [retry_loop]. unfold try_except, invoke, except_Exception.
  specialize (Hop a). destruct (op a c) as [v|e|]; [discriminate| |congruence].
  destruct (is_Exception e); [|discriminate].
  unfold bind at 1.
  destruct (Z.of_nat a <? mr)%Z eqn:Ha.
  - unfold bind, eval, log, emit. cbn [fst snd].
    destruct (backoff delay a) as [d|e'|] eqn:Hd; [|cbn; discriminate|].
    2: { exfalso. unfold backoff in Hd.
         destruct (1024 <=? Z.of_nat a)%Z; [discriminate|].
         destruct (Qle_bool _ _); discriminate. }
    destruct fl.
    + destruct d as [q|[|]]; cbn; try apply IH.
      exfalso. apply backoff_infinite in Hd. destruct Hd as [H1024 Hbig].
      apply Z.ltb_lt in Ha.
      exact (Qlt_not_le _ _ (Hfinite eq_refl a Ha H1024) Hbig).
    + cbn. unfold call. cbn.
      match goal with |- context [env ?t ?ev] => destruct (env t ev) end; cbn;
        [discriminate | apply IH].
  - unfold log, emit. cbn. apply IH.
Qed.

(** The executor of the pool on connection [c]: it leaves the pool as it
    is and writes only its own entries. *)
Lemma pool_executor_step {A} fl (op : operation A) c (self : Pool) (w : world) :
  exists delta,
    snd (pool_execute_with_retry fl env op c (self, w))
    = (self, {| trace := trace w ++ delta; next_conn := next_conn w |})
    /\ forallb executor_entry delta = true.
Proof.
  unfold pool_execute_with_retry, bind, get_self, _execute_with_retry. cbn [fst snd].
  destruct (retry_loop_bound fl env (_max_retries self) (_retry_delay self) op c
              (range (_max_retries self + 1)) None w) as (delta & Hsnd & _ & Hd).
  unfold lift in *. cbn [fst snd] in *.
  destruct (retry_loop fl env (_max_retries self) (_retry_delay self) op c
              (range (_max_retries self + 1)) None w) as [r w'].
  cbn [fst snd] in *. subst w'.
  exists delta. split; [reflexivity | exact Hd].
Qed.

Section Healthy.
Hypothesis alive : forall t c, env t (Version c) = None.

(** [acquire] on a pool that holds connections, all of them alive. *)
Lemma acquire_alive fl (self : Pool) (w : world) c q :
  _closed self = false -> _pool self <> [] -> _available self = c :: q ->
  acquire fl env (self, w)
  = (Return c,
     (set_available q self,
      record_entry (Version c, None) (record_entry (Get (Some acquire_timeout), None) w))).
Proof.
  intros Hopen Hpool Hq. rewrite (@acquire_open env fl self w Hopen).
  destruct (_pool self) as [|c0 p] eqn:Hp; [congruence|]. cbn [is_empty].
  pose proof (@acquire_wait_cases env fl self w) as Hcases. cbn zeta in Hcases.
  rewrite Hq, alive in Hcases. exact Hcases.
Qed.

Lemma execute_round_trip {A} fl (op : operation A) (self : Pool) (w : world) c q :
  _closed self = false -> _pool self <> [] -> capacity_ok self ->
  _available self = c :: q ->
  (forall n, op n c <> Blocked) ->
  (fl = Async -> never_waits_forever (_max_retries self) (_retry_delay self)) ->
  exists delta,
    snd (execute_with_connection fl env op (self, w))
    = (set_available (q ++ [c]) self,
       {| trace := trace w ++ delta; next_conn := next_conn w |})
    /\ releases delta = [c] /\ closes delta = [] /\ constructs delta = [].
Proof.
  intros Hopen Hpool Hcap Hq Hop Hfinite.
  unfold execute_with_connection, with_connection, bind.
  rewrite (@acquire_alive fl self w c q Hopen Hpool Hq). unfold try_finally.
  match goal with |- context [pool_execute_with_retry fl env op c (?s1, ?w1)] =>
    destruct (@pool_executor_step A fl op c s1 w1) as (d & Hsnd & Hd);
    pose proof (@retry_loop_returns A fl (_max_retries s1) (_retry_delay s1) op c Hop
                  Hfinite (range (_max_retries s1 + 1)) None w1) as Hret;
    assert (Hfst : fst (pool_execute_with_retry fl env op c (s1, w1)) <> Blocked)
      by (unfold pool_execute_with_retry, bind, get_self, lift, _execute_with_retry;
          cbn [fst snd];
          destruct (retry_loop fl env (_max_retries s1) (_retry_delay s1) op c
                      (range (_max_retries s1 + 1)) None w1); exact Hret);
    destruct (pool_execute_with_retry fl env op c (s1, w1)) as [r s2]
  end.
  cbn [fst snd] in Hsnd, Hfst. subst s2.
  match goal with |- context [release env c (?s2, ?w2)] =>
    pose proof (@release_alive c s2 w2 Hopen (alive _ c)) as Hrel end.
  cbn zeta in Hrel. rewrite (@full_after_get self c q Hcap Hq) in Hrel.
  destruct (executor_entries d Hd) as (Hr & Hc & Hk).
  exists ([(Get (Some acquire_timeout), None); (Version c, None)] ++ d
          ++ [(Enter_release c, None); (Version c, None)]).
  destruct r as [v|e|]; [| |congruence]; rewrite Hrel; cbn [fst snd];
    (split; [cbn; rewrite <- !app_assoc; reflexivity|]);
    rewrite !releases_app, !closes_app, !constructs_app, Hr, Hc, Hk; repeat split.
Qed.

Lemma capacity_rotated (self : Pool) (q q' : list conn) :
  capacity_ok self -> _available self = q -> List.length q' = List.length q ->
  capacity_ok (set_available q' self).
Proof.
  unfold capacity_ok. cbn. intros Hcap Hq Hlen Hpos. rewrite Hlen, <- Hq. auto.
Qed.

Lemma executions_rotate_queue {A} fl (ops : list (operation A)) :
  forall (served waiting : list conn) (self : Pool) (w : world),
    List.length ops = List.length served ->
    _closed self = false -> _pool self <> [] -> capacity_ok self ->
    _available self = served ++ waiting ->
    (forall op c n, In op ops -> op n c <> Blocked) ->
    (fl = Async -> never_waits_forever (_max_retries self) (_retry_delay self)) ->
    exists delta,
      run_executions fl env ops (self, w)
      = (set_available (waiting ++ served) self,
         {| trace := trace w ++ delta; next_conn := next_conn w |})
      /\ releases delta = served /\ closes delta = [] /\ constructs delta = [].
Proof.
  induction ops as [|op ops IH];
    intros served waiting self w Hlen Hopen Hpool Hcap Hq Hops Hfinite.
  - destruct served; [|discriminate]. cbn in Hq.
    exists []. cbn. rewrite !app_nil_r, <- Hq. destruct self, w. repeat split.
  - destruct served as [|c served]; [discriminate|]. cbn in Hlen, Hq.
    destruct (@execute_round_trip A fl op self w c (served ++ waiting) Hopen Hpool Hcap Hq)
      as (d1 & Hrun1 & Hr1 & Hc1 & Hk1);
      [intros n; apply Hops; left; reflexivity | exact Hfinite |].
    cbn [run_executions fold_left]. rewrite Hrun1.
    destruct (IH served (waiting ++ [c]) (set_available ((served ++ waiting) ++ [c]) self)
                {| trace := trace w ++ d1; next_conn := next_conn w |})
      as (d2 & Hrun2 & Hr2 & Hc2 & Hk2).
    + lia.
    + exact Hopen.
    + exact Hpool.
    + apply (@capacity_rotated self (c :: served ++ waiting)); auto.
      rewrite !length_app. cbn. rewrite length_app. lia.
    + cbn. rewrite <- app_assoc. reflexivity.
    + intros op' c' n Hin. apply Hops. right. exact Hin.
    + exact Hfinite.
    + unfold run_executions in Hrun2. rewrite Hrun2. cbn [trace next_conn].
      exists (d1 ++ d2). rewrite app_assoc.
      replace ((waiting ++ [c]) ++ served) with (waiting ++ c :: served)
        by (rewrite <- app_assoc; reflexivity).
      split; [reflexivity|].
      rewrite releases_app, closes_app, constructs_app, Hr1, Hr2, Hc1, Hc2, Hk1, Hk2.
      repeat split.
Qed.
End Healthy.
End PoolLifecycle.

Lemma closed_pool_stays_closed_witness :
  acquire Sync first_connection_stale
    (run_calls Sync first_connection_stale [Release 0; Close_all]
       (snd (close_all Sync first_connection_stale (warm_pool, new_world))))
  = (Raise (ConnectionError "Connection pool is closed" None),
     run_calls Sync first_connection_stale [Release 0; Close_all]
       (snd (close_all Sync first_connection_stale (warm_pool, new_world)))).
Proof.
  destruct (@closed_pool_stays_closed first_connection_stale Sync warm_pool new_world
              [Release 0; Close_all]) as (delta & _ & _ & _ & _ & _ & _ & _ & Hacquire).
  - intros _ t c. destruct c as [|c]; discriminate.
  - exact Hacquire.
Defined.

Lemma close_all_contract_witness :
  closes (trace (snd (snd (close_all Sync first_connection_stale (warm_pool, new_world)))))
  = [0; 1].
Proof.
  destruct (@close_all_contract first_connection_stale Sync warm_pool new_world)
    as (delta & Hrun & _ & _ & _ & Hc & _).
  - intros _ t c. destruct c as [|c]; discriminate.
  - rewrite Hrun. cbn [fst snd trace new_world app].
    rewrite closes_app, Hc. reflexivity.
Defined.

Lemma sync_close_all_cut_short_witness :
  closes (trace (snd (snd (close_all Sync first_close_raises_empty (warm_pool, new_world)))))
  = [0]
  /\ _available (fst (snd (close_all Sync first_close_raises_empty (warm_pool, new_world))))
     = [1].
Proof.
  rewrite (@sync_close_all_cut_short first_close_raises_empty warm_pool new_world 0 [1]
             eq_refl eq_refl).
  split; reflexivity.
Defined.

(** X15.  An open pool that holds connections, with its queue within its
    capacity, serves them in turn as long as they are alive, the
    operations come back and, in the asyncio pool, no delay of the retry
    policy is [inf] (so that [asyncio.sleep] comes back too).  Each
    [execute_with_connection] takes the connection at the head of the queue
    and, whether its operation succeeded or not, puts it back at the tail:
    after as many executions as there are connections in [served], these
    have moved behind the ones in [waiting], in their order; they are the
    connections released, no connection was closed and none constructed. *)
Theorem executions_rotate {A} (fl : flavour) (env : oracle) (ops : list (operation A))
    (served waiting : list conn) (self : Pool) (w : world) :
  (forall t c, env t (Version c) = None) ->
  (forall op c n, In op ops -> op n c <> Blocked) ->
  (fl = Async -> never_waits_forever (_max_retries self) (_retry_delay self)) ->
  List.length ops = List.length served ->
  _closed self = false -> _pool self <> [] -> capacity_ok self ->
  _available self = served ++ waiting ->
  exists delta,
    run_executions fl env ops (self, w)
    = (set_available (waiting ++ served) self,
       {| trace := trace w ++ delta; next_conn := next_conn w |})
    /\ releases delta = served /\ closes delta = [] /\ constructs delta = [].
Proof.
  intros Halive Hops Hfinite Hlen Hopen Hpool Hcap Hq.
  destruct (@executions_rotate_queue env Halive A fl ops served waiting self w
              Hlen Hopen Hpool Hcap Hq Hops Hfinite) as (delta & Hrun & H).
  exists delta. split; [exact Hrun | exact H].
Qed.

Lemma executions_rotate_witness :
  exists delta,
    run_executions Async all_well [flaky_operation; failing_operation]
      (set_available [0; 1; 2] (set_pool [0; 1; 2] (new_pool 3)),
       {| trace := []; next_conn := 3 |})
    = (set_available [2; 0; 1] (set_pool [0; 1; 2] (new_pool 3)),
       {| trace := delta; next_conn := 3 |})
    /\ releases delta = [0; 1].
Proof.
  destruct (@executions_rotate nat Async all_well [flaky_operation; failing_operation]
              [0; 1] [2] (set_available [0; 1; 2] (set_pool [0; 1; 2] (new_pool 3)))
              {| trace := []; next_conn := 3 |})
    as (delta & Hrun & Hr & _).
  - reflexivity.
  - intros op c n [<-|[<-|[]]]; [destruct n as [|[|n]] |]; discriminate.
  - intros _ i Hi _. cbn in Hi.
    assert (Hcases : i = 0 \/ i = 1 \/ i = 2) by lia.
    destruct Hcases as [->|[->| ->]]; vm_compute; reflexivity.
  - reflexivity.
  - reflexivity.
  - discriminate.
  - unfold capacity_ok. cbn. lia.
  - reflexivity.
  - exists delta. split; [exact Hrun | exact Hr].
Defined.

(** ** ConnectionPool: the first [acquire] *)

Section FirstAcquire.
Variable env : oracle.

Ltac run_creation :=
  unfold _create_connection, construct, try_except, except_Exception, bind, get_self,
    set_self, lift, call, emit, log, ret, raise, record_entry; cbn.

(** *** A server that cannot be reached *)

Section Unreachable.
Hypothesis unreachable : forall t c, env t (Construct c) <> None.

Lemma create_connection_unreachable (self : Pool) (w : world) :
  exists tag,
    _create_connection env (self, w)
    = (Raise (ConnectionError "Failed to create connection" (Some (Failure tag))),
       (self, {| trace := trace w ++ [(Construct (next_conn w), Some tag);
                                      (Log ERROR "Failed to create connection", None)];
                 next_conn := S (next_conn w) |})).
Proof.
  run_creation. destruct (env (trace w) (Construct (next_conn w))) as [tag|] eqn:E.
  - exists tag. cbn. rewrite <- app_assoc. reflexivity.
  - exfalso. eapply unreachable. exact E.
Qed.

Lemma initialize_loop_unreachable :
  forall iterations (self : Pool) (w : world),
    exists delta,
      initialize_loop env iterations (self, w)
      = (Return tt,
         (self, {| trace := trace w ++ delta;
                   next_conn := next_conn w + List.length iterations |}))
      /\ created delta = [] /\ closes delta = [] /\ gets delta = []
      /\ List.length (constructs delta) = List.length iterations
      /\ initializations delta = 0.
Proof.
  induction iterations as [|i rest IH]; intros self w.
  - exists []. cbn. rewrite app_nil_r, Nat.add_0_r. destruct w. repeat split.
  - cbn [initialize_loop]. unfold bind at 1, try_except at 1, bind at 1.
    destruct (create_connection_unreachable self w) as (tag & ->).
    unfold except_Exception. cbn [is_Exception]. unfold lift, log, emit. cbn [fst snd].
    match goal with |- context [initialize_loop env rest (self, ?w')] =>
      destruct (IH self w') as (d & Hrun & Hcr & Hcl & Hg & Hk & Hi) end.
    rewrite Hrun. cbn [trace next_conn record_entry].
    exists ([(Construct (next_conn w), Some tag);
             (Log ERROR "Failed to create connection"%string, None);
             (Log ERROR "Failed to initialize connection"%string, None)] ++ d).
    rewrite created_app, closes_app, gets_app, constructs_app, initializations_app,
      Hcr, Hcl, Hg, Hi, length_app, Hk.
    split; [|repeat split].
    rewrite <- !app_assoc. cbn. repeat f_equal. lia.
Qed.
End Unreachable.

(** *** A server that answers *)

Section Reachable.
Hypothesis healthy : forall t ev, env t ev = None.

Lemma create_connection_healthy (self : Pool) (w : world) :
  exists delta,
    _create_connection env (self, w)
    = (Return (next_conn w),
       (self, {| trace := trace w ++ delta; next_conn := S (next_conn w) |}))
    /\ closes delta = [] /\ gets delta = [] /\ initializations delta = 0.
Proof.
  run_creation. rewrite healthy. cbn.
  destruct (is_empty (_auth_params self)); cbn; rewrite !healthy; cbn;
    eexists; (split; [rewrite <- !app_assoc; reflexivity|]); repeat split.
Qed.

Lemma initialize_loop_healthy :
  forall iterations (self : Pool) (w : world),
    ((0 < _pool_size self)%Z ->
     (Z.of_nat (List.length (_available self) + List.length iterations)
      <= _pool_size self)%Z) ->
    exists delta self',
      initialize_loop env iterations (self, w)
      = (Return tt,
         (self', {| trace := trace w ++ delta;
                    next_conn := next_conn w + List.length iterations |}))
      /\ _pool self' = _pool self ++ seq (next_conn w) (List.length iterations)
      /\ _available self' = _available self ++ seq (next_conn w) (List.length iterations)
      /\ _pool_size self' = _pool_size self
      /\ _closed self' = _closed self
      /\ closes delta = [] /\ gets delta = [] /\ initializations delta = 0.
Proof.
  induction iterations as [|i rest IH]; intros self w Hcap.
  - exists [], self. cbn. rewrite !app_nil_r, Nat.add_0_r. destruct w. repeat split.
  - cbn [initialize_loop]. unfold bind at 1, try_except at 1, bind at 1.
    destruct (create_connection_healthy self w) as (d & -> & Hcl & Hg & Hi).
    unfold set_self, bind, put. cbn.
    replace (full (set_pool (_pool self ++ [next_conn w]) self)) with false
      by (symmetry; apply (@not_full _ (List.length rest)); exact Hcap).
    cbn.
    match goal with |- context [initialize_loop env rest (?s, ?w')] =>
      destruct (IH s w') as (d' & self' & Hrun & Hp & Ha & Hs & Hc & Hcl' & Hg' & Hi') end.
    { cbn. rewrite length_app. cbn.
      intros Hpos. specialize (Hcap Hpos). cbn in Hcap. lia. }
    rewrite Hrun. cbn in Hp, Ha, Hs, Hc |- *.
    exists (d ++ d'), self'.
    rewrite closes_app, gets_app, initializations_app, Hcl, Hcl', Hg, Hg', Hi, Hi'.
    repeat split; auto.
    + rewrite app_assoc. repeat f_equal. lia.
    + rewrite Hp, <- app_assoc. reflexivity.
    + rewrite Ha, <- app_assoc. reflexivity.
Qed.
End Reachable.
End FirstAcquire.

(** X16.  The first [acquire()] on a new pool while no connection can be
    constructed.  The initialization tries [pool_size] constructions and
    swallows every failure; the queue is still empty, so [acquire] waits its
    30 seconds and raises the [ConnectionError] of the timeout, which has no
    cause: the failures of the creations were only logged.  The pool is left
    as it was, open and without a connection. *)
Theorem acquire_when_unreachable (fl : flavour) (env : oracle) (self : Pool) (w : world) :
  (forall t c, env t (Construct c) <> None) ->
  _closed self = false -> _pool self = [] -> _available self = [] ->
  exists delta,
    acquire fl env (self, w)
    = (Raise (ConnectionError "Timeout waiting for available connection" None),
       (self, {| trace := trace w ++ delta;
                 next_conn := next_conn w + Z.to_nat (_pool_size self) |}))
    /\ List.length (constructs delta) = Z.to_nat (_pool_size self)
    /\ created delta = [] /\ closes delta = []
    /\ gets delta = [Some acquire_timeout].
Proof.
  intros Hdown Hopen Hpool Hqueue.
  rewrite (@acquire_open env fl self w Hopen), Hpool. cbn [is_empty].
  unfold _initialize_pool, bind at 1, get_self at 1. cbn [fst snd]. rewrite Hpool.
  cbn [is_empty negb]. unfold bind at 1, lift at 1, log, emit. cbn [fst snd].
  match goal with |- context [initialize_loop env ?l (self, ?w')] =>
    destruct (@initialize_loop_unreachable env Hdown l self w')
      as (d & Hrun & Hcr & Hcl & Hg & Hk & _) end.
  rewrite Hrun. unfold range in *. rewrite length_seq in *.
  pose proof (@acquire_wait_cases env fl self
                {| trace := trace (record_entry (Log INFO "Initializing connection pool", None) w) ++ d;
                   next_conn := next_conn w + Z.to_nat (_pool_size self) |}) as Hwait.
  cbn zeta in Hwait. rewrite Hqueue in Hwait. cbn in Hwait |- *. rewrite Hwait.
  exists ((Log INFO "Initializing connection pool"%string, None) :: d
          ++ [(Get (Some acquire_timeout), None)]).
  split; [rewrite <- !app_assoc; reflexivity|].
  change ((Log INFO "Initializing connection pool"%string, None) :: d
          ++ [(Get (Some acquire_timeout), None)])
    with ([(Log INFO "Initializing connection pool"%string, @None failure)]
          ++ d ++ [(Get (Some acquire_timeout), None)]).
  rewrite !constructs_app, !created_app, !closes_app, !gets_app, Hcr, Hcl, Hg.
  cbn. rewrite app_nil_r. repeat split. exact Hk.
Qed.

Lemma acquire_when_unreachable_witness :
  exists delta,
    acquire Async server_down (new_pool 2, new_world)
    = (Raise (ConnectionError "Timeout waiting for available connection" None),
       (new_pool 2, {| trace := delta; next_conn := 2 |}))
    /\ List.length (constructs delta) = 2.
Proof.
  destruct (@acquire_when_unreachable Async server_down (new_pool 2) new_world)
    as (delta & Hrun & Hk & _).
  - intros t c. discriminate.
  - reflexivity.
  - reflexivity.
  - reflexivity.
  - exists delta. split; [exact Hrun | exact Hk].
Defined.

(** X17.  A pool configured with [pool_size <= 0] holds no connection and
    never makes one: [range(pool_size)] is empty, so the initialization
    constructs nothing, and [acquire()] on the new pool waits its 30 seconds
    and raises [ConnectionError], whatever the server does.  The pool is
    left as it was, so that every further [acquire()] does the same. *)
Theorem acquire_without_capacity (fl : flavour) (env : oracle) (self : Pool) (w : world) :
  (_pool_size self <= 0)%Z ->
  _closed self = false -> _pool self = [] -> _available self = [] ->
  acquire fl env (self, w)
  = (Raise (ConnectionError "Timeout waiting for available connection" None),
     (self, {| trace := trace w ++ [(Log INFO "Initializing connection pool", None);
                                    (Get (Some acquire_timeout), None)];
               next_conn := next_conn w |})).
Proof.
  intros Hsize Hopen Hpool Hqueue.
  rewrite (@acquire_open env fl self w Hopen), Hpool. cbn [is_empty].
  unfold _initialize_pool, bind at 1, get_self at 1. cbn [fst snd]. rewrite Hpool.
  cbn [is_empty negb]. unfold range.
  replace (Z.to_nat (_pool_size self)) with 0 by lia.
  unfold bind, lift, log, emit. cbn.
  pose proof (@acquire_wait_cases env fl self
                (record_entry (Log INFO "Initializing connection pool", None) w)) as Hwait.
  cbn zeta in Hwait. rewrite Hqueue in Hwait. cbn in Hwait. rewrite Hwait.
  rewrite <- app_assoc. reflexivity.
Qed.

Lemma acquire_without_capacity_witness :
  acquire Sync all_well (new_pool 0, new_world)
  = (Raise (ConnectionError "Timeout waiting for available connection" None),
     (new_pool 0, {| trace := [(Log INFO "Initializing connection pool", None);
                               (Get (Some acquire_timeout), None)];
                     next_conn := 0 |})).
Proof.
  apply (@acquire_without_capacity Sync all_well (new_pool 0) new_world).
  - cbn. lia.
  - reflexivity.
  - reflexivity.
  - reflexivity.
Defined.

(** X18.  The first [acquire()] on a new pool of size [n > 0] whose server
    answers every call.  The initialization constructs [n] connections, which
    fill the pool list and the queue in the order of their construction;
    [acquire] hands out the first of them and leaves the [n - 1] others
    queued.  Nothing is closed, and the queue is waited on once. *)
Theorem first_acquire_fills_pool (fl : flavour) (env : oracle) (self : Pool) (w : world) :
  (forall t ev, env t ev = None) ->
  (0 < _pool_size self)%Z ->
  _closed self = false -> _pool self = [] -> _available self = [] ->
  exists delta self',
    acquire fl env (self, w)
    = (Return (next_conn w),
       (self', {| trace := trace w ++ delta;
                  next_conn := next_conn w + Z.to_nat (_pool_size self) |}))
    /\ _pool self' = seq (next_conn w) (Z.to_nat (_pool_size self))
    /\ _available self' = seq (S (next_conn w)) (Z.to_nat (_pool_size self) - 1)
    /\ available_connections self' = (_pool_size self - 1)%Z
    /\ pool_size self' = pool_size self
    /\ is_closed self' = false
    /\ closes delta = [] /\ gets delta = [Some acquire_timeout]
    /\ initializations delta = 1.
Proof.
  intros Hhealthy Hsize Hopen Hpool Hqueue.
  rewrite (@acquire_open env fl self w Hopen), Hpool. cbn [is_empty].
  unfold _initialize_pool, bind at 1, get_self at 1. cbn [fst snd]. rewrite Hpool.
  cbn [is_empty negb]. unfold bind at 1, lift at 1, log, emit. cbn [fst snd].
  match goal with |- context [initialize_loop env ?l (self, ?w')] =>
    destruct (@initialize_loop_healthy env Hhealthy l self w')
      as (d & self0 & Hrun & Hp & Ha & Hs & Hc & Hcl & Hg & Hi) end.
  { rewrite Hqueue. unfold range. rewrite length_seq. cbn. lia. }
  rewrite Hrun. unfold range in *. rewrite length_seq in *.
  rewrite Hpool in Hp. rewrite Hqueue in Ha. cbn [app record_entry next_conn] in Hp, Ha.
  destruct (Z.to_nat (_pool_size self)) as [|n] eqn:Hn; [lia|].
  cbn [seq] in Ha.
  match goal with |- context [acquire_wait fl env (self0, ?w0)] =>
    pose proof (@acquire_wait_cases env fl self0 w0) as Hwait end.
  cbn zeta in Hwait. rewrite Ha, Hhealthy in Hwait. rewrite Hwait.
  exists ((Log INFO "Initializing connection pool"%string, None) :: d
          ++ [(Get (Some acquire_timeout), None); (Version (next_conn w), None)]),
         (set_available (seq (S (next_conn w)) n) self0).
  split; [cbn; rewrite <- !app_assoc; reflexivity|].
  split; [exact Hp|].
  split; [cbn; rewrite Nat.sub_0_r; reflexivity|].
  split; [unfold available_connections; cbn; rewrite length_seq; lia|].
  split; [exact Hs|].
  split; [unfold is_closed; cbn; congruence|].
  change ((Log INFO "Initializing connection pool"%string, None) :: d
          ++ [(Get (Some acquire_timeout), None); (Version (next_conn w), None)])
    with ([(Log INFO "Initializing connection pool"%string, @None failure)]
          ++ d ++ [(Get (Some acquire_timeout), None); (Version (next_conn w), None)]).
  rewrite !closes_app, !gets_app, !initializations_app, Hcl, Hg, Hi.
  repeat split.
Qed.

Lemma first_acquire_fills_pool_witness :
  exists delta self',
    acquire Async all_well (new_pool 3, new_world)
    = (Return 0, (self', {| trace := delta; next_conn := 3 |}))
    /\ _pool self' = [0; 1; 2]
    /\ _available self' = [1; 2].
Proof.
  destruct (@first_acquire_fills_pool Async all_well (new_pool 3) new_world)
    as (delta & self' & Hrun & Hp & Ha & _).
  - reflexivity.
  - cbn. lia.
  - reflexivity.
  - reflexivity.
  - reflexivity.
  - exists delta, self'. split; [exact Hrun|]. split; [exact Hp | exact Ha].
Defined.

(** ** ConnectionPool: what it never does, and its two flavours *)

Lemma forallb_no_close_closes d : forallb no_close d = true -> closes d = [].
Proof.
  induction d as [|[ev r] d IH]; cbn; auto.
  intros H. apply andb_true_iff in H. destruct H as [H1 H2].
  destruct ev; cbn in *; auto; discriminate.
Qed.

Lemma failed_probes_app t1 t2 : failed_probes (t1 ++ t2) = failed_probes t1 ++ failed_probes t2.
Proof. apply flat_map_app. Qed.

Section Never.
Variable env : oracle.

(** X19.  [acquire()] never closes a connection, and it never releases one:
    whatever the collaborators do, no [close()] is among the calls it
    makes.  In particular the connection that fails its probe is left
    open. *)
Theorem acquire_never_closes (fl : flavour) (s : Pool * world) :
  exists delta,
    trace (snd (snd (acquire fl env s))) = trace (snd s) ++ delta
    /\ closes delta = []
    /\ releases delta = [].
Proof.
  assert (Hstep : step (fun x => no_close x && no_release x) s (snd (acquire fl env s))).
  { apply step_acquire; intros; reflexivity. }
  destruct Hstep as [(delta & Ht & Hd) _ _ _ _].
  exists delta. split; [exact Ht|].
  assert (Hboth : forallb no_close delta = true /\ forallb no_release delta = true).
  { clear Ht. induction delta as [|x d IH]; [split; reflexivity|].
    cbn in Hd |- *. apply andb_true_iff in Hd. destruct Hd as [Hx Hd].
    apply andb_true_iff in Hx. destruct Hx as [-> ->]. cbn. exact (IH Hd). }
  destruct Hboth as [Hc Hr].
  split; [apply forallb_no_close_closes; exact Hc
         | apply forallb_no_release_releases; exact Hr].
Qed.
End Never.

Lemma closing_entries d :
  forallb closing_entry d = true -> constructs d = [] /\ failed_probes d = [].
Proof.
  induction d as [|[ev r] d IH]; cbn; [auto|].
  intros H. apply andb_true_iff in H. destruct H as [H1 H2].
  destruct (IH H2) as (Hk & Hp).
  destruct ev; cbn in *; auto; discriminate.
Qed.

Section Flavours.
Variable env : oracle.

Lemma acquire_wait_flavour (s : Pool * world) :
  acquire_wait Sync env s = acquire_wait Async env s.
Proof.
  destruct s as [self w].
  unfold acquire_wait, try_except, bind, get_with_timeout, lift, emit. cbn.
  destruct (_available self) as [|c q]; [reflexivity|]. cbn.
  unfold call. cbn.
  match goal with |- context [env ?t (Version c)] => destruct (env t (Version c)) end;
    cbn; [|reflexivity].
  unfold log, emit. cbn.
  match goal with |- context [_create_connection env (?s0, ?w0)] =>
    destruct (@create_connection_cases env s0 w0) as (d & _ & _ & _ & _ & _ & _ & Hres);
    destruct (_create_connection env (s0, w0)) as [r s1] end.
  cbn in Hres. destruct Hres as [[_ ->]|[_ (tag & ->)]]; reflexivity.
Qed.

Lemma acquire_flavour (s : Pool * world) : acquire Sync env s = acquire Async env s.
Proof.
  destruct s as [self w]. unfold acquire, bind at 1 3, get_self. cbn [fst snd].
  destruct (_closed self); [reflexivity|].
  unfold bind.
  destruct ((if is_empty (_pool self) then _initialize_pool env else ret tt) (self, w))
    as [[[]|e|] s0]; try reflexivity.
  apply acquire_wait_flavour.
Qed.

Section CloseNeverEmpty.
Hypothesis close_never_empty : forall t c, env t (Close c) <> Some QueueEmpty.

Lemma drain_flavour :
  forall fuel (s : Pool * world), drain Sync env fuel s = drain Async env fuel s.
Proof.
  induction fuel as [|fuel IH]; intros [self w]; [reflexivity|].
  cbn [drain]. unfold bind, get_self, try_except, get_for_close, lift, emit, call, log, ret.
  cbn -[drain].
  destruct (_available self) as [|c q] eqn:Hq; cbn -[drain]; [reflexivity|].
  rewrite Hq. cbn -[drain].
  match goal with |- context [env ?t (Close c)] =>
    destruct (env t (Close c)) as [f|] eqn:Hclose end;
    [destruct f; [| exfalso; exact (close_never_empty Hclose) |] |];
    cbn -[drain]; apply IH.
Qed.

Lemma close_all_flavour (s : Pool * world) : close_all Sync env s = close_all Async env s.
Proof.
  destruct s as [self w]. unfold close_all, bind, set_self, get_self. cbn -[drain].
  rewrite drain_flavour. reflexivity.
Qed.

Lemma run_calls_flavour (calls : list pool_call) :
  forall s : Pool * world, run_calls Sync env calls s = run_calls Async env calls s.
Proof.
  induction calls as [|call calls IH]; intros s; [reflexivity|].
  cbn [run_calls fold_left]. unfold run_calls in IH.
  replace (run_call Sync env call s) with (run_call Async env call s); [apply IH|].
  destruct call; cbn [run_call]; [rewrite acquire_flavour | | rewrite close_all_flavour];
    reflexivity.
Qed.

End CloseNeverEmpty.

(** X20.  Under sequential use, and as long as no [close()] raises
    [queue.Empty], the synchronous pool is the asynchronous one.  That an
    expired wait raises [queue.Empty] and not [asyncio.TimeoutError], and
    that the drain of [close_all] takes its items with [get_nowait], make
    no difference that can be observed: [acquire()], [close_all()] and
    every sequence of calls return the same, call the collaborators alike
    and leave the pool in the same state.  (A [close()] that raises
    [queue.Empty] is where the two part: the blocking pool leaves its
    drain there.) *)
Theorem pool_flavours_agree (s : Pool * world) :
  (forall t c, env t (Close c) <> Some QueueEmpty) ->
  acquire Sync env s = acquire Async env s
  /\ close_all Sync env s = close_all Async env s
  /\ forall calls, run_calls Sync env calls s = run_calls Async env calls s.
Proof.
  intros Hclose.
  split; [apply acquire_flavour|]. split; [apply close_all_flavour; exact Hclose|].
  intros calls. apply run_calls_flavour. exact Hclose.
Qed.
End Flavours.

Lemma pool_flavours_agree_witness :
  run_calls Sync first_connection_stale [Acquire; Release 2; Close_all]
    (warm_pool, {| trace := []; next_conn := 2 |})
  = run_calls Async first_connection_stale [Acquire; Release 2; Close_all]
      (warm_pool, {| trace := []; next_conn := 2 |}).
Proof.
  refine (proj2 (proj2 (@pool_flavours_agree first_connection_stale
                          (warm_pool, {| trace := []; next_conn := 2 |}) _)) _).
  intros t c. destruct c as [|c]; discriminate.
Defined.

Section Constructions.
Variable env : oracle.

Lemma close_all_entries fl (self : Pool) (w : world) :
  exists delta,
    trace (snd (snd (close_all fl env (self, w)))) = trace w ++ delta
    /\ constructs delta = [] /\ failed_probes delta = [].
Proof.
  destruct (@close_all_cases env fl self w) as (d & rest & Hrun & _ & _ & Hd & _).
  destruct (closing_entries d Hd) as (Hk & Hp).
  rewrite Hrun. cbn [fst snd trace].
  exists (d ++ [(Log INFO "Connection pool closed"%string, None)]).
  rewrite constructs_app, failed_probes_app, Hk, Hp. repeat split.
Qed.

(** One call on a pool that needs no initialization: a connection is
    constructed only after a probe has failed. *)
Lemma run_call_constructions fl (call : pool_call) (s : Pool * world) :
  settled (fst s) ->
  exists delta,
    trace (snd (run_call fl env call s)) = trace (snd s) ++ delta
    /\ List.length (constructs delta) <= List.length (failed_probes delta).
Proof.
  intros Hsettled. destruct s as [self w]. cbn [fst snd] in *.
  destruct call as [|c|]; cbn [run_call].
  - (* acquire *)
    destruct (_closed self) eqn:Hclosed.
    + exists []. unfold acquire, bind, get_self. cbn. rewrite Hclosed. cbn.
      rewrite app_nil_r. split; [reflexivity | lia].
    + destruct Hsettled as [Hpool|Hc]; [|congruence].
      rewrite (@acquire_open env fl self w Hclosed).
      destruct (_pool self) as [|c0 p] eqn:Hp; [congruence|]. cbn [is_empty].
      pose proof (@acquire_wait_cases env fl self w) as Hcases. cbn zeta in Hcases.
      destruct (_available self) as [|c q].
      * rewrite Hcases. cbn. eexists. split; [reflexivity | cbn; lia].
      * match type of Hcases with match ?x with _ => _ end => destruct x as [tag|] end.
        -- destruct Hcases as (delta & Hsnd & _ & _ & _ & Hk & _).
           rewrite Hsnd. cbn. rewrite <- !app_assoc. cbn.
           eexists. split; [reflexivity|].
           change (constructs ((Get (Some acquire_timeout), None) :: (Version c, Some tag)
                     :: (Log WARNING "Connection validation failed, creating new one"%string, None)
                     :: delta)) with (constructs delta).
           change (failed_probes ((Get (Some acquire_timeout), None) :: (Version c, Some tag)
                     :: (Log WARNING "Connection validation failed, creating new one"%string, None)
                     :: delta)) with (c :: failed_probes delta).
           rewrite Hk. cbn. lia.
        -- rewrite Hcases. cbn. rewrite <- !app_assoc. cbn.
           eexists. split; [reflexivity | cbn; lia].
  - (* release *)
    destruct (_closed self) eqn:Hclosed.
    + rewrite (@release_closed env c self w Hclosed). cbn. rewrite <- !app_assoc.
      eexists. split; [reflexivity | cbn; lia].
    + destruct (env (trace (record_entry (Enter_release c, None) w)) (Version c))
        as [tag|] eqn:Hv.
      * destruct (@release_dead env c self w tag Hclosed Hv)
          as (delta & self' & Hrun & _ & _ & _ & _ & _ & _ & Hk & _).
        rewrite Hrun. cbn. rewrite <- !app_assoc. cbn.
        eexists. split; [reflexivity|].
        match goal with |- context [(Close c, ?r)] =>
          change (constructs ((Enter_release c, None) :: (Version c, Some tag)
                    :: (Log WARNING "Released connection is invalid, discarding"%string, None)
                    :: (Close c, r) :: delta)) with (constructs delta);
          change (failed_probes ((Enter_release c, None) :: (Version c, Some tag)
                    :: (Log WARNING "Released connection is invalid, discarding"%string, None)
                    :: (Close c, r) :: delta)) with (c :: failed_probes delta)
        end.
        rewrite Hk. destruct (_ <? _)%Z; cbn; lia.
      * rewrite (@release_alive env c self w Hclosed Hv).
        destruct (full self); cbn; rewrite <- !app_assoc;
          (eexists; split; [reflexivity | cbn; lia]).
  - (* close_all *)
    destruct (close_all_entries fl self w) as (delta & Ht & Hk & Hp).
    exists delta. split; [exact Ht|]. rewrite Hk. cbn. lia.
Qed.

(** X21.  A pool that holds a connection, or is closed, constructs a
    connection only to replace one whose liveness probe failed: over any
    sequence of [acquire], [release] and [close_all], whatever the
    collaborators do, the connections constructed are no more than the
    probes that failed. *)
Theorem constructions_follow_failed_probes (fl : flavour) (calls : list pool_call)
    (s : Pool * world) :
  settled (fst s) ->
  exists delta,
    trace (snd (run_calls fl env calls s)) = trace (snd s) ++ delta
    /\ List.length (constructs delta) <= List.length (failed_probes delta).
Proof.
  revert s. induction calls as [|call calls IH]; intros s Hs.
  - exists []. cbn. rewrite app_nil_r. split; [reflexivity | lia].
  - destruct (@run_call_constructions fl call s Hs) as (d1 & Ht1 & Hn1).
    destruct (@run_call_settled env fl call s Hs) as (Hs' & _).
    destruct (IH _ Hs') as (d2 & Ht2 & Hn2).
    exists (d1 ++ d2). cbn [run_calls fold_left]. unfold run_calls in Ht2.
    rewrite Ht2, Ht1, app_assoc. split; [reflexivity|].
    rewrite constructs_app, failed_probes_app, !length_app. lia.
Qed.
End Constructions.

Lemma constructions_follow_failed_probes_witness :
  exists delta,
    trace (snd (run_calls Async first_connection_stale [Acquire; Release 2; Close_all]
                  (warm_pool, {| trace := []; next_conn := 2 |})))
    = delta
    /\ List.length (constructs delta) <= List.length (failed_probes delta).
Proof.
  destruct (@constructions_follow_failed_probes first_connection_stale Async
              [Acquire; Release 2; Close_all] (warm_pool, {| trace := []; next_conn := 2 |}))
    as (delta & Ht & Hn).
  - left. discriminate.
  - exists delta. split; [exact Ht | exact Hn].
Defined.

(** ** ConnectionPool: [_create_connection] *)

(** X22.  [_create_connection()] constructs one connection object, signs in
    when there are authentication parameters, and selects the namespace and
    database, in this order.  The first of these calls that raises ends the
    creation: no later call is made, the failure is logged, and
    [ConnectionError] is raised with that failure as its cause.  The
    connection object constructed is not closed, also when its sign-in or
    its [use] failed. *)
Theorem create_connection_contract (env : oracle) (self : Pool) (w : world) :
  let c := next_conn w in
  exists delta,
    snd (_create_connection env (self, w))
    = (self, {| trace := trace w ++ delta; next_conn := S c |})
    /\ constructs delta = [c]
    /\ closes delta = []
    /\ match fst (_create_connection env (self, w)) with
       | Return c' => c' = c /\ delta = creation_calls self c
       | Raise e =>
           exists n failed tag,
             nth_error (creation_calls self c) n = Some (failed, None)
             /\ delta = firstn n (creation_calls self c)
                        ++ [(failed, Some tag); (Log ERROR "Failed to create connection", None)]
             /\ e = ConnectionError "Failed to create connection" (Some (Failure tag))
       | Blocked => False
       end.
Proof.
  cbn zeta.
  unfold _create_connection, construct, try_except, except_Exception, bind, get_self,
    lift, call, log, emit, ret, raise, creation_calls. cbn.
  destruct (env (trace w) (Construct (next_conn w))) as [t1|]; cbn.
  - eexists. split; [rewrite <- !app_assoc; reflexivity|]. cbn.
    split; [reflexivity|]. split; [reflexivity|].
    exists 0, (Construct (next_conn w)), t1. repeat split.
  - destruct (is_empty (_auth_params self)); cbn.
    + match goal with |- context [env ?t (Use ?c)] => destruct (env t (Use c)) as [t2|] end; cbn.
      * eexists. split; [rewrite <- !app_assoc; reflexivity|]. cbn.
        split; [reflexivity|]. split; [reflexivity|].
        exists 1, (Use (next_conn w)), t2. repeat split.
      * eexists. split; [rewrite <- !app_assoc; reflexivity|]. cbn. repeat split.
    + match goal with |- context [env ?t (Signin ?c)] =>
        destruct (env t (Signin c)) as [t2|] end; cbn.
      * eexists. split; [rewrite <- !app_assoc; reflexivity|]. cbn.
        split; [reflexivity|]. split; [reflexivity|].
        exists 1, (Signin (next_conn w)), t2. repeat split.
      * match goal with |- context [env ?t (Use ?c)] => destruct (env t (Use c)) as [t3|] end; cbn.
        -- eexists. split; [rewrite <- !app_assoc; reflexivity|]. cbn.
           split; [reflexivity|]. split; [reflexivity|].
           exists 2, (Use (next_conn w)), t3. repeat split.
        -- eexists. split; [rewrite <- !app_assoc; reflexivity|]. cbn. repeat split.
Qed.

(** ** DatabaseManager *)

Lemma single_close_cases (env : oracle) (self : SingleConnection) (w : world) :
  exists delta,
    close env self w
    = (Return tt, {| trace := trace w ++ delta; next_conn := next_conn w |})
    /\ closes delta = [single_connection self]
    /\ List.length (failed_closes delta) = close_warnings delta.
Proof.
  unfold close, try_except, call, except_Exception, log, emit.
  destruct (env (trace w) (Close (single_connection self))) as [tag|]; cbn.
  - exists [(Close (single_connection self), Some tag);
            (Log WARNING "Error closing connection"%string, None)].
    rewrite <- app_assoc. repeat split.
  - exists [(Close (single_connection self), None)]. repeat split.
Qed.

Lemma pool_of_set_pool_of fl pool (self : Manager.DatabaseManager) :
  Manager.pool_of fl (Manager.set_pool_of fl pool self) = pool.
Proof. destruct fl; reflexivity. Qed.

Lemma single_of_set_single_of fl single (self : Manager.DatabaseManager) :
  Manager.single_of fl (Manager.set_single_of fl single self) = single.
Proof. destruct fl; reflexivity. Qed.

(** X23.  [get_connection()] and [get_sync_connection()] build their pool or
    their connection once.  After a call that returned an object (a pool or
    a connection, not [None]), every further call returns the same object
    and touches neither the manager nor the world: no constructor runs
    again, no connection is made. *)
Theorem get_connection_memoizes (Url : string -> outcome UrlScheme) (fl : flavour)
    (env : oracle) (s s' : Manager.DatabaseManager * world) (held : Manager.wrapper) :
  Manager.get_connection_of Url fl env s = (Return held, s') ->
  held <> Manager.NoWrapper ->
  Manager.get_connection_of Url fl env s' = (Return held, s').
Proof.
  destruct s as [self w]. unfold Manager.get_connection_of, bind at 1, get_self at 1.
  cbn [fst snd].
  destruct (Manager._use_pool self) eqn:Hmode.
  - destruct (Manager.pool_of fl self) as [pool|] eqn:Hslot.
    + cbn. intros E _. injection E as <- <-.
      unfold bind, get_self. cbn. rewrite Hmode, Hslot. reflexivity.
    + unfold bind, lift, set_self. cbn [fst snd].
      destruct (ConnectionPool Url _ _ _ _ _ _ _ w) as [[[pool|]|e|] w1]; try discriminate.
      * cbn. intros E _. injection E as <- <-.
        cbn. rewrite Hmode, pool_of_set_pool_of. reflexivity.
      * cbn. intros E Hheld. injection E as <- <-. congruence.
  - destruct (Manager.single_of fl self) as [single|] eqn:Hslot.
    + cbn. intros E _. injection E as <- <-.
      unfold bind, get_self. cbn. rewrite Hmode, Hslot. reflexivity.
    + unfold bind, Manager.Surreal, lift, call, set_self. cbn.
      destruct (env (trace w) (Construct (next_conn w))); cbn; [discriminate|].
      destruct (is_empty (Manager.auth_items (Manager._auth_params self))); cbn;
        repeat (match goal with |- context [env ?t ?ev] => destruct (env t ev) end; cbn;
                try discriminate);
        intros E _; injection E as <- <-; cbn;
        rewrite Hmode, single_of_set_single_of; reflexivity.
Qed.

Lemma get_connection_memoizes_witness :
  exists held s',
    Manager.get_connection example_Url all_well
      (Manager.new_manager "ws://localhost:8000" "test_ns" "test_db" None 10 true 3, new_world)
    = (Return held, s')
    /\ held <> Manager.NoWrapper
    /\ Manager.get_connection example_Url all_well s' = (Return held, s').
Proof.
  eexists. eexists. split; [reflexivity|].
  assert (Hheld : Manager.wrapper_of_pool
                    (Some {| _url := "ws://localhost:8000"; _namespace := "test_ns";
                             _database := "test_db"; _auth_params := []; _pool_size := 10;
                             _max_retries := 3; _retry_delay := Manager.default_retry_delay;
                             _connection_class := WsSurrealConnection;
                             _pool := []; _available := []; _closed := false |})
                  <> Manager.NoWrapper) by discriminate.
  split; [exact Hheld|].
  apply (@get_connection_memoizes example_Url Async all_well
           (Manager.new_manager "ws://localhost:8000" "test_ns" "test_db" None 10 true 3,
            new_world)); [reflexivity | exact Hheld].
Defined.

(** X24.  In pool mode, with a URL whose scheme the pools reject,
    [get_connection()] and [get_sync_connection()] raise nothing: the
    decorated pool class logs the [ValueError] and returns [None], which
    the manager stores and returns.  The manager then still holds no pool,
    so the next call runs the constructor again, logs again and returns
    [None] again. *)
Theorem get_connection_returns_none (Url : string -> outcome UrlScheme) (fl : flavour)
    (env : oracle) (self : Manager.DatabaseManager) (w : world) (scheme : UrlScheme) :
  Manager._use_pool self = true ->
  Manager.pool_of fl self = None ->
  Url (Manager._url self) = Return scheme ->
  is_supported scheme = false ->
  let logged w := record_entry (Log ERROR "An error has been caught in function", None) w in
  let self' := Manager.set_pool_of fl None self in
  Manager.get_connection_of Url fl env (self, w) = (Return Manager.NoWrapper, (self', logged w))
  /\ Manager.pool_of fl self' = None
  /\ Manager.get_connection_of Url fl env (self', logged w)
     = (Return Manager.NoWrapper, (self', logged (logged w))).
Proof.
  intros Hmode Hslot Hurl Hscheme logged self'.
  assert (Hcall : forall (self0 : Manager.DatabaseManager) w0,
            Manager._use_pool self0 = true ->
            Manager.pool_of fl self0 = None ->
            Manager._url self0 = Manager._url self ->
            Manager.get_connection_of Url fl env (self0, w0)
            = (Return Manager.NoWrapper, (Manager.set_pool_of fl None self0, logged w0))).
  { intros self0 w0 Hmode0 Hslot0 Hurl0.
    unfold Manager.get_connection_of, bind at 1, get_self at 1. cbn [fst snd].
    rewrite Hmode0, Hslot0. unfold bind at 1, lift at 1. cbn [fst snd].
    pose proof (init_rejects_unsupported_scheme Url (Manager._url self0)
                  (Manager._namespace self0) (Manager._database self0)
                  (Manager.auth_items (Manager._auth_params self0))
                  (Manager._pool_size self0) (Manager._max_retries self0)
                  Manager.default_retry_delay w0) as Hinit.
    rewrite <- Hurl0 in Hurl. rewrite Hurl in Hinit.
    unfold ConnectionPool, logger_catch, try_except, bind at 1.
    rewrite (Hinit Hscheme). reflexivity. }
  split; [apply Hcall; auto|]. split; [apply pool_of_set_pool_of|].
  subst self'. rewrite Hcall.
  - destruct fl; reflexivity.
  - destruct fl; exact Hmode.
  - apply pool_of_set_pool_of.
  - destruct fl; reflexivity.
Qed.

Lemma get_connection_returns_none_witness :
  Manager.get_connection example_Url all_well
    (Manager.new_manager "mem://" "test_ns" "test_db" None 10 true 3, new_world)
  = (Return Manager.NoWrapper,
     (Manager.set_pool_of Async None
        (Manager.new_manager "mem://" "test_ns" "test_db" None 10 true 3),
      {| trace := [(Log ERROR "An error has been caught in function", None)];
         next_conn := 0 |})).
Proof.
  exact (proj1 (@get_connection_returns_none example_Url Async all_well
                  (Manager.new_manager "mem://" "test_ns" "test_db" None 10 true 3)
                  new_world (OtherScheme "MEM") eq_refl eq_refl eq_refl eq_refl)).
Defined.

Lemma manager_close_cases (fl : flavour) (env : oracle)
    (self : Manager.DatabaseManager) (w : world) :
  exists delta closed rest,
    Manager.close_of fl env (self, w)
    = (Return tt,
       (Manager.set_single_of fl None (Manager.set_pool_of fl None self),
        {| trace := trace w ++ delta; next_conn := next_conn w |}))
    /\ closes delta
       = closed
         ++ match Manager.single_of fl self with
            | Some single => [single_connection single]
            | None => []
            end
    /\ closed ++ rest
       = match Manager.pool_of fl self with
         | Some pool => _available pool
         | None => []
         end
    /\ (drains_through fl env -> rest = []).
Proof.
  unfold Manager.close_of, bind at 1, get_self at 1. cbn [fst snd].
  assert (Hsingle : forall (self1 : Manager.DatabaseManager) w1,
            Manager.single_of fl self1 = Manager.single_of fl self ->
            exists d,
              (self0 <- get_self ;;
               match Manager.single_of fl self0 with
               | Some single =>
                   lift (close env single) ;; set_self (Manager.set_single_of fl None)
               | None => ret tt
               end) (self1, w1)
              = (Return tt,
                 (match Manager.single_of fl self with
                  | Some _ => Manager.set_single_of fl None self1
                  | None => self1
                  end,
                  {| trace := trace w1 ++ d; next_conn := next_conn w1 |}))
              /\ closes d = match Manager.single_of fl self with
                            | Some single => [single_connection single]
                            | None => []
                            end).
  { intros self1 w1 Hsame. unfold bind at 1, get_self. cbn [fst snd]. rewrite Hsame.
    destruct (Manager.single_of fl self) as [single|].
    - destruct (single_close_cases env single w1) as (d & Hrun & Hc & _).
      unfold bind, lift, set_self. cbn [fst snd]. rewrite Hrun. cbn.
      exists d. split; [reflexivity | exact Hc].
    - exists []. cbn. rewrite app_nil_r. destruct w1. split; reflexivity. }
  destruct (Manager.pool_of fl self) as [pool|] eqn:Hslot.
  - destruct (@close_all_cases env fl pool w) as (d1 & rest & Hrun1 & Hc1 & _ & _ & Hrest).
    unfold bind at 1. unfold bind at 1. unfold Manager.on_pool. cbn [fst snd]. rewrite Hrun1.
    unfold set_self at 1. cbn [fst snd].
    match goal with |- context [bind get_self _ (?self1, ?w1)] =>
      destruct (Hsingle self1 w1) as (d2 & Hrun2 & Hc2) end.
    { destruct fl; reflexivity. }
    rewrite Hrun2. cbn [trace next_conn].
    exists ((d1 ++ [(Log INFO "Connection pool closed"%string, None)]) ++ d2),
           (closes d1), rest.
    split; [|split; [|split]].
    + f_equal. f_equal.
      * clear Hsingle Hrun2 Hc2.
        destruct (Manager.single_of fl self) eqn:Hs; destruct self, fl; cbn in *; subst;
          reflexivity.
      * rewrite <- !app_assoc. reflexivity.
    + rewrite !closes_app, Hc2. cbn. rewrite app_nil_r. reflexivity.
    + exact Hc1.
    + intros Hthrough. apply (Hrest Hthrough).
  - unfold bind at 1, ret at 1. cbn [fst snd].
    destruct (Hsingle self w eq_refl) as (d2 & Hrun2 & Hc2).
    rewrite Hrun2. exists d2, [], []. split; [|split; [exact Hc2 | split; auto]].
    f_equal. f_equal.
    destruct (Manager.single_of fl self) eqn:Hs; destruct self, fl; cbn in *; subst; reflexivity.
Qed.

(** X25.  [close()] and [close_sync()] return whatever the connections do.
    The pool of the flavour, if the manager holds one, is closed with
    [close_all()] and dropped; the single connection, if it holds one, is
    closed and dropped.  The objects of the other flavour are not
    touched.  The connections closed are those queued in the pool, in
    queue order, then the single connection; in [close_sync()] this takes
    that no [close()] raises [queue.Empty], which would end the drain of
    the pool (the single connection is closed all the same). *)
Theorem manager_close_contract (fl : flavour) (env : oracle)
    (self : Manager.DatabaseManager) (w : world) :
  drains_through fl env ->
  exists delta,
    let self' := fst (snd (Manager.close_of fl env (self, w))) in
    Manager.close_of fl env (self, w)
    = (Return tt, (self', {| trace := trace w ++ delta; next_conn := next_conn w |}))
    /\ self' = Manager.set_single_of fl None (Manager.set_pool_of fl None self)
    /\ Manager.pool_of fl self' = None
    /\ Manager.single_of fl self' = None
    /\ closes delta
       = match Manager.pool_of fl self with
         | Some pool => _available pool
         | None => []
         end
         ++ match Manager.single_of fl self with
            | Some single => [single_connection single]
            | None => []
            end.
Proof.
  intros Hthrough.
  destruct (manager_close_cases fl env self w) as (delta & closed & rest & Hrun & Hc & Hq & Hrest).
  rewrite (Hrest Hthrough), app_nil_r in Hq. subst closed.
  exists delta. rewrite Hrun. cbn [fst snd].
  split; [reflexivity|]. split; [reflexivity|].
  split; [destruct fl; reflexivity|]. split; [destruct fl; reflexivity | exact Hc].
Qed.

Lemma manager_close_contract_witness :
  closes
    (trace (snd (snd (Manager.close_sync first_connection_stale
                        (Manager.set_pool_of Sync (Some warm_pool)
                           (Manager.new_manager "http://localhost:8000" "test_ns" "test_db"
                              None 2 true 3),
                         new_world)))))
  = [0; 1].
Proof.
  destruct (@manager_close_contract Sync first_connection_stale
              (Manager.set_pool_of Sync (Some warm_pool)
                 (Manager.new_manager "http://localhost:8000" "test_ns" "test_db"
                    None 2 true 3))
              new_world) as (delta & Hrun & _ & _ & _ & Hc).
  - intros _ t c. destruct c as [|c]; discriminate.
  - unfold Manager.close_sync. rewrite Hrun. cbn [fst snd trace new_world app].
    rewrite Hc. reflexivity.
Defined.

(** X26.  A manager that was closed can be used again.  [close()] leaves it
    without a pool, so in pool mode, with a URL of a supported scheme, the
    next [get_connection()] builds a new one: open, empty, and not yet
    connected (the world is not touched). *)
Theorem manager_reopens_after_close (Url : string -> outcome UrlScheme) (fl : flavour)
    (env : oracle) (self : Manager.DatabaseManager) (w : world) (scheme : UrlScheme) :
  Manager._use_pool self = true ->
  Url (Manager._url self) = Return scheme ->
  is_supported scheme = true ->
  let closed := snd (Manager.close_of fl env (self, w)) in
  exists pool,
    Manager.get_connection_of Url fl env closed
    = (Return (Manager.PoolWrapper pool),
       (Manager.set_pool_of fl (Some pool) (fst closed), snd closed))
    /\ is_closed pool = false
    /\ _pool pool = [] /\ available_connections pool = 0%Z
    /\ pool_size pool = Manager._pool_size self.
Proof.
  intros Hmode Hurl Hscheme closed. subst closed.
  destruct (manager_close_cases fl env self w) as (delta & closed & rest & -> & _).
  cbn [fst snd].
  unfold Manager.get_connection_of, bind at 1, get_self at 1. cbn [fst snd].
  assert (Hslot : Manager.pool_of fl
                    (Manager.set_single_of fl None (Manager.set_pool_of fl None self)) = None)
    by (destruct fl; reflexivity).
  replace (Manager._use_pool (Manager.set_single_of fl None (Manager.set_pool_of fl None self)))
    with true by (symmetry; exact Hmode).
  rewrite Hslot.
  unfold bind, lift, set_self, ConnectionPool, logger_catch, try_except, __init__, bind, eval.
  cbn. rewrite Hurl.
  destruct scheme; try discriminate; cbn; eexists; repeat split.
Qed.

Lemma manager_reopens_after_close_witness :
  exists pool s',
    Manager.get_connection example_Url all_well
      (snd (Manager.close all_well
              (Manager.new_manager "http://localhost:8000" "test_ns" "test_db" None 2 true 3,
               new_world)))
    = (Return (Manager.PoolWrapper pool), s')
    /\ is_closed pool = false.
Proof.
  destruct (@manager_reopens_after_close example_Url Async all_well
              (Manager.new_manager "http://localhost:8000" "test_ns" "test_db" None 2 true 3)
              new_world HTTP eq_refl eq_refl eq_refl) as (pool & Hrun & Hopen & _).
  exists pool. eexists. split; [exact Hrun | exact Hopen].
Defined.

(** X27.  Without a pool, the manager connects on the first
    [get_connection()], when it holds no connection yet.  When the construction, the sign-in or the [use]
    fails, the failure reaches the caller as it is (it is not wrapped in a
    [ConnectionError], as the pool does), the connection object that was
    constructed is not closed, and the manager keeps nothing: the next call
    starts again with a new connection object. *)
Theorem single_connection_failure_not_kept (Url : string -> outcome UrlScheme)
    (fl : flavour) (env : oracle) (self : Manager.DatabaseManager) (w : world)
    (e : exn) (s' : Manager.DatabaseManager * world) :
  Manager._use_pool self = false ->
  Manager.single_of fl self = None ->
  Manager.get_connection_of Url fl env (self, w) = (Raise e, s') ->
  exists tag delta,
    e = Failure tag
    /\ s' = (self, {| trace := trace w ++ delta; next_conn := S (next_conn w) |})
    /\ constructs delta = [next_conn w]
    /\ closes delta = [].
Proof.
  intros Hmode Hslot.
  unfold Manager.get_connection_of, bind at 1, get_self at 1. cbn [fst snd].
  rewrite Hmode, Hslot.
  unfold bind, Manager.Surreal, lift, call, set_self. cbn.
  destruct (env (trace w) (Construct (next_conn w))) as [t1|]; cbn.
  - intros E. injection E as <- <-. exists t1. eexists. repeat split.
  - destruct (is_empty (Manager.auth_items (Manager._auth_params self))); cbn.
    + match goal with |- context [env ?t (Use ?c)] => destruct (env t (Use c)) as [t2|] end;
        cbn; [|discriminate].
      intros E. injection E as <- <-. exists t2. eexists.
      split; [reflexivity|]. split; [rewrite <- app_assoc; reflexivity|]. split; reflexivity.
    + match goal with |- context [env ?t (Signin ?c)] =>
        destruct (env t (Signin c)) as [t2|] end; cbn.
      * intros E. injection E as <- <-. exists t2. eexists.
        split; [reflexivity|]. split; [rewrite <- app_assoc; reflexivity|]. split; reflexivity.
      * match goal with |- context [env ?t (Use ?c)] => destruct (env t (Use c)) as [t3|] end;
          cbn; [|discriminate].
        intros E. injection E as <- <-. exists t3. eexists.
        split; [reflexivity|]. split; [rewrite <- !app_assoc; reflexivity|]. split; reflexivity.
Qed.

Lemma single_connection_failure_not_kept_witness :
  exists delta,
    Manager.get_sync_connection example_Url signin_refused
      (Manager.new_manager "ws://localhost:8000" "test_ns" "test_db"
         (Some [("username"%string, "root"%string)]) 10 false 3, new_world)
    = (Raise (Failure 4),
       (Manager.new_manager "ws://localhost:8000" "test_ns" "test_db"
          (Some [("username"%string, "root"%string)]) 10 false 3,
        {| trace := delta; next_conn := 1 |}))
    /\ closes delta = [].
Proof.
  destruct (@single_connection_failure_not_kept example_Url Sync signin_refused
              (Manager.new_manager "ws://localhost:8000" "test_ns" "test_db"
                 (Some [("username"%string, "root"%string)]) 10 false 3)
              new_world (Failure 4) _ eq_refl eq_refl eq_refl)
    as (tag & delta & _ & Hs & _ & Hc).
  exists delta. split; [|exact Hc].
  injection Hs as Hd. rewrite <- Hd. reflexivity.
Defined.

(** ** Query builders: [_build_update_query] and [_build_delete_query] *)

Local Open Scope string_scope.

Lemma append_inv_head (a b c : string) : a ++ b = a ++ c -> b = c.
Proof. induction a as [|x a IH]; cbn; intros H; [exact H | injection H as H; auto]. Qed.

Lemma conditions_of_plain_filter (filter : list (string * pyvalue)) :
  plain filter = true ->
  map (fun kv => condition (fst kv) (snd kv)) filter
  = map (fun kv => fst kv ++ " = " ++ repr (snd kv)) filter.
Proof.
  unfold plain. intros H. apply map_ext_in. intros kv Hin.
  rewrite forallb_forall in H. specialize (H kv Hin).
  apply condition_without_suffix. destruct (has_suffix (fst kv)); [discriminate | reflexivity].
Qed.

(** A key with an operator suffix: the predicate of the SELECT builder is
    not the equality on the whole key. *)
Lemma condition_translates_suffix (field suffix : string) (value : pyvalue) :
  In suffix suffixes ->
  condition (field ++ suffix) value <> (field ++ suffix) ++ " = " ++ repr value.
Proof.
  intros Hin.
  destruct (condition_of_suffix field value) as (Hgte & Hlte & Hgt & Hlt & Hne & Hcont & Hin').
  unfold suffixes in Hin. cbn in Hin.
  destruct Hin as [<-|[<-|[<-|[<-|[<-|[<-|[<-|[]]]]]]]];
    rewrite append_assoc;
    [rewrite Hgte | rewrite Hlte | rewrite Hgt | rewrite Hlt | rewrite Hne | rewrite Hin'
    | rewrite Hcont];
    try (destruct value); intros H; apply append_inv_head in H; discriminate H.
Qed.

(** X28.  The three query builders agree on a filter whose keys carry no
    operator suffix: the DELETE and the UPDATE built for it have the very
    WHERE clause of the SELECT, one equality per item conjoined with AND in
    the order of the mapping, and no clause at all for an empty filter. *)
Theorem builders_agree_on_plain_filters (table : string)
    (filter update_data : list (string * pyvalue)) (merge : bool) :
  plain filter = true ->
  exists where_,
    _build_filter_query table filter = "SELECT * FROM " ++ table ++ where_
    /\ _build_delete_query table filter = "DELETE FROM " ++ table ++ where_
    /\ _build_update_query table filter update_data merge
       = "UPDATE " ++ table ++ " " ++ (if merge then "MERGE" else "SET") ++ " {"
         ++ String.concat ", " (map (fun kv => fst kv ++ " = " ++ repr (snd kv)) update_data)
         ++ "}" ++ where_
    /\ where_
       = match filter with
         | [] => EmptyString
         | _ => " WHERE "
                ++ String.concat " AND " (map (fun kv => fst kv ++ " = " ++ repr (snd kv)) filter)
         end.
Proof.
  intros Hplain.
  unfold _build_filter_query, _build_delete_query, _build_update_query.
  rewrite !(fold_left_append (fun kv : string * pyvalue => fst kv ++ " = " ++ repr (snd kv))).
  rewrite (fold_left_append (fun kv : string * pyvalue => condition (fst kv) (snd kv))).
  cbn [app]. rewrite (conditions_of_plain_filter filter Hplain).
  destruct filter as [|item rest]; cbn [is_empty negb].
  - exists EmptyString. rewrite !append_empty_r. repeat split.
  - eexists. split; [reflexivity|]. split; [reflexivity|]. split; [|reflexivity].
    destruct merge; reflexivity.
Qed.

Lemma builders_agree_on_plain_filters_witness :
  exists where_,
    _build_filter_query "users" [("name", PyStr "Bob"); ("age", PyInt 30)]
    = "SELECT * FROM users" ++ where_
    /\ _build_delete_query "users" [("name", PyStr "Bob"); ("age", PyInt 30)]
       = "DELETE FROM users" ++ where_
    /\ where_ = " WHERE name = 'Bob' AND age = 30".
Proof.
  destruct (@builders_agree_on_plain_filters "users" [("name", PyStr "Bob"); ("age", PyInt 30)]
              [] false eq_refl) as (where_ & Hselect & Hdelete & _ & Hwhere).
  exists where_. split; [exact Hselect|]. split; [exact Hdelete | exact Hwhere].
Defined.

(** X29.  The DELETE and UPDATE builders know no operator suffix.  For a key
    [field__gte], [__lte], [__gt], [__lt], [__ne], [__in] or [__contains] they
    still write the equality [key = value] on the whole key, which is not the
    predicate the SELECT builder writes for the same item: the three
    builders do not select the same records. *)
Theorem update_and_delete_ignore_suffixes (table field suffix : string) (value : pyvalue)
    (update_data : list (string * pyvalue)) (merge : bool) :
  In suffix suffixes ->
  let key := field ++ suffix in
  exists selected written,
    _build_filter_query table [(key, value)] = "SELECT * FROM " ++ table ++ " WHERE " ++ selected
    /\ _build_delete_query table [(key, value)] = "DELETE FROM " ++ table ++ " WHERE " ++ written
    /\ _build_update_query table [(key, value)] update_data merge
       = "UPDATE " ++ table ++ " " ++ (if merge then "MERGE" else "SET") ++ " {"
         ++ String.concat ", " (map (fun kv => fst kv ++ " = " ++ repr (snd kv)) update_data)
         ++ "} WHERE " ++ written
    /\ written = key ++ " = " ++ repr value
    /\ selected <> written.
Proof.
  intros Hin key.
  exists (condition key value), (key ++ " = " ++ repr value).
  split; [reflexivity|]. split; [reflexivity|]. split.
  - unfold _build_update_query.
    rewrite (fold_left_append (fun kv : string * pyvalue => fst kv ++ " = " ++ repr (snd kv))).
    destruct merge; reflexivity.
  - split; [reflexivity|]. apply condition_translates_suffix. exact Hin.
Qed.

Lemma update_and_delete_ignore_suffixes_witness :
  _build_filter_query "users" [("age__gte", PyInt 18)] = "SELECT * FROM users WHERE age >= 18"
  /\ _build_delete_query "users" [("age__gte", PyInt 18)]
     = "DELETE FROM users WHERE age__gte = 18".
Proof.
  destruct (@update_and_delete_ignore_suffixes "users" "age" "__gte" (PyInt 18) [] false)
    as (selected & written & _ & Hdelete & _ & Hwritten & _).
  - left. reflexivity.
  - split; [reflexivity|]. subst written. exact Hdelete.
Defined.

Local Close Scope string_scope.

(** ** BulkResult: the range of [success_rate] *)

(** X30.  With counts that are not negative, [success_rate] is a percentage:
    it lies between 0 and 100; it is 100 when no operation failed (and there
    was one), and 0 when none succeeded. *)
Theorem success_rate_is_percentage (self : BulkResult) :
  (0 <= success_count self)%Z -> (0 <= error_count self)%Z ->
  exists rate,
    success_rate self = Return (Finite rate)
    /\ (0 <= rate)%Q /\ (rate <= 100 # 1)%Q
    /\ (error_count self = 0%Z -> (0 < success_count self)%Z -> (rate == 100 # 1)%Q)
    /\ (success_count self = 0%Z -> (rate == 0)%Q).
Proof.
  intros Hs He. unfold success_rate, truediv, total_count.
  destruct (success_count self + error_count self =? 0)%Z eqn:Hzero.
  - exists (0 # 1)%Q. apply Z.eqb_eq in Hzero.
    split; [reflexivity|]. split; [discriminate|]. split; [discriminate|].
    split; [lia | reflexivity].
  - apply Z.eqb_neq in Hzero.
    remember (success_count self) as s eqn:Hsdef. remember (error_count self) as e eqn:Hedef.
    clear Hsdef Hedef.
    assert (Hratio : exists ratio,
               binary64 (inject_Z s / inject_Z (s + e)) = Finite ratio
               /\ (0 <= ratio)%Q /\ (ratio <= inject_Z 1)%Q
               /\ (e = 0%Z -> ratio = scaled (2 ^ 52) (-52))
               /\ (s = 0%Z -> ratio = (0 # 1)%Q)).
    { destruct (Z.eq_dec s 0) as [Hs0|Hs0].
      - subst s. destruct e as [|e|e]; [lia| |lia].
        exists (0 # 1)%Q. split; [reflexivity|].
        split; [discriminate|]. split; [discriminate|]. split; [discriminate | reflexivity].
      - destruct (@binary64_le (inject_Z s / inject_Z (s + e)) 1) as (ratio & Hq & Hlo & Hhi).
        + unfold Qdiv. apply Qmult_le_0_compat.
          * unfold Qle, inject_Z. cbn. lia.
          * apply Qinv_le_0_compat. unfold Qle, inject_Z. cbn. lia.
        + apply Qle_shift_div_r.
          * unfold Qlt, inject_Z. cbn. lia.
          * unfold Qle, inject_Z, Qmult. cbn [Qnum Qden]. lia.
        + split; [lia | reflexivity].
        + exists ratio. split; [exact Hq|]. split; [exact Hlo|]. split; [exact Hhi|].
          split; [|lia].
          intros He0. subst e. rewrite Z.add_0_r in Hq.
          destruct s as [|p|p]; [lia| |lia].
          unfold binary64, Qdiv, Qmult, Qinv, inject_Z in Hq. cbn [Qnum Qden] in Hq.
          unfold round_magnitude, ulp_exponent, floor_log2 in Hq.
          rewrite Z.mul_1_r, Pos.mul_1_l, Z.sub_diag in Hq.
          cbn [Z.leb Z.compare] in Hq. change (2 ^ 0)%Z with 1%Z in Hq.
          rewrite Z.mul_1_r, Z.ltb_irrefl in Hq.
          change (Z.max (0 - 52) (-1074)) with (-52)%Z in Hq.
          cbn [Z.leb Z.compare andb Z.opp] in Hq.
          rewrite Z.mul_comm, nearest_even_exact in Hq by lia.
          injection Hq as <-. reflexivity. }
    destruct Hratio as (ratio & Hq & Hlo & Hhi & Hone & Hzero').
    rewrite Hq.
    destruct (@binary64_le (ratio * (100 # 1)) 100) as (rate & Hr & Hrlo & Hrhi).
    + apply Qmult_le_0_compat; [exact Hlo | discriminate].
    + setoid_replace (inject_Z 100) with (inject_Z 1 * (100 # 1))%Q by reflexivity.
      apply Qmult_le_compat_r; [exact Hhi | discriminate].
    + split; [lia | reflexivity].
    + exists rate. unfold float_mul. rewrite Hr.
      split; [reflexivity|]. split; [exact Hrlo|]. split; [exact Hrhi|]. split.
      * intros He0 _. rewrite (Hone He0) in Hr. vm_compute in Hr.
        injection Hr as <-. vm_compute. reflexivity.
      * intros Hs0. rewrite (Hzero' Hs0) in Hr. vm_compute in Hr.
        injection Hr as <-. reflexivity.
Qed.

Lemma success_rate_is_percentage_witness :
  exists rate,
    success_rate {| success_count := 3; error_count := 1; errors := []; results := [] |}
    = Return (Finite rate)
    /\ (0 <= rate)%Q /\ (rate <= 100 # 1)%Q.
Proof.
  destruct (@success_rate_is_percentage
              {| success_count := 3; error_count := 1; errors := []; results := [] |})
    as (rate & Hrun & Hlo & Hhi & _).
  - cbn. lia.
  - cbn. lia.
  - exists rate. split; [exact Hrun|]. split; [exact Hlo | exact Hhi].
Defined.
